(** * The element model of [packages/element/src/index.ts]

    A shallow embedding of the message-element core: the escaper, the
    node constructor and serializer, the tokenizer and tree builder, the
    selector parser and query engine, and the two transform engines.

    JavaScript strings are modelled as [string] (one [ascii] per code
    unit), a call that throws as the [Throws] result.  The functions are
    first given on the values of nodes (trees); the module [Store] gives
    the tree builder and [transform] again on nodes that are objects of a
    store, and the tree builders of the two levels are related in the
    second part. *)

From Stdlib Require Import String Ascii List Bool Arith Lia.
Import ListNotations.
Local Open Scope list_scope.
Local Open Scope string_scope.

Set Implicit Arguments.

(* ================================================================== *)
(** ** Results of calls that may throw *)

Inductive result (A : Type) : Type :=
| Return (v : A)
| Throws.

Arguments Return {A} v.
Arguments Throws {A}.

Definition bind {A B} (r : result A) (f : A -> result B) : result B :=
  match r with
  | Return v => f v
  | Throws => Throws
  end.

Notation "'let*' x ':=' r 'in' k" := (bind r (fun x => k))
  (at level 10, x pattern, r at level 100, k at level 200).

(* ================================================================== *)
(** ** Strings *)

(** The double quote character, code unit 34, and the string made of it. *)
Abbreviation dquote := (Ascii false true false false false true false false) (only parsing).
Abbreviation dquotes := (String dquote EmptyString) (only parsing).

Module Str.

Fixpoint drop (n : nat) (s : string) : string :=
  match n, s with
  | S k, String _ s' => drop k s'
  | _, _ => s
  end.

Fixpoint take (n : nat) (s : string) : string :=
  match n, s with
  | S k, String c s' => String c (take k s')
  | _, _ => ""
  end.

(** [s.slice(i, j)] for [0 <= i <= j]. *)
Definition slice (i j : nat) (s : string) : string := take (j - i) (drop i s).

Fixpoint all (p : ascii -> bool) (s : string) : bool :=
  match s with
  | "" => true
  | String c s' => p c && all p s'
  end.

Fixpoint cmap (f : ascii -> string) (s : string) : string :=
  match s with
  | "" => ""
  | String c s' => f c ++ cmap f s'
  end.

Definition is_empty (s : string) : bool :=
  match s with "" => true | _ => false end.

Fixpoint starts_with (pat s : string) : bool :=
  match pat, s with
  | "", _ => true
  | String p pat', String c s' => Ascii.eqb p c && starts_with pat' s'
  | String _ _, "" => false
  end.

(** [s.replace(/pat/g, rep)] for a literal, non-empty pattern: matches
    are looked for from left to right and do not overlap; [skip] counts
    the characters of the current match still to be passed over. *)
Fixpoint replace_from (pat rep : string) (skip : nat) (s : string) : string :=
  match s with
  | "" => ""
  | String c s' =>
      match skip with
      | S k => replace_from pat rep k s'
      | O =>
          if starts_with pat s
          then rep ++ replace_from pat rep (String.length pat - 1) s'
          else String c (replace_from pat rep 0 s')
      end
  end.

Definition replace_all (pat rep s : string) : string := replace_from pat rep 0 s.

End Str.

(* ================================================================== *)
(** ** Escaper (index.ts, lines 82-98) *)

Definition escape (source : string) (inline : bool) : string :=
  let result :=
    Str.replace_all ">" "&gt;"
      (Str.replace_all "<" "&lt;"
         (Str.replace_all "&" "&amp;" source)) in
  if inline then Str.replace_all dquotes "&quot;" result else result.

Definition unescape (source : string) : string :=
  Str.replace_all "&amp;" "&"
    (Str.replace_all "&quot;" dquotes
       (Str.replace_all "&gt;" ">"
          (Str.replace_all "&lt;" "<" source))).

(** The same functions read character by character; [stage] also covers
    the intermediate strings of [unescape], telling which of the four
    characters are still written as entities. *)
Definition stage (amp lt gt quot : bool) (c : ascii) : string :=
  if Ascii.eqb c "&" then (if amp then "&amp;" else "&")
  else if Ascii.eqb c "<" then (if lt then "&lt;" else "<")
  else if Ascii.eqb c ">" then (if gt then "&gt;" else ">")
  else if Ascii.eqb c dquote then (if quot then "&quot;" else dquotes)
  else String c "".

Definition esc_char (inline : bool) (c : ascii) : string :=
  if Ascii.eqb c "&" then "&amp;"
  else if Ascii.eqb c "<" then "&lt;"
  else if Ascii.eqb c ">" then "&gt;"
  else if inline && Ascii.eqb c dquote then "&quot;"
  else String c "".

(* ================================================================== *)
(** ** Regular expressions

    A backtracking matcher with the priorities of ECMAScript: a greedy
    quantifier first tries one more iteration, a lazy one first tries the
    continuation; an iteration that consumes nothing is rejected.  Only
    the constructs the regular expressions of [index.ts] use are present;
    none of them has a capturing group under a repetition. *)

Module Regex.

Inductive regex : Type :=
| Chr (c : ascii)               (* a literal character *)
| Class (p : ascii -> bool)     (* a character class *)
| Seq (r1 r2 : regex)
| Star (r : regex)              (* r*  *)
| StarLazy (r : regex)          (* r*? *)
| Plus (r : regex)              (* r+  *)
| Opt (r : regex)               (* r?  *)
| Group (i : nat) (r : regex).  (* the i-th capturing group *)

(** Captured groups; a group that did not take part is absent. *)
Definition captures := list (nat * string).

Fixpoint cap (i : nat) (caps : captures) : option string :=
  match caps with
  | [] => None
  | (j, s) :: caps' => if Nat.eqb i j then Some s else cap i caps'
  end.

Definition outcome := option (string * captures).
Definition cont := string -> captures -> outcome.
Definition matcher := string -> captures -> cont -> outcome.

Definition progress (s : string) (k : cont) : cont :=
  fun s' caps' =>
    if Nat.ltb (String.length s') (String.length s) then k s' caps' else None.

Definition star_loop (body : matcher) (greedy : bool) (k : cont)
  : nat -> string -> captures -> outcome :=
  fix loop (fuel : nat) (s : string) (caps : captures) {struct fuel} :=
    match fuel with
    | O => k s caps
    | S fuel' =>
        if greedy then
          match body s caps (progress s (loop fuel')) with
          | Some r => Some r
          | None => k s caps
          end
        else
          match k s caps with
          | Some r => Some r
          | None => body s caps (progress s (loop fuel'))
          end
    end.

Definition one (p : ascii -> bool) : matcher :=
  fun s caps k =>
    match s with
    | String c s' => if p c then k s' caps else None
    | "" => None
    end.

Fixpoint m (r : regex) : matcher :=
  match r with
  | Chr c => one (Ascii.eqb c)
  | Class p => one p
  | Seq r1 r2 => fun s caps k => m r1 s caps (fun s' caps' => m r2 s' caps' k)
  | Star r => fun s caps k => star_loop (m r) true k (S (String.length s)) s caps
  | StarLazy r => fun s caps k => star_loop (m r) false k (S (String.length s)) s caps
  | Plus r =>
      fun s caps k =>
        m r s caps
          (fun s' caps' => star_loop (m r) true k (S (String.length s')) s' caps')
  | Opt r =>
      fun s caps k =>
        match m r s caps (progress s k) with
        | Some x => Some x
        | None => k s caps
        end
  | Group i r =>
      fun s caps k =>
        m r s caps
          (fun s' caps' =>
             k s' ((i, Str.take (String.length s - String.length s') s) :: caps'))
  end.

(** What [exec] returns on success: [index], the whole match, the
    groups, and the text after the match. *)
Record found : Type := mkFound {
  index : nat;
  whole : string;
  groups : captures;
  after : string
}.

Definition match_here (re : regex) (s : string) : outcome :=
  m re s [] (fun s' caps => Some (s', caps)).

(** The leftmost match in [s], which starts [i] characters into the
    subject. *)
Fixpoint search (re : regex) (i : nat) (s : string) : option found :=
  match match_here re s with
  | Some (s', caps) =>
      Some (mkFound i (Str.take (String.length s - String.length s') s) caps s')
  | None =>
      match s with
      | "" => None
      | String _ s' => search re (S i) s'
      end
  end.

(** [re.exec(s)] without the [g] flag. *)
Definition exec (re : regex) (s : string) : option found := search re 0 s.

(** [re.exec(s)] with the [g] flag: the search starts at [lastIndex];
    the second component is the new [lastIndex]. *)
Definition exec_g (re : regex) (lastIndex : nat) (s : string) : option found * nat :=
  if Nat.ltb (String.length s) lastIndex then (None, 0)
  else
    match search re lastIndex (Str.drop lastIndex s) with
    | Some f => (Some f, index f + String.length (whole f))
    | None => (None, 0)
    end.

(** The text of group [i], [d] when the group is undefined. *)
Definition group_or (d : string) (i : nat) (f : found) : string :=
  match cap i (groups f) with
  | Some s => s
  | None => d
  end.

End Regex.

Import Regex.
Infix "@@" := Seq (right associativity, at level 60).

(** [\s] on code units below 256. *)
Definition is_space (c : ascii) : bool :=
  let n := nat_of_ascii c in
  (Nat.leb 9 n && Nat.leb n 13) || Nat.eqb n 32 || Nat.eqb n 160.

Definition is_char (x : ascii) (c : ascii) : bool := Ascii.eqb x c.

(** The character classes of the regular expressions of [index.ts]. *)
Definition comb_char (c : ascii) : bool :=
  is_char " " c || is_char ">" c || is_char "+" c || is_char "~" c.

Definition name_char (c : ascii) : bool := negb (is_space c || is_char ">" c).

Definition non_gt (c : ascii) : bool := negb (is_char ">" c).

Definition attr_key_char (c : ascii) : bool := negb (is_space c || is_char "=" c).

Definition non_quote (c : ascii) : bool := negb (is_char dquote c).

(** [combRegExp], with the [g] flag: spaces, one of the four combinator
    characters (space, [>], [+], [~]) as the first group, spaces. *)
Definition combRegExp : regex :=
  Star (Chr " ") @@ Group 1 (Class comb_char) @@ Star (Chr " ").

(** [const tagRegExp = /<(\/?)\s*([^\s>]+)([^>]*?)\s*(\/?)>/] *)
Definition tagRegExp : regex :=
  Chr "<"
  @@ Group 1 (Opt (Chr "/"))
  @@ Star (Class is_space)
  @@ Group 2 (Plus (Class name_char))
  @@ Group 3 (StarLazy (Class non_gt))
  @@ Star (Class is_space)
  @@ Group 4 (Opt (Chr "/"))
  @@ Chr ">".

(** [attrRegExp], with the [g] flag: a key [([^\s=]+)], then optionally
    an equals sign and a value between double quotes, the value being
    the second group, any characters but the double quote. *)
Definition attrRegExp : regex :=
  Group 1 (Plus (Class attr_key_char))
  @@ Opt (Chr "=" @@ Chr dquote @@ Group 2 (Star (Class non_quote)) @@ Chr dquote).

(* ================================================================== *)
(** ** Objects used as dictionaries

    A [Dict<V>] is read through [Object.entries], which lists the keys in
    the order of their first insertion; assigning to a key that is present
    keeps its place.  (Keys that are array indices, which an object lists
    first, and the key [__proto__] are not modelled.) *)

Module Dict.

Definition t (V : Type) : Type := list (string * V).

Fixpoint get {V} (k : string) (d : t V) : option V :=
  match d with
  | [] => None
  | (k', v) :: d' => if String.eqb k k' then Some v else get k d'
  end.

(** [d[k] = v] *)
Fixpoint set {V} (k : string) (v : V) (d : t V) : t V :=
  match d with
  | [] => [(k, v)]
  | (k', v') :: d' =>
      if String.eqb k k' then (k', v) :: d' else (k', v') :: set k v d'
  end.

End Dict.

(* ================================================================== *)
(** ** String helpers of the package cosmokit *)

Definition is_upper (c : ascii) : bool :=
  let n := nat_of_ascii c in Nat.leb 65 n && Nat.leb n 90.

Definition is_lower (c : ascii) : bool :=
  let n := nat_of_ascii c in Nat.leb 97 n && Nat.leb n 122.

Definition to_upper (c : ascii) : ascii :=
  if is_lower c then ascii_of_nat (nat_of_ascii c - 32) else c.

Definition to_lower (c : ascii) : ascii :=
  if is_upper c then ascii_of_nat (nat_of_ascii c + 32) else c.

(** Modelled from the spec: [capitalize] comes from the package cosmokit,
    which is not under src/.  The spec writes the negated key as
    ["no" + Capitalize(key)]: the first character in upper case, the rest
    unchanged (letters a-z only here). *)
Definition capitalize (source : string) : string :=
  match source with
  | "" => ""
  | String c s => String (to_upper c) s
  end.

Definition uncapitalize (source : string) : string :=
  match source with
  | "" => ""
  | String c s => String (to_lower c) s
  end.

(** Modelled from the spec: [camelize] comes from the package cosmokit,
    which is not under src/.  Keys go from hyphenated form to camel form:
    an underscore or hyphen followed by a lower-case letter becomes that
    letter in upper case. *)
Fixpoint camelize (source : string) : string :=
  match source with
  | "" => ""
  | String c s1 =>
      match s1 with
      | String d s2 =>
          if (is_char "_" c || is_char "-" c) && is_lower d
          then String (to_upper d) (camelize s2)
          else String c (camelize s1)
      | "" => String c ""
      end
  end.

Definition is_line_end (c : ascii) : bool :=
  let n := nat_of_ascii c in Nat.eqb n 10 || Nat.eqb n 13.

Fixpoint hyphenate_runs (in_run : bool) (s : string) : string :=
  match s with
  | "" => ""
  | String c s1 =>
      if in_run && is_upper c then String (to_lower c) (hyphenate_runs true s1)
      else
        match s1 with
        | String d _ =>
            if is_upper d && negb (is_line_end c)
            then String c (String "-" (hyphenate_runs true s1))
            else String c (hyphenate_runs false s1)
        | "" => String c ""
        end
  end.

(** Modelled from the spec: [hyphenate] comes from the package cosmokit,
    which is not under src/.  Keys go from camel form to hyphenated form:
    the first letter in lower case, underscores as hyphens, and a hyphen
    before each run of upper-case letters, which is put in lower case. *)
Definition hyphenate (source : string) : string :=
  hyphenate_runs false (Str.replace_all "_" "-" (uncapitalize source)).

(* ================================================================== *)
(** ** Nodes (index.ts, lines 6-75) *)

(** The values an attribute may be given at construction.  (Values of
    other types are stringified by JavaScript and are not modelled.) *)
Inductive any : Type :=
| Undefined
| Null
| Boolean (b : bool)
| Text (s : string).

Definition isNullable (v : any) : bool :=
  match v with
  | Undefined | Null => true
  | _ => false
  end.

(** [interface Element]; [type] is [None] for the [null] type of the root
    container of [parse]. *)
#[warnings="-register-all"]
Inductive Element : Type :=
  mkElement { type : option string; attrs : Dict.t string; children : list Element }.

(** [isElement] reads the property [kElement] of its argument.  Nothing
    sets that property: [Element] assigns [type], [attrs] and [children]
    to an object whose prototype has the getter [data] and [toString]
    only.  So [isElement] holds of no value, and a node is, to
    [toElementArray] and to [Element], an object like any other.

    [Content] is the values of [Element.Content] on which
    [toElementArray] returns an array: a string and an array of strings
    and nodes.  On a single node, which [Element.Content] allows too,
    [toElementArray] returns [undefined], and [Element] takes it for the
    attrs object or leaves the children undefined; such a node is no
    [Content] here, and where a rule of [transform] gives one it is the
    verdict [VObject] below. *)
Inductive Content : Type :=
| CString (s : string)
| CArray (l : list (string + Element)).

(** The loop over [Object.entries(args.shift())] in [Element].  The keys
    of the entries are other than [__proto__]: an assignment to that key
    sets no property of the plain object [attrs]. *)
Fixpoint build_attrs (entries : Dict.t any) (attrs : Dict.t string) : Dict.t string :=
  match entries with
  | [] => attrs
  | (key, value) :: rest =>
      match value with
      | Undefined | Null => build_attrs rest attrs
      | Boolean true => build_attrs rest (Dict.set key "" attrs)
      | Boolean false => build_attrs rest (Dict.set ("no" ++ capitalize key) "" attrs)
      | Text s => build_attrs rest (Dict.set key ("" ++ s) attrs)
      end
  end.

(** [Element(type, attrs?, ...)] once the children are an array of nodes. *)
Definition Element_of (type : option string) (a : option (Dict.t any))
    (children : list Element) : Element :=
  mkElement type
    (match a with Some entries => build_attrs entries [] | None => [] end)
    children.

(** [toElement]; a string becomes [Element('text', { content })]. *)
Definition toElement (content : string + Element) : Element :=
  match content with
  | inl s => Element_of (Some "text") (Some [("content", Text s)]) []
  | inr e => e
  end.

(** [toElementArray] on a string and on an array. *)
Definition toElementArray (input : Content) : list Element :=
  match input with
  | CString s => [toElement (inl s)]
  | CArray l => map toElement l
  end.

Definition truthy (input : Content) : bool :=
  match input with
  | CString s => negb (Str.is_empty s)
  | _ => true
  end.

(** [Element(type, children?)] is [Element_ type None children], and
    [Element(type, attrs, children?)] is [Element_ type (Some attrs) children],
    for children that are a string or an array. *)
Definition Element_ (type : option string) (a : option (Dict.t any))
    (children : option Content) : Element :=
  Element_of type a
    (match children with
     | Some c => if truthy c then toElementArray c else []
     | None => []
     end).

(** An attrs mapping of a node passed where [Element] expects [Dict<any>]. *)
Definition as_any (attrs : Dict.t string) : Dict.t any :=
  map (fun kv => (fst kv, Text (snd kv))) attrs.

(** [!this.type] *)
Definition no_type (type : option string) : bool :=
  match type with
  | None => true
  | Some s => Str.is_empty s
  end.

Definition is_text (type : option string) : bool :=
  match type with
  | Some s => String.eqb s "text"
  | None => false
  end.

Definition type_name (type : option string) : string :=
  match type with
  | Some s => s
  | None => "null"
  end.

(** One entry of [Object.entries(this.attrs).map(...)] in [toString]; the
    values of a [Dict<string>] are never nullable. *)
Definition attr_toString (kv : string * string) : string :=
  let key := hyphenate (fst kv) in
  if Str.is_empty (snd kv) then " " ++ key
  else " " ++ key ++ "=" ++ dquotes ++ escape (snd kv) true ++ dquotes.

Fixpoint join (l : list string) : string :=
  match l with
  | [] => ""
  | s :: l' => s ++ join l'
  end.

(** [children.join('')] given the [toString] of a node. *)
Definition join_children (toString : Element -> result string) : list Element -> result string :=
  fix go (l : list Element) : result string :=
    match l with
    | [] => Return ""
    | c :: l' =>
        let* a := toString c in
        let* b := go l' in
        Return (a ++ b)
    end.

(** [ElementConstructor.toString]; [Element.escape(undefined)] throws. *)
Fixpoint toString (e : Element) : result string :=
  match e with
  | mkElement type attrs children =>
      if no_type type then join_children toString children
      else if is_text type then
        match Dict.get "content" attrs with
        | Some content => Return (escape content false)
        | None => Throws
        end
      else
        let a := join (map attr_toString attrs) in
        match children with
        | [] => Return ("<" ++ type_name type ++ a ++ "/>")
        | _ :: _ =>
            let* inner := join_children toString children in
            Return ("<" ++ type_name type ++ a ++ ">" ++ inner ++ "</" ++ type_name type ++ ">")
        end
  end.

(* ================================================================== *)
(** ** Parser (index.ts, lines 157-198) *)

Record Token : Type := mkToken {
  tag : string;
  close : string;
  empty : string;
  token_attrs : Dict.t string
}.

(** The loop [while ((attrCap = attrRegExp.exec(attrs)))].  [attrRegExp]
    has the [g] flag: [lastIndex] is its position, 0 again once the loop
    has run to its end.  Every match has at least one character, so
    [fuel], the length of [attrs], is never used up. *)
Fixpoint attrs_loop (fuel lastIndex : nat) (attrs : string) (acc : Dict.t string)
  : Dict.t string :=
  match exec_g attrRegExp lastIndex attrs with
  | (Some attrCap, lastIndex') =>
      match fuel with
      | O => acc
      | S fuel' =>
          let key := group_or "" 1 attrCap in
          let value := group_or "" 2 attrCap in
          attrs_loop fuel' lastIndex' attrs (Dict.set (camelize key) (unescape value) acc)
      end
  | (None, _) => acc
  end.

Definition parse_attrs (attrs : string) : Dict.t string :=
  attrs_loop (String.length attrs) 0 attrs [].

(** The loop [while ((tagCap = tagRegExp.exec(source)))] and the line
    after it; the tokens are listed in the order they are pushed.  Every
    match has at least three characters, so [fuel], the length of
    [source], is never used up. *)
Fixpoint tokens_loop (fuel : nat) (source : string) : list (string + Token) :=
  match exec tagRegExp source with
  | Some tagCap =>
      match fuel with
      | O => []
      | S fuel' =>
          let text :=
            if Nat.eqb (index tagCap) 0 then []
            else [inl (unescape (Str.slice 0 (index tagCap) source))] in
          let token :=
            mkToken (group_or "" 2 tagCap) (group_or "" 1 tagCap)
              (group_or "" 4 tagCap) (parse_attrs (group_or "" 3 tagCap)) in
          (text ++ inr token
             :: tokens_loop fuel'
                  (Str.drop (index tagCap + String.length (whole tagCap)) source))%list
      end
  | None => if Str.is_empty source then [] else [inl source]
  end.

Definition tokenize (source : string) : list (string + Token) :=
  tokens_loop (String.length source) source.

(** [node.children.push(child)] *)
Definition push_child (child node : Element) : Element :=
  mkElement (type node) (attrs node) (children node ++ [child])%list.

(** The stack of open containers, innermost first.  In the source an open
    node is already the last child of the container below it, and that
    container receives no other child while the node is open; here the
    node is attached when it leaves the stack. *)
Definition shift (stack : list Element) : list Element :=
  match stack with
  | node :: parent :: below => push_child node parent :: below
  | _ => []
  end.

(** The bottom of the stack with every open node attached. *)
Fixpoint bottom (node : Element) (below : list Element) : Element :=
  match below with
  | [] => node
  | parent :: below' => bottom (push_child node parent) below'
  end.

(** The loop over the tokens and [return stack[stack.length - 1].children];
    reading [children] of [undefined] throws. *)
Fixpoint build (tokens : list (string + Token)) (stack : list Element)
  : result (list Element) :=
  match tokens with
  | [] =>
      match stack with
      | [] => Throws
      | node :: below => Return (children (bottom node below))
      end
  | inl text :: tokens' =>
      match stack with
      | [] => Throws
      | top :: below => build tokens' (push_child (toElement (inl text)) top :: below)
      end
  | inr token :: tokens' =>
      if negb (Str.is_empty (close token)) then build tokens' (shift stack)
      else
        let element := Element_ (Some (tag token)) (Some (as_any (token_attrs token))) None in
        match stack with
        | [] => Throws
        | top :: below =>
            if negb (Str.is_empty (empty token))
            then build tokens' (push_child element top :: below)
            else build tokens' (element :: top :: below)
        end
  end.

Definition parse (source : string) : result (list Element) :=
  build (tokenize source) [Element_ None None None].

(* ================================================================== *)
(** ** Selectors (index.ts, lines 100-155) *)

Record Selector : Type := mkSelector {
  selector_type : string;
  combinator : string
}.

(** [s.split(',')] *)
Fixpoint split_comma (s : string) : list string :=
  match s with
  | "" => [""]
  | String c s' =>
      if is_char "," c then "" :: split_comma s'
      else
        match split_comma s' with
        | h :: t => String c h :: t
        | [] => [String c ""]
        end
  end.

Fixpoint trim_start (s : string) : string :=
  match s with
  | String c s' => if is_space c then trim_start s' else s
  | "" => ""
  end.

Fixpoint trim_end (s : string) : string :=
  match s with
  | "" => ""
  | String c s' =>
      match trim_end s' with
      | "" => if is_space c then "" else String c ""
      | t => String c t
      end
  end.

Definition trim (s : string) : string := trim_end (trim_start s).

(** The loop [while ((combCap = combRegExp.exec(query)))] and the push
    after it.  [combRegExp] has the [g] flag and [query] is cut at each
    round without [lastIndex] being put back to 0: the next search starts
    [lastIndex] characters into what is left of [query].  The result is
    the selectors with the [lastIndex] the loop leaves. *)
Fixpoint selectors_loop (fuel lastIndex : nat) (query combinator : string)
  : list Selector * nat :=
  match exec_g combRegExp lastIndex query with
  | (Some combCap, lastIndex') =>
      match fuel with
      | O => ([], lastIndex')
      | S fuel' =>
          let (rest, last) :=
            selectors_loop fuel' lastIndex'
              (Str.drop (index combCap + String.length (whole combCap)) query)
              (group_or "" 1 combCap) in
          (mkSelector (Str.slice 0 (index combCap) query) combinator :: rest, last)
      end
  | (None, lastIndex') => ([mkSelector query combinator], lastIndex')
  end.

Fixpoint parse_queries (lastIndex : nat) (queries : list string) : list (list Selector) :=
  match queries with
  | [] => []
  | query :: queries' =>
      let query := trim query in
      let (selectors, lastIndex') :=
        selectors_loop (String.length query) lastIndex query " " in
      selectors :: parse_queries lastIndex' queries'
  end.

Definition parseSelector (input : string) : list (list Selector) :=
  parse_queries 0 (split_comma input).

(** [type === selector.type] *)
Definition type_is (type : option string) (name : string) : bool :=
  match type with
  | Some s => String.eqb s name
  | None => false
  end.

(** The state of the loop [for (const group of local)]: the nodes
    yielded, and the arrays [inner], [adjacent] and [query]. *)
Record scan : Type := mkScan {
  scan_yield : list Element;
  scan_inner : list (list Selector);
  scan_adjacent : list (list Selector);
  scan_query : list (list Selector)
}.

(** One round of that loop; reading [type] of [group[0]] throws when the
    group is empty. *)
Definition scan_group (element : Element) (st : scan) (group : list Selector)
  : result scan :=
  match group with
  | [] => Throws
  | selector :: tail =>
      let st1 :=
        if type_is (type element) (selector_type selector) then
          match tail with
          | [] => mkScan (scan_yield st ++ [element])%list (scan_inner st) (scan_adjacent st) (scan_query st)
          | next :: _ =>
              if String.eqb (combinator next) " " || String.eqb (combinator next) ">"
              then mkScan (scan_yield st) (scan_inner st ++ [tail])%list (scan_adjacent st) (scan_query st)
              else if String.eqb (combinator next) "+"
              then mkScan (scan_yield st) (scan_inner st) (scan_adjacent st ++ [tail])%list (scan_query st)
              else mkScan (scan_yield st) (scan_inner st) (scan_adjacent st) (scan_query st ++ [tail])%list
          end
        else st in
      Return
        (if String.eqb (combinator selector) " "
         then mkScan (scan_yield st1) (scan_inner st1 ++ [group])%list (scan_adjacent st1) (scan_query st1)
         else st1)
  end.

Fixpoint scan_groups (element : Element) (st : scan) (local : list (list Selector))
  : result scan :=
  match local with
  | [] => Return st
  | group :: local' =>
      let* st' := scan_group element st group in
      scan_groups element st' local'
  end.

(** The loop over [elements.entries()] of [_select], given what
    [_select] yields on the children of a node. *)
Definition select_loop (select_children : Element -> list (list Selector) -> result (list Element))
  : list Element -> list (list Selector) -> list (list Selector) -> result (list Element) :=
  fix loop (elements : list Element) (query adjacent : list (list Selector)) :=
    match elements with
    | [] => Return []
    | element :: elements' =>
        let local := (query ++ adjacent)%list in
        let* st := scan_groups element (mkScan [] [] [] query) local in
        let* below := select_children element (scan_inner st) in
        let* others := loop elements' (scan_query st) (scan_adjacent st) in
        Return (scan_yield st ++ below ++ others)%list
    end.

(** [_select] on the children of a node. *)
Fixpoint select_in (element : Element) (query : list (list Selector))
  : result (list Element) :=
  match element with
  | mkElement _ _ children =>
      match query with
      | [] => Return []
      | _ :: _ => select_loop select_in children query []
      end
  end.

Definition _select (elements : list Element) (query : list (list Selector))
  : result (list Element) :=
  match query with
  | [] => Return []
  | _ :: _ => select_loop select_in elements query []
  end.

Definition select (source : string + list Element) (query : string)
  : result (list Element) :=
  let* elements :=
    match source with
    | inl text => parse text
    | inr elements => Return elements
    end in
  _select elements (parseSelector query).

(* ================================================================== *)
(** ** Transform engine (index.ts, lines 200-234) *)

(** [boolean | Content], what a rule says of a node.  [VObject] is an
    object that is neither a string nor an array: a single node, or the
    prototype of the rules object.  [toElementArray] returns [undefined]
    on it. *)
Inductive Verdict : Type :=
| VBool (b : bool)
| VContent (c : Content)
| VObject.

(** [Transformer] and [AsyncTransformer]: a verdict, or a callable that
    is given the node, its index and its siblings, as they are at the
    call, and returns a verdict (for [transformAsync], the value its
    promise settles to), or throws. *)
Inductive Transformer : Type :=
| TValue (v : Verdict)
| TCall (f : Element -> nat -> list Element -> result Verdict).

(** What [rules[key]] finds when [rules], a plain object, has no own
    property [key]: the members of [Object.prototype].  The functions
    among them are called as rules, with the node as first argument and
    [this] undefined (the code of a module is strict): [Object] returns
    the node, [toString] the string of an undefined [this], and the
    others throw when they convert [this] to an object.  [__proto__] is
    the prototype itself. *)
Definition inherited (key : string) : option Transformer :=
  if String.eqb key "constructor" then Some (TCall (fun _ _ _ => Return VObject))
  else if String.eqb key "toString"
  then Some (TCall (fun _ _ _ => Return (VContent (CString "[object Undefined]"))))
  else if String.eqb key "toLocaleString" || String.eqb key "valueOf"
          || String.eqb key "hasOwnProperty" || String.eqb key "isPrototypeOf"
          || String.eqb key "propertyIsEnumerable"
          || String.eqb key "__defineGetter__" || String.eqb key "__defineSetter__"
          || String.eqb key "__lookupGetter__" || String.eqb key "__lookupSetter__"
  then Some (TCall (fun _ _ _ => Throws))
  else if String.eqb key "__proto__" then Some (TValue VObject)
  else None.

(** [rules[element.type] ?? rules.default ?? true] *)
Definition resolve (rules : Dict.t Transformer) (type : option string) : Transformer :=
  match Dict.get (type_name type) rules with
  | Some rule => rule
  | None =>
      match inherited (type_name type) with
      | Some rule => rule
      | None =>
          match Dict.get "default" rules with
          | Some rule => rule
          | None => TValue (VBool true)
          end
      end
  end.

Definition verdict (rule : Transformer) (element : Element) (index : nat)
    (elements : list Element) : result Verdict :=
  match rule with
  | TValue v => Return v
  | TCall f => f element index elements
  end.

(** [elements.forEach((element, index, elements) => ...)].  A round
    changes the node it is given, so [body] returns, with the nodes it
    pushes onto the array that [transform] returns, the node as the
    round leaves it.  [each_from] is the rounds that are left: [before]
    is the nodes of the rounds done, as these left them, [l] the nodes
    still to come; together they are the array [elements] as a callable
    sees it.  The result is what the rounds push and the array after the
    last round.  These are values: a forest is a tree here, and a node
    that occurs twice in it is two nodes; [Store.transform] below is
    the same function on nodes that have an identity. *)
Definition each_from (body : Element -> nat -> list Element -> result (list Element * Element))
  : list Element -> list Element -> result (list Element * list Element) :=
  fix each (before l : list Element) : result (list Element * list Element) :=
    match l with
    | [] => Return ([], before)
    | element :: l' =>
        let* round := body element (List.length before) (before ++ l)%list in
        let* rest := each (before ++ [snd round])%list l' in
        Return ((fst round ++ fst rest)%list, snd rest)
    end.

Definition for_each (body : Element -> nat -> list Element -> result (list Element * Element))
    (elements : list Element) : result (list Element * list Element) :=
  each_from body [] elements.

(** The callback of [forEach] in [transform].  In the branch of [true],
    [const { type, attrs, children } = element] hides the array
    [children] that [transform] returns: the rebuilt node is pushed onto
    the children of the node itself, after [transform] has run on them,
    and nothing is pushed onto the array that is returned.  The spread of
    [undefined], which [toElementArray] returns on [VObject], throws. *)
Fixpoint transform_node (rules : Dict.t Transformer) (element : Element) (index : nat)
    (elements : list Element) {struct element} : result (list Element * Element) :=
  let* result := verdict (resolve rules (type element)) element index elements in
  match result with
  | VBool true =>
      match element with
      | mkElement type attrs children =>
          let* inner := for_each (transform_node rules) children in
          Return ([],
                  mkElement type attrs
                    (snd inner
                     ++ [Element_ type (Some (as_any attrs))
                           (Some (CArray (map inr (fst inner))))])%list)
      end
  | VBool false => Return ([], element)
  | VContent c => Return (toElementArray c, element)
  | VObject => Throws
  end.

(** [transform] on a forest: the array it returns, and the forest as the
    call leaves it. *)
Definition transform_forest (elements : list Element) (rules : Dict.t Transformer)
  : result (list Element * list Element) :=
  for_each (transform_node rules) elements.

Definition transform (source : string + list Element) (rules : Dict.t Transformer)
  : result (list Element) :=
  let* elements :=
    match source with
    | inl text => parse text
    | inr elements => Return elements
    end in
  let* done := transform_forest elements rules in
  Return (fst done).

(** An entry of the array that [transformAsync] resolves to: [undefined],
    which is what [toElementArray] returns on [VObject] and [flat] leaves
    in the array, or a node; the children of a node that [transformAsync]
    rebuilds are such entries again. *)
#[warnings="-register-all"]
Inductive Entry : Type :=
| EUndefined
| ENode (type : option string) (attrs : Dict.t string) (children : list Entry).

(** A node that is passed on as it is. *)
Fixpoint entry_of (e : Element) : Entry :=
  match e with
  | mkElement type attrs children => ENode type attrs (map entry_of children)
  end.

(** [await Promise.all(elements.map(async (element, index, elements) => ...))]:
    the array of the values the promises settle to, in the order of the
    elements; the aggregate is rejected when one of them is.
    [transformAsync] changes no node. *)
Definition all_from (body : Element -> nat -> list Element -> result (list Entry))
    (elements : list Element) : list Element -> nat -> result (list (list Entry)) :=
  fix each (l : list Element) (index : nat) : result (list (list Entry)) :=
    match l with
    | [] => Return []
    | element :: l' =>
        let* out := body element index elements in
        let* rest := each l' (S index) in
        Return (out :: rest)
    end.

Definition all_map (body : Element -> nat -> list Element -> result (list Entry))
    (elements : list Element) : result (list (list Entry)) :=
  all_from body elements elements 0.

(** The callback of [map] in [transformAsync]; [.flat(1)] is [concat],
    and it leaves an [undefined] where the callback returned one.  The
    rebuilt node is returned. *)
Fixpoint transformAsync_node (rules : Dict.t Transformer) (element : Element) (index : nat)
    (elements : list Element) {struct element} : result (list Entry) :=
  let* result := verdict (resolve rules (type element)) element index elements in
  match result with
  | VBool true =>
      match element with
      | mkElement type attrs children =>
          let* arrays := all_map (transformAsync_node rules) children in
          Return [ENode type (build_attrs (as_any attrs) []) (concat arrays)]
      end
  | VBool false => Return []
  | VContent c => Return (map entry_of (toElementArray c))
  | VObject => Return [EUndefined]
  end.

(** The value the promise of [transformAsync] settles to, [Throws] when
    it is rejected. *)
Definition transformAsync (source : string + list Element) (rules : Dict.t Transformer)
  : result (list Entry) :=
  let* elements :=
    match source with
    | inl text => parse text
    | inr elements => Return elements
    end in
  let* arrays := all_map (transformAsync_node rules) elements in
  Return (concat arrays).

(* ================================================================== *)
(** ** Forests that the serialization writes and the parser reads back *)

(** [s'] is what is left of [s] after some characters. *)
Definition suffix_of (s' s : string) : Prop := exists w, s = w ++ s'.

(** A matcher that only hands suffixes of its input to its continuation. *)
Definition sound (body : matcher) : Prop :=
  forall s caps k res,
    body s caps k = Some res ->
    exists s' caps', suffix_of s' s /\ k s' caps' = Some res.

(** [v] does not go on with a character of the class [p]. *)
Definition stops (p : ascii -> bool) (v : string) : Prop :=
  match v with
  | "" => True
  | String c _ => p c = false
  end.

(** What is left of a tag closes it: white space, then [>] or [/>]. *)
Fixpoint closes (s : string) : bool :=
  match s with
  | "" => false
  | String c s' =>
      if is_space c then closes s'
      else Str.starts_with ">" s || Str.starts_with "/>" s
  end.

Fixpoint last_char (s : string) : option ascii :=
  match s with
  | "" => None
  | String c s' =>
      match last_char s' with
      | Some d => Some d
      | None => Some c
      end
  end.

Definition ends_with (p : ascii -> bool) (s : string) : bool :=
  match last_char s with
  | Some c => p c
  | None => false
  end.

(** The text between the name and the end of a tag, when there is some:
    no [>], a first character that ends the name, and a last character
    that is neither white space nor a slash. *)
Definition attr_end_char (c : ascii) : bool := negb (is_space c || is_char "/" c).

Definition inner_text (a : string) : bool :=
  Str.all non_gt a
  && ends_with attr_end_char a
  && match a with
     | String c _ => negb (name_char c)
     | "" => false
     end.

(** The two ends of a tag, and what the fourth group captures. *)
Definition tag_close (selfclosing : bool) : string :=
  if selfclosing then "/>" else ">".

Definition tag_slash (selfclosing : bool) : string :=
  if selfclosing then "/" else "".

Definition non_lt (c : ascii) : bool := negb (is_char "<" c).

(** What may follow an attribute: nothing, or the space before the next. *)
Definition attr_follow (R : string) : Prop :=
  stops attr_key_char R /\ stops (Ascii.eqb "=") R.

(** [s] starts with a tag. *)
Definition tag_start (s : string) : Prop :=
  exists rest caps, match_here tagRegExp s = Some (rest, caps).

(** The token that [parse] makes of a match of [tagRegExp]. *)
Definition token_of (caps : captures) : Token :=
  let tagCap := mkFound 0 "" caps "" in
  mkToken (group_or "" 2 tagCap) (group_or "" 1 tagCap)
    (group_or "" 4 tagCap) (parse_attrs (group_or "" 3 tagCap)).

(** A tag name on the wire: not empty, not the reserved name [text], no
    white space and no [>], and no slash in front. *)
Definition good_name (name : string) : bool :=
  negb (Str.is_empty name)
  && negb (String.eqb name "text")
  && Str.all name_char name
  && negb (Str.starts_with "/" name).

(** An attribute key: its hyphenated form is not empty, has no white
    space, no [=] and no [>], does not end with a slash, and is camelized
    back to the key. *)
Definition key_char (c : ascii) : bool := attr_key_char c && non_gt c.

Definition good_key (key : string) : bool :=
  let wire := hyphenate key in
  negb (Str.is_empty wire)
  && Str.all key_char wire
  && negb (ends_with (is_char "/") wire)
  && String.eqb (camelize wire) key.

Fixpoint distinct_keys (d : Dict.t string) : bool :=
  match d with
  | [] => true
  | (k, _) :: d' =>
      match Dict.get k d' with
      | None => distinct_keys d'
      | Some _ => false
      end
  end.

Definition good_attrs (attrs : Dict.t string) : bool :=
  forallb (fun kv => good_key (fst kv)) attrs && distinct_keys attrs.

Definition is_nil {A} (l : list A) : bool :=
  match l with
  | [] => true
  | _ :: _ => false
  end.

Definition is_text_node (e : Element) : bool := is_text (type e).

(** No text node next to a text node. *)
Fixpoint no_adjacent_text (l : list Element) : bool :=
  match l with
  | [] => true
  | a :: l' =>
      match l' with
      | [] => true
      | b :: _ => negb (is_text_node a && is_text_node b) && no_adjacent_text l'
      end
  end.

Fixpoint ends_with_text (l : list Element) : bool :=
  match l with
  | [] => false
  | a :: l' =>
      match l' with
      | [] => is_text_node a
      | _ :: _ => ends_with_text l'
      end
  end.

(** The nodes that [parse] gives back from their serialization.  A text
    node has a non-empty [content], no other attribute and no child.
    Another node has a good name, good attrs with distinct keys, at least
    one attribute or one child, and children that are such nodes, no two
    text nodes side by side. *)
Fixpoint canonical (e : Element) : bool :=
  match e with
  | mkElement type attrs children =>
      if is_text type then
        match attrs with
        | [(k, content)] => String.eqb k "content" && negb (Str.is_empty content)
        | _ => false
        end
        && is_nil children
      else
        match type with
        | None => false
        | Some name =>
            good_name name
            && good_attrs attrs
            && negb (is_nil attrs && is_nil children)
            && forallb canonical children
            && no_adjacent_text children
        end
  end.

(** Such a forest; at the top level it does not end with a text node. *)
Definition canonical_forest (forest : list Element) : bool :=
  forallb canonical forest
  && no_adjacent_text forest
  && negb (ends_with_text forest).

(** The text of a node that [toString] returns, when it returns. *)
Fixpoint text_of (e : Element) : string :=
  match e with
  | mkElement type attrs children =>
      let inner := join (map text_of children) in
      if no_type type then inner
      else if is_text type then
        match Dict.get "content" attrs with
        | Some content => escape content false
        | None => ""
        end
      else
        let a := join (map attr_toString attrs) in
        match children with
        | [] => "<" ++ type_name type ++ a ++ "/>"
        | _ :: _ => "<" ++ type_name type ++ a ++ ">" ++ inner ++ "</" ++ type_name type ++ ">"
        end
  end.

(** The tokens of the serialization of a node. *)
Fixpoint tokens_of (e : Element) : list (string + Token) :=
  match e with
  | mkElement type attrs children =>
      if is_text type then
        match Dict.get "content" attrs with
        | Some content => [inl content]
        | None => []
        end
      else
        match children with
        | [] => [inr (mkToken (type_name type) "" "/" attrs)]
        | _ :: _ =>
            (inr (mkToken (type_name type) "" "" attrs)
               :: flat_map tokens_of children
               ++ [inr (mkToken (type_name type) "/" "" [])])%list
        end
  end.

(** The tokens of the text of a node, before [rest]. *)
Definition node_tokens (e : Element) : Prop :=
  forall rest,
    (is_text_node e = true -> tag_start rest) ->
    tokenize (text_of e ++ rest) = (tokens_of e ++ tokenize rest)%list.

(** The tokens of a node make it the last child of the innermost frame. *)
Definition builds (e : Element) : Prop :=
  forall more top below,
    build (tokens_of e ++ more)%list (top :: below)
    = build more (push_child e top :: below).

(* ================================================================== *)
(** ** Nodes as objects in a store

    The functions above compute with the values of nodes.  Here a node is
    an object with an identity: a reference into a store, which [Element]
    extends and [children.push] updates.  This is the level at which a
    node can be shared, mutated, or freshly allocated. *)

Module Store.

Definition ref : Type := nat.

Record node : Type := mkNode {
  node_type : option string;
  node_attrs : Dict.t string;
  node_children : list ref
}.

(** The store: the object of reference [r] is at position [r]. *)
Definition heap : Type := list node.

(** A computation on the store returns, throws, or aborts: it aborts when
    it reads a reference that is not in the store, or when its fuel is
    used up. *)
Inductive outcome (A : Type) : Type :=
| Done (v : A) (h : heap)
| Throw
| Abort.

Arguments Done {A} v h.
Arguments Throw {A}.
Arguments Abort {A}.

Definition M (A : Type) : Type := heap -> outcome A.

Definition ret {A} (v : A) : M A := fun h => Done v h.

Definition throw {A} : M A := fun _ => Throw.

Definition abort {A} : M A := fun _ => Abort.

Definition then_ {A B} (c : M A) (k : A -> M B) : M B :=
  fun h =>
    match c h with
    | Done v h' => k v h'
    | Throw => Throw
    | Abort => Abort
    end.

Notation "'do' x '<-' c ';' k" := (then_ c (fun x => k))
  (at level 10, x pattern, c at level 100, k at level 200).

Definition alloc (n : node) : M ref :=
  fun h => Done (List.length h) (h ++ [n])%list.

Definition read (r : ref) : M node :=
  fun h =>
    match nth_error h r with
    | Some n => Done n h
    | None => Abort
    end.

Fixpoint update (r : ref) (f : node -> node) (h : heap) : heap :=
  match h, r with
  | [], _ => []
  | n :: h', O => f n :: h'
  | n :: h', S r' => n :: update r' f h'
  end.

(** [r.children.push(child)] *)
Definition push (r child : ref) : M unit :=
  fun h =>
    match nth_error h r with
    | Some _ =>
        Done tt
          (update r
             (fun n => mkNode (node_type n) (node_attrs n) (node_children n ++ [child])%list)
             h)
    | None => Abort
    end.

(** A string or an array, as above. *)
Inductive Content : Type :=
| CString (s : string)
| CArray (l : list (string + ref)).

(** [Element(type, attrs?, ...)] once the children are an array of nodes:
    a new object. *)
Definition Element_of (type : option string) (a : option (Dict.t any))
    (children : list ref) : M ref :=
  alloc (mkNode type
           (match a with Some entries => build_attrs entries [] | None => [] end)
           children).

Definition toElement (content : string + ref) : M ref :=
  match content with
  | inl s => Element_of (Some "text") (Some [("content", Text s)]) []
  | inr r => ret r
  end.

Fixpoint map_toElement (l : list (string + ref)) : M (list ref) :=
  match l with
  | [] => ret []
  | c :: l' =>
      do r <- toElement c;
      do rs <- map_toElement l';
      ret (r :: rs)
  end.

Definition toElementArray (input : Content) : M (list ref) :=
  match input with
  | CString s => do r <- toElement (inl s); ret [r]
  | CArray l => map_toElement l
  end.

Definition truthy (input : Content) : bool :=
  match input with
  | CString s => negb (Str.is_empty s)
  | _ => true
  end.

Definition Element_ (type : option string) (a : option (Dict.t any))
    (children : option Content) : M ref :=
  do kids <-
    match children with
    | Some c => if truthy c then toElementArray c else ret []
    | None => ret []
    end;
  Element_of type a kids.

(** *** The tree builder of [parse], on the store *)

Definition last_frame (stack : list ref) : option ref :=
  match stack with
  | [] => None
  | r :: stack' => Some (List.last stack' r)
  end.

Fixpoint build (tokens : list (string + Token)) (stack : list ref) : M (list ref) :=
  match tokens with
  | [] =>
      match last_frame stack with
      | None => throw
      | Some r => do n <- read r; ret (node_children n)
      end
  | inl text :: tokens' =>
      match stack with
      | [] => throw
      | top :: _ =>
          do t <- toElement (inl text);
          do _ <- push top t;
          build tokens' stack
      end
  | inr token :: tokens' =>
      if negb (Str.is_empty (close token)) then build tokens' (List.tl stack)
      else
        do element <- Element_ (Some (tag token)) (Some (as_any (token_attrs token))) None;
        match stack with
        | [] => throw
        | top :: _ =>
            do _ <- push top element;
            if negb (Str.is_empty (empty token))
            then build tokens' stack
            else build tokens' (element :: stack)
        end
  end.

Definition parse (source : string) : M (list ref) :=
  do root <- Element_ None None None;
  build (tokenize source) [root].

(** *** The transform engine, on the store *)

Inductive Verdict : Type :=
| VBool (b : bool)
| VContent (c : Content)
| VObject.

(** A callable is given the node, its index and its siblings; it may
    read and write the store. *)
Inductive Transformer : Type :=
| TValue (v : Verdict)
| TCall (f : ref -> nat -> list ref -> M Verdict).

(** The members of [Object.prototype] as rules, as above. *)
Definition inherited (key : string) : option Transformer :=
  if String.eqb key "constructor" then Some (TCall (fun _ _ _ => ret VObject))
  else if String.eqb key "toString"
  then Some (TCall (fun _ _ _ => ret (VContent (CString "[object Undefined]"))))
  else if String.eqb key "toLocaleString" || String.eqb key "valueOf"
          || String.eqb key "hasOwnProperty" || String.eqb key "isPrototypeOf"
          || String.eqb key "propertyIsEnumerable"
          || String.eqb key "__defineGetter__" || String.eqb key "__defineSetter__"
          || String.eqb key "__lookupGetter__" || String.eqb key "__lookupSetter__"
  then Some (TCall (fun _ _ _ => throw))
  else if String.eqb key "__proto__" then Some (TValue VObject)
  else None.

Definition resolve (rules : Dict.t Transformer) (type : option string) : Transformer :=
  match Dict.get (type_name type) rules with
  | Some rule => rule
  | None =>
      match inherited (type_name type) with
      | Some rule => rule
      | None =>
          match Dict.get "default" rules with
          | Some rule => rule
          | None => TValue (VBool true)
          end
      end
  end.

Definition verdict (rule : Transformer) (element : ref) (index : nat)
    (elements : list ref) : M Verdict :=
  match rule with
  | TValue v => ret v
  | TCall f => f element index elements
  end.

(** The rounds of [forEach] from [index] on, given [transform] on the
    children of a node; [elements] is the array as it is at the call.
    In the branch of [true] the rebuilt node is pushed onto the children
    of the node [element] itself, and the round gives nothing to the
    array that is returned. *)
Definition each_from (transform_children : list ref -> M (list ref))
    (rules : Dict.t Transformer) (elements : list ref)
  : list ref -> nat -> M (list ref) :=
  fix each (l : list ref) (index : nat) : M (list ref) :=
    match l with
    | [] => ret []
    | element :: l' =>
        do n <- read element;
        do result <- verdict (resolve rules (node_type n)) element index elements;
        do out <-
          match result with
          | VBool true =>
              do n' <- read element;
              do kids <- transform_children (node_children n');
              do r <- Element_ (node_type n') (Some (as_any (node_attrs n')))
                        (Some (CArray (map inr kids)));
              do _ <- push element r;
              ret []
          | VBool false => ret []
          | VContent c => toElementArray c
          | VObject => throw
          end;
        do rest <- each l' (S index);
        ret (out ++ rest)%list
    end.

(** [transform] on an array of nodes; the recursion of the source is on
    the nesting of the nodes, [fuel] bounds it. *)
Fixpoint transform_elements (fuel : nat) (rules : Dict.t Transformer)
    (elements : list ref) : M (list ref) :=
  match fuel with
  | O => abort
  | S fuel' => each_from (transform_elements fuel' rules) rules elements elements 0
  end.

Definition transform (fuel : nat) (source : string + list ref)
    (rules : Dict.t Transformer) : M (list ref) :=
  do elements <-
    match source with
    | inl text => parse text
    | inr elements => ret elements
    end;
  transform_elements fuel rules elements.

(** *** Reading a node of the store as a value *)

(** [rep h e r]: in the store [h], the object [r] and the objects below
    it have the value [e]. *)
Fixpoint rep (h : heap) (e : Element) (r : ref) {struct e} : Prop :=
  match e with
  | mkElement type attrs children =>
      exists n,
        nth_error h r = Some n
        /\ node_type n = type
        /\ node_attrs n = attrs
        /\ (fix all (es : list Element) (rs : list ref) {struct es} : Prop :=
              match es, rs with
              | [], [] => True
              | e' :: es', r' :: rs' => rep h e' r' /\ all es' rs'
              | _, _ => False
              end) children (node_children n)
  end.

Fixpoint reps (h : heap) (es : list Element) (rs : list ref) {struct es} : Prop :=
  match es, rs with
  | [], [] => True
  | e :: es', r :: rs' => rep h e r /\ reps h es' rs'
  | _, _ => False
  end.

(** [rep_in lo hi h e r]: as [rep], and the object [r] and the objects
    below it lie at the positions from [lo] to [hi - 1], each below its
    parent.  The tree builder makes its nodes in this order. *)
Fixpoint rep_in (lo hi : nat) (h : heap) (e : Element) (r : ref) {struct e} : Prop :=
  match e with
  | mkElement type attrs children =>
      lo <= r /\ r < hi
      /\ exists n,
        nth_error h r = Some n
        /\ node_type n = type
        /\ node_attrs n = attrs
        /\ (fix all (es : list Element) (rs : list ref) {struct es} : Prop :=
              match es, rs with
              | [], [] => True
              | e' :: es', r' :: rs' => rep_in (S r) hi h e' r' /\ all es' rs'
              | _, _ => False
              end) children (node_children n)
  end.

Fixpoint reps_in (lo hi : nat) (h : heap) (es : list Element) (rs : list ref)
    {struct es} : Prop :=
  match es, rs with
  | [], [] => True
  | e :: es', r :: rs' => rep_in lo hi h e r /\ reps_in lo hi h es' rs'
  | _, _ => False
  end.

(** The stack of the tree builder on the store, [rs], against the stack
    of [build], [fs], innermost frame first.  The object of a frame has
    the type and attrs of the frame; its children are those of the frame,
    followed by the open node [above] that is the frame over it, if any.
    The children of the frame lie between the frame and [hi]. *)
Fixpoint frames (h : heap) (hi : nat) (above : option ref)
    (fs : list Element) (rs : list ref) {struct fs} : Prop :=
  match fs, rs with
  | [], [] => True
  | f :: fs', r :: rs' =>
      r < hi
      /\ (exists n cs,
            nth_error h r = Some n
            /\ node_type n = type f
            /\ node_attrs n = attrs f
            /\ node_children n
               = (cs ++ match above with Some o => [o] | None => [] end)%list
            /\ reps_in (S r) hi h (children f) cs)
      /\ frames h r (Some r) fs' rs'
  | _, _ => False
  end.

(** The store [h] once a new node without children is allocated and
    pushed onto the children of the object [r]. *)
Definition with_new_child (h : heap) (r : ref) (type : option string)
    (attrs : Dict.t string) : heap :=
  update r
    (fun n => mkNode (node_type n) (node_attrs n) (node_children n ++ [List.length h])%list)
    (h ++ [mkNode type attrs []])%list.

End Store.

(* ================================================================== *)
(** ** Notions used in further properties *)

Definition non_amp (c : ascii) : bool := negb (is_char "&" c).

(** A character that [escape] leaves as it is. *)
Definition plain_char (inline : bool) (c : ascii) : bool :=
  negb (is_char "&" c || is_char "<" c || is_char ">" c || (inline && is_char dquote c)).

(** The nodes on which [toString] returns: under a node that has a type
    other than [text], and under a node without type, every child is such
    a node; a text node has a [content]. *)
Fixpoint serializable (e : Element) : bool :=
  match e with
  | mkElement type attrs children =>
      if no_type type then forallb serializable children
      else if is_text type then
        match Dict.get "content" attrs with
        | Some _ => true
        | None => false
        end
      else forallb serializable children
  end.

(** The tokens that take a frame off the stack of [parse], and those that
    put one on it. *)
Definition is_closing (t : string + Token) : bool :=
  match t with
  | inl _ => false
  | inr token => negb (Str.is_empty (close token))
  end.

Definition is_opening (t : string + Token) : bool :=
  match t with
  | inl _ => false
  | inr token => Str.is_empty (close token) && Str.is_empty (empty token)
  end.

Definition count {A} (p : A -> bool) (l : list A) : nat := List.length (filter p l).

(** A text node, as [toElement] makes it of a string. *)
Definition text_node (content : string) : Element :=
  mkElement (Some "text") [("content", content)] [].

(** What the entries given to [Element] write into the attrs, in the
    order of the entries: nothing for a nullable value, the empty string
    under the key for [true] and under the negated key for [false], and
    the string of any other value under the key. *)
Definition written (entries : Dict.t any) : list (string * string) :=
  flat_map
    (fun kv =>
       match snd kv with
       | Undefined | Null => []
       | Boolean true => [(fst kv, "")]
       | Boolean false => [("no" ++ capitalize (fst kv), "")]
       | Text s => [(fst kv, s)]
       end) entries.

(** A rule that is a boolean, a string or an array, and rules that are
    all such. *)
Definition is_plain (rule : Transformer) : bool :=
  match rule with
  | TValue (VBool _) | TValue (VContent _) => true
  | _ => false
  end.

Definition plain_rules (rules : Dict.t Transformer) : bool :=
  forallb (fun kv => is_plain (snd kv)) rules.

(** A type that names no member of [Object.prototype], and a node whose
    type, and the types of the nodes under it, are such. *)
Definition plain_type (type : option string) : bool :=
  match inherited (type_name type) with
  | None => true
  | Some _ => false
  end.

Fixpoint plain_types (e : Element) : bool :=
  match e with
  | mkElement type _ children => plain_type type && forallb plain_types children
  end.

(** The nodes that stand for a node whose rule is a string or an array;
    none for a node whose rule is a boolean. *)
Definition replacement (rules : Dict.t Transformer) (e : Element) : list Element :=
  match resolve rules (type e) with
  | TValue (VContent c) => toElementArray c
  | _ => []
  end.

(** A node after [transform] has run on it under plain rules: a node
    whose rule is [true] has, after its children, which have grown
    likewise, one more child, the node rebuilt with the replacements of
    its children as children; any other node is as it was. *)
Fixpoint grown (rules : Dict.t Transformer) (e : Element) : Element :=
  match e with
  | mkElement type attrs children =>
      match resolve rules type with
      | TValue (VBool true) =>
          mkElement type attrs
            (map (grown rules) children
             ++ [Element_ type (Some (as_any attrs))
                   (Some (CArray (map inr (flat_map (replacement rules) children))))])%list
      | _ => e
      end
  end.

(** *** What the selectors select *)

(** A type name in a selector: not empty, no white space, none of the
    combinator characters, no comma. *)
Definition simple_char (c : ascii) : bool :=
  negb (is_space c || comb_char c || is_char "," c).

Definition simple_name (s : string) : bool :=
  negb (Str.is_empty s) && Str.all simple_char s.

(** One of [>], [+] and [~]. *)
Definition operator_char (c : ascii) : bool :=
  comb_char c && negb (is_char " " c).

(** The nodes of a tree, each before the nodes under it. *)
Fixpoint nodes (e : Element) : list Element :=
  match e with
  | mkElement _ _ children => e :: flat_map nodes children
  end.

Definition has_type (name : string) (e : Element) : bool := type_is (type e) name.

(** The nodes of type [c] of a tree in the order of [nodes], each as many
    times as it has ancestors of type [a], [n] of them above the tree. *)
Fixpoint under (a c : string) (n : nat) (e : Element) : list Element :=
  match e with
  | mkElement type _ children =>
      (repeat e (if type_is type c then n else 0)
       ++ flat_map (under a c (if type_is type a then S n else n)) children)%list
  end.

(** The nodes of type [c] of a tree whose parent has type [a], in the
    order of [nodes]; [parent] tells whether the parent of the tree has. *)
Fixpoint child_of (a c : string) (parent : bool) (e : Element) : list Element :=
  match e with
  | mkElement type _ children =>
      ((if parent && type_is type c then [e] else [])
       ++ flat_map (child_of a c (type_is type a)) children)%list
  end.

(** The nodes of type [b] that come right after a sibling of type [a];
    [previous] tells whether the node before the list has type [a]. *)
Definition next_loop (a b : string) (inside : Element -> list Element)
  : list Element -> bool -> list Element :=
  fix loop (l : list Element) (previous : bool) : list Element :=
    match l with
    | [] => []
    | e :: l' =>
        ((if previous && has_type b e then [e] else [])
         ++ inside e ++ loop l' (has_type a e))%list
    end.

Fixpoint next_in (a b : string) (e : Element) : list Element :=
  match e with
  | mkElement _ _ children => next_loop a b (next_in a b) children false
  end.

Definition next_to (a b : string) (forest : list Element) : list Element :=
  next_loop a b (next_in a b) forest false.

(** The nodes of type [b] that come after a sibling of type [a], each as
    many times as it has such siblings before it, [n] of them before the
    list. *)
Definition later_loop (a b : string) (inside : Element -> list Element)
  : list Element -> nat -> list Element :=
  fix loop (l : list Element) (n : nat) : list Element :=
    match l with
    | [] => []
    | e :: l' =>
        (repeat e (if has_type b e then n else 0)
         ++ inside e ++ loop l' (if has_type a e then S n else n))%list
    end.

Fixpoint later_in (a b : string) (e : Element) : list Element :=
  match e with
  | mkElement _ _ children => later_loop a b (later_in a b) children 0
  end.

Definition later_than (a b : string) (forest : list Element) : list Element :=
  later_loop a b (later_in a b) forest 0.

(** Groups of selectors none of which is empty. *)
Definition ready (q : list (list Selector)) : Prop := Forall (fun g => g <> []) q.

(** A round of the loop over the groups keeps them so, and what it
    yields is the node at hand. *)
Definition scan_ready (e : Element) (st st' : scan) : Prop :=
  (ready (scan_inner st) -> ready (scan_inner st'))
  /\ (ready (scan_adjacent st) -> ready (scan_adjacent st'))
  /\ (ready (scan_query st) -> ready (scan_query st'))
  /\ (forall x, In x (scan_yield st') -> In x (scan_yield st) \/ x = e).

(** [_select] returns on [e], and returns nodes under [e]. *)
Definition selects_inside (e : Element) : Prop :=
  forall q, ready q ->
    exists out, select_in e q = Return out /\ incl out (flat_map nodes (children e)).

(** The text between two type names of a selector and the combinator it
    is read as: spaces alone are the combinator [" "]; spaces, one of
    [>], [+] and [~], and spaces are that character. *)
Definition blanks (s : string) : bool := Str.all (is_char " ") s.

Fixpoint skip_blanks (s : string) : string :=
  match s with
  | String c s' => if is_char " " c then skip_blanks s' else s
  | "" => ""
  end.

Definition separator (sep : string) : option string :=
  match skip_blanks sep with
  | "" => if Str.is_empty sep then None else Some " "
  | String k after =>
      if operator_char k && blanks after then Some (String k "") else None
  end.

(* ================================================================== *)
(** * Properties *)

Unset Implicit Arguments.

(** ** Strings *)

Module StrFacts.
Import Str.

Lemma append_nil_r (s : string) : s ++ "" = s.
Proof. induction s; simpl; congruence. Qed.

Lemma append_assoc (a b c : string) : (a ++ b) ++ c = a ++ (b ++ c).
Proof. induction a; simpl; congruence. Qed.

Lemma length_append (a b : string) :
  String.length (a ++ b) = String.length a + String.length b.
Proof. induction a; simpl; congruence. Qed.

Lemma cmap_append f (a b : string) : cmap f (a ++ b) = cmap f a ++ cmap f b.
Proof.
  induction a; simpl; [reflexivity|].
  now rewrite IHa, append_assoc.
Qed.

Lemma cmap_id (s : string) : cmap (fun c => String c "") s = s.
Proof. induction s; simpl; congruence. Qed.

Lemma cmap_ext f g (s : string) :
  (forall c, f c = g c) -> cmap f s = cmap g s.
Proof. intros H; induction s; simpl; congruence. Qed.

(** A pattern that starts with [p] does not match at another character. *)
Lemma starts_with_head_neq p pat c s :
  c <> p -> starts_with (String p pat) (String c s) = false.
Proof.
  intros H; simpl. destruct (Ascii.eqb_spec p c); [congruence|reflexivity].
Qed.

Lemma replace_from_other p pat rep c s :
  c <> p ->
  replace_from (String p pat) rep 0 (String c s)
  = String c (replace_from (String p pat) rep 0 s).
Proof.
  intros H. cbn [replace_from]. now rewrite starts_with_head_neq.
Qed.

End StrFacts.

(** ** Escaper *)

Module EscapeFacts.
Import Str StrFacts.

(** Replacing a single character distributes over the characters. *)
Lemma replace_char_cmap p rep (s : string) :
  replace_all (String p "") rep s
  = cmap (fun c => if Ascii.eqb c p then rep else String c "") s.
Proof.
  unfold replace_all. induction s as [|c s IH]; [reflexivity|].
  cbn [replace_from cmap starts_with]. rewrite (Ascii.eqb_sym p c).
  destruct (Ascii.eqb_spec c p) as [->|Hne]; simpl; now rewrite IH.
Qed.

Lemma replace_char_other p rep c :
  c <> p -> replace_all (String p "") rep (String c "") = String c "".
Proof.
  intros H. rewrite replace_char_cmap. cbn [cmap].
  now destruct (Ascii.eqb_spec c p).
Qed.

Lemma replace_char_append p rep (a b : string) :
  replace_all (String p "") rep (a ++ b)
  = replace_all (String p "") rep a ++ replace_all (String p "") rep b.
Proof. rewrite !replace_char_cmap. apply cmap_append. Qed.

Lemma replace_char_of_cmap p rep f (s : string) :
  replace_all (String p "") rep (cmap f s)
  = cmap (fun c => replace_all (String p "") rep (f c)) s.
Proof.
  induction s as [|c s IH]; [reflexivity|].
  cbn [cmap]. now rewrite replace_char_append, IH.
Qed.

Ltac ascii_cases c :=
  destruct (Ascii.eqb_spec c "&"); [subst c|];
  [|destruct (Ascii.eqb_spec c "<"); [subst c|]];
  [| |destruct (Ascii.eqb_spec c ">"); [subst c|]];
  [| | |destruct (Ascii.eqb_spec c dquote); [subst c|]].

Lemma escape_cmap (s : string) (inline : bool) :
  escape s inline = cmap (esc_char inline) s.
Proof.
  unfold escape.
  rewrite (replace_char_cmap "&" "&amp;" s).
  rewrite !replace_char_of_cmap.
  destruct inline; try rewrite replace_char_of_cmap;
    apply cmap_ext; intros c; unfold esc_char;
    ascii_cases c; try reflexivity;
    now rewrite !replace_char_other by assumption.
Qed.

Lemma esc_char_stage inline c : esc_char inline c = stage true true true inline c.
Proof.
  unfold esc_char, stage. ascii_cases c; try reflexivity.
  - now destruct inline.
  - now rewrite andb_false_r.
Qed.

Lemma stage_plain (s : string) : cmap (stage false false false false) s = s.
Proof.
  rewrite <- (cmap_id s) at 2. apply cmap_ext. intros c.
  unfold stage. ascii_cases c; reflexivity.
Qed.

(** One pass of [replace_all] over a string written character by
    character, when the pattern can only match at the start of the
    image of a character. *)
Lemma replace_all_cmap pat rep (f g : ascii -> string) (s : string) :
  (forall c rest,
      replace_from pat rep 0 (f c ++ rest) = g c ++ replace_from pat rep 0 rest) ->
  replace_all pat rep (cmap f s) = cmap g s.
Proof.
  intros H. unfold replace_all. induction s as [|c s IH]; [reflexivity|].
  cbn [cmap]. now rewrite H, IH.
Qed.

Ltac run_replace :=
  cbn [replace_from starts_with String.append String.length Nat.sub
       Ascii.eqb Bool.eqb andb].

Ltac stage_step c :=
  unfold stage; ascii_cases c;
  [run_replace; reflexivity ..
  | cbn [String.append]; now rewrite replace_from_other by assumption].

Lemma unescape_lt gt quot (s : string) :
  replace_all "&lt;" "<" (cmap (stage true true gt quot) s)
  = cmap (stage true false gt quot) s.
Proof.
  apply replace_all_cmap. intros c rest.
  destruct gt, quot; stage_step c.
Qed.

Lemma unescape_gt quot (s : string) :
  replace_all "&gt;" ">" (cmap (stage true false true quot) s)
  = cmap (stage true false false quot) s.
Proof.
  apply replace_all_cmap. intros c rest.
  destruct quot; stage_step c.
Qed.

Lemma unescape_quot quot (s : string) :
  replace_all "&quot;" dquotes (cmap (stage true false false quot) s)
  = cmap (stage true false false false) s.
Proof.
  apply replace_all_cmap. intros c rest.
  destruct quot; stage_step c.
Qed.

Lemma unescape_amp (s : string) :
  replace_all "&amp;" "&" (cmap (stage true false false false) s)
  = cmap (stage false false false false) s.
Proof.
  apply replace_all_cmap. intros c rest. stage_step c.
Qed.

Lemma unescape_escape (s : string) (inline : bool) :
  unescape (escape s inline) = s.
Proof.
  rewrite escape_cmap.
  rewrite (cmap_ext _ _ s (esc_char_stage inline)).
  unfold unescape.
  now rewrite unescape_lt, unescape_gt, unescape_quot, unescape_amp, stage_plain.
Qed.

End EscapeFacts.

(** ** Nodes *)

(** Induction on a node with the property known of its children. *)
Lemma Element_induction (P : Element -> Prop) :
  (forall type attrs children,
      Forall P children -> P (mkElement type attrs children)) ->
  forall e, P e.
Proof.
  intros step. fix IH 1. intros [type attrs children]. apply step.
  induction children as [|c cs IHcs]; constructor; [apply IH | exact IHcs].
Qed.

Lemma map_toElement_inr (l : list Element) : map toElement (map inr l) = l.
Proof. induction l; simpl; congruence. Qed.

(** A node rebuilt from an array of nodes has that array as children. *)
Lemma Element_with_array type a (kids : list Element) :
  Element_ type a (Some (CArray (map inr kids))) = Element_of type a kids.
Proof. unfold Element_. simpl. now rewrite map_toElement_inr. Qed.

(** ** The tree builder *)

(** Once the root container has left the stack, [parse] throws whatever
    the remaining tokens are. *)
Lemma build_empty_stack (tokens : list (string + Token)) : build tokens [] = Throws.
Proof.
  induction tokens as [|[text|token] tokens IH]; simpl; try reflexivity.
  destruct (Str.is_empty (close token)); simpl; [reflexivity | exact IH].
Qed.

Lemma build_close_root (token : Token) (tokens : list (string + Token)) (root : Element) :
  Str.is_empty (close token) = false ->
  build (inr token :: tokens) [root] = Throws.
Proof. intros H. simpl. rewrite H. simpl. apply build_empty_stack. Qed.

(** ** Serialization of text nodes *)

Lemma toString_text (e : Element) :
  type e = Some "text" ->
  toString e =
    match Dict.get "content" (attrs e) with
    | Some content => Return (escape content false)
    | None => Throws
    end.
Proof. destruct e as [type attrs children]; simpl. now intros ->. Qed.

(** ** The store *)

Module StoreFacts.
Import Store.

Lemma nth_error_extend (h ext : heap) (r : ref) (n : node) :
  nth_error h r = Some n -> nth_error (h ++ ext)%list r = Some n.
Proof.
  intros H. rewrite nth_error_app1; [exact H|].
  apply nth_error_Some. congruence.
Qed.

Lemma nth_error_alloc (h : heap) (n : node) :
  nth_error (h ++ [n])%list (List.length h) = Some n.
Proof. rewrite nth_error_app2, Nat.sub_diag by lia. reflexivity. Qed.

(** The value of the children, as [reps]. *)
Lemma rep_children h type attrs children r :
  rep h (mkElement type attrs children) r
  <-> exists n,
      nth_error h r = Some n
      /\ node_type n = type
      /\ node_attrs n = attrs
      /\ reps h children (node_children n).
Proof.
  cbn [rep].
  assert (E : forall es rs,
             (fix all (es : list Element) (rs : list ref) {struct es} : Prop :=
                match es, rs with
                | [], [] => True
                | e' :: es', r' :: rs' => rep h e' r' /\ all es' rs'
                | _, _ => False
                end) es rs <-> reps h es rs).
  { induction es as [|e es IH]; intros [|r' rs]; simpl; try tauto.
    now rewrite IH. }
  split; intros (n & H1 & H2 & H3 & H4); exists n; repeat split; auto;
    now apply E.
Qed.

(** Objects that are added to the store leave the values in place. *)
Lemma rep_extend (ext : heap) (h : heap) (e : Element) :
  forall r, rep h e r -> rep (h ++ ext)%list e r.
Proof.
  induction e as [type attrs children IH] using Element_induction.
  intros r H. apply rep_children in H. destruct H as (n & H1 & H2 & H3 & H4).
  apply rep_children. exists n. repeat split; auto using nth_error_extend.
  clear H1 H2 H3. revert H4. generalize (node_children n).
  induction IH as [|e es He _ IHes]; intros [|r' rs]; simpl; try tauto.
  intros [Ha Hb]. split; auto.
Qed.

Lemma reps_extend (ext : heap) (h : heap) (es : list Element) :
  forall rs, reps h es rs -> reps (h ++ ext)%list es rs.
Proof.
  induction es as [|e es IH]; intros [|r rs]; simpl; try tauto.
  intros [Ha Hb]. split; auto using rep_extend.
Qed.

End StoreFacts.

(** ** The tree builder on the store and on values *)

(** The functions on values, under names that stay visible once the
    functions on the store are imported. *)
#[local] Abbreviation value_build := build (only parsing).
#[local] Abbreviation value_parse := parse (only parsing).
#[local] Abbreviation value_toElement := toElement (only parsing).
#[local] Abbreviation value_Element := Element_ (only parsing).

Module BuildFacts.
Import Store StoreFacts.

Lemma rep_in_children lo hi h type attrs children r :
  rep_in lo hi h (mkElement type attrs children) r
  <-> lo <= r /\ r < hi
      /\ exists n,
        nth_error h r = Some n
        /\ node_type n = type
        /\ node_attrs n = attrs
        /\ reps_in (S r) hi h children (node_children n).
Proof.
  cbn [rep_in].
  assert (E : forall es rs,
             (fix all (es : list Element) (rs : list ref) {struct es} : Prop :=
                match es, rs with
                | [], [] => True
                | e' :: es', r' :: rs' => rep_in (S r) hi h e' r' /\ all es' rs'
                | _, _ => False
                end) es rs <-> reps_in (S r) hi h es rs).
  { induction es as [|e es IH]; intros [|r' rs]; simpl; try tauto.
    now rewrite IH. }
  split; intros (Hlo & Hhi & n & H1 & H2 & H3 & H4); repeat split; auto;
    exists n; repeat split; auto; now apply E.
Qed.

Lemma rep_in_rep h (e : Element) : forall lo hi r, rep_in lo hi h e r -> rep h e r.
Proof.
  induction e as [type attrs children IH] using Element_induction.
  intros lo hi r H. apply rep_in_children in H.
  destruct H as (_ & _ & n & H1 & H2 & H3 & H4).
  apply rep_children. exists n. repeat split; auto.
  clear H1 H2 H3. revert H4. generalize (node_children n).
  induction IH as [|e es He _ IHes]; intros [|r' rs]; simpl; try tauto.
  intros [Ha Hb]. split; eauto.
Qed.

Lemma reps_in_reps h lo hi (es : list Element) :
  forall rs, reps_in lo hi h es rs -> reps h es rs.
Proof.
  induction es as [|e es IH]; intros [|r rs]; simpl; try tauto.
  intros [Ha Hb]. split; eauto using rep_in_rep.
Qed.

(** A store that agrees on the positions from [lo] to [hi - 1] has the
    same values there. *)
Lemma rep_in_agree (h h' : heap) hi (e : Element) :
  forall lo r,
    (forall a, lo <= a -> a < hi -> nth_error h' a = nth_error h a) ->
    rep_in lo hi h e r -> rep_in lo hi h' e r.
Proof.
  induction e as [type attrs children IH] using Element_induction.
  intros lo r Hagree H. apply rep_in_children in H.
  destruct H as (Hlo & Hhi & n & H1 & H2 & H3 & H4).
  apply rep_in_children. repeat split; auto.
  exists n. repeat split; auto.
  { now rewrite Hagree. }
  clear H1 H2 H3. revert H4. generalize (node_children n).
  induction IH as [|e es He _ IHes]; intros [|r' rs]; simpl; try tauto.
  intros [Ha Hb]. split; auto.
  apply He; auto. intros a Ha1 Ha2. apply Hagree; lia.
Qed.

Lemma reps_in_agree (h h' : heap) lo hi (es : list Element) :
  (forall a, lo <= a -> a < hi -> nth_error h' a = nth_error h a) ->
  forall rs, reps_in lo hi h es rs -> reps_in lo hi h' es rs.
Proof.
  intros Hagree. induction es as [|e es IH]; intros [|r rs]; simpl; try tauto.
  intros [Ha Hb]. split; eauto using rep_in_agree.
Qed.

Lemma rep_in_widen h (e : Element) lo lo' hi hi' r :
  lo' <= lo -> hi <= hi' -> rep_in lo hi h e r -> rep_in lo' hi' h e r.
Proof.
  revert lo lo' r. induction e as [type attrs children IH] using Element_induction.
  intros lo lo' r Hlo Hhi H. apply rep_in_children in H.
  destruct H as (H5 & H6 & n & H1 & H2 & H3 & H4).
  apply rep_in_children. repeat split; try lia.
  exists n. repeat split; auto.
  clear H1 H2 H3. revert H4. generalize (node_children n).
  induction IH as [|e es He _ IHes]; intros [|r' rs]; simpl; try tauto.
  intros [Ha Hb]. split; auto.
  apply He with (lo := S r); auto.
Qed.

Lemma reps_in_widen h lo lo' hi hi' (es : list Element) :
  lo' <= lo -> hi <= hi' ->
  forall rs, reps_in lo hi h es rs -> reps_in lo' hi' h es rs.
Proof.
  intros Hlo Hhi. induction es as [|e es IH]; intros [|r rs]; simpl; try tauto.
  intros [Ha Hb]. split; eauto using rep_in_widen.
Qed.

Lemma reps_in_snoc h lo hi (es : list Element) e :
  forall rs r,
    reps_in lo hi h es rs -> rep_in lo hi h e r ->
    reps_in lo hi h (es ++ [e]) (rs ++ [r]).
Proof.
  induction es as [|e' es IH]; intros [|r' rs] r; simpl; try tauto.
  intros [Ha Hb] Hr. split; auto.
Qed.

(** *** The store under [push] and [alloc] *)

Lemma length_update r f (h : heap) : List.length (update r f h) = List.length h.
Proof.
  revert r. induction h as [|n h IH]; intros [|r]; simpl; auto.
Qed.

Lemma nth_error_update_same r f (h : heap) n :
  nth_error h r = Some n -> nth_error (update r f h) r = Some (f n).
Proof.
  revert r. induction h as [|n' h IH]; intros [|r]; simpl; try discriminate.
  - now intros [= ->].
  - apply IH.
Qed.

Lemma nth_error_update_other r f (h : heap) a :
  a <> r -> nth_error (update r f h) a = nth_error h a.
Proof.
  revert r a. induction h as [|n' h IH]; intros [|r] [|a]; simpl; auto; try tauto.
Qed.

Lemma frames_agree (h h' : heap) (fs : list Element) :
  forall hi above rs,
    (forall a, a < hi -> nth_error h' a = nth_error h a) ->
    frames h hi above fs rs -> frames h' hi above fs rs.
Proof.
  induction fs as [|f fs IH]; intros hi above [|r rs] Hagree; simpl; try tauto.
  intros (Hr & (n & cs & H1 & H2 & H3 & H4 & H5) & Hbelow).
  split; [exact Hr|]. split.
  - exists n, cs. repeat split; auto.
    + now rewrite Hagree.
    + apply reps_in_agree with (h := h); auto.
  - apply IH; auto. intros a Ha. apply Hagree. lia.
Qed.

(** Closing the innermost frame attaches it to the frame below. *)
Lemma frames_shift h hi f f' fs r r' rs :
  frames h hi None (f :: f' :: fs) (r :: r' :: rs) ->
  frames h hi None (push_child f f' :: fs) (r' :: rs).
Proof.
  intros (Hr & (n & cs & H1 & H2 & H3 & H4 & H5) & Hbelow).
  cbn [frames] in Hbelow.
  destruct Hbelow as (Hr' & (n' & cs' & G1 & G2 & G3 & G4 & G5) & Hrest).
  cbn [frames]. split; [lia|]. split; [|exact Hrest].
  exists n', (cs' ++ [r])%list. repeat split; auto.
  { now rewrite app_nil_r. }
  simpl. apply reps_in_snoc.
  - apply reps_in_widen with (lo := S r') (hi := r); auto. lia.
  - destruct f as [type attrs children]. apply rep_in_children.
    repeat split; try lia. exists n. repeat split; auto.
    rewrite app_nil_r in H4. now rewrite H4.
Qed.

Lemma last_cons {A} (a : A) (l : list A) (d : A) :
  List.last (a :: l) d = List.last l a.
Proof.
  revert a d. induction l as [|x l IH]; intros a d; [reflexivity|].
  change (List.last (a :: x :: l) d) with (List.last (x :: l) d).
  now rewrite !IH.
Qed.

Lemma frames_bottom h hi (fs : list Element) :
  forall f r rs,
    frames h hi None (f :: fs) (r :: rs) ->
    exists n,
      nth_error h (List.last rs r) = Some n
      /\ reps h (children (bottom f fs)) (node_children n).
Proof.
  induction fs as [|f' fs IH]; intros f r [|r' rs] H.
  - destruct H as (Hr & (n & cs & H1 & H2 & H3 & H4 & H5) & _).
    exists n. split; [exact H1|]. rewrite H4, app_nil_r.
    eauto using reps_in_reps.
  - simpl in H. tauto.
  - simpl in H. tauto.
  - apply frames_shift in H. apply IH in H.
    destruct H as (n & Hn & Hreps). exists n. split; [|exact Hreps].
    now rewrite last_cons.
Qed.

Lemma frames_length h hi above (fs : list Element) :
  forall rs, frames h hi above fs rs -> List.length fs = List.length rs.
Proof.
  revert hi above. induction fs as [|f fs IH]; intros hi above [|r rs]; simpl; try tauto.
  intros (_ & _ & H). f_equal. eauto.
Qed.

(** *** One token *)

Section NewNode.

Variables (h : heap) (f : Element) (fs : list Element) (r : ref) (rs : list ref).
Variables (type : option string) (attrs : Dict.t string).

Hypothesis stack_frames : frames h (List.length h) None (f :: fs) (r :: rs).

(** The store once a new node without children is allocated and pushed
    onto the children of the innermost frame. *)
#[local] Abbreviation h' := (with_new_child h r type attrs) (only parsing).

Lemma push_new_node :
  push r (List.length h) (h ++ [mkNode type attrs []])%list = Done tt h'.
Proof.
  destruct stack_frames as (Hr & (n & cs & H1 & _) & _).
  unfold push. now rewrite (nth_error_extend _ _ _ _ H1).
Qed.

Lemma new_node_length : List.length h' = S (List.length h).
Proof. unfold with_new_child. rewrite length_update, length_app. simpl. lia. Qed.

Lemma new_node_agree a : a < List.length h -> a <> r -> nth_error h' a = nth_error h a.
Proof.
  intros Ha Hne. unfold with_new_child. rewrite nth_error_update_other by exact Hne.
  now rewrite nth_error_app1.
Qed.

Lemma new_node_rep lo :
  lo <= List.length h ->
  rep_in lo (List.length h') h' (mkElement type attrs []) (List.length h).
Proof.
  intros Hlo. destruct stack_frames as (Hr & _).
  apply rep_in_children. rewrite new_node_length. repeat split; try lia.
  exists (mkNode type attrs []). repeat split; auto.
  unfold with_new_child. rewrite nth_error_update_other by lia. apply nth_error_alloc.
Qed.

Lemma new_node_below : frames h' r (Some r) fs rs.
Proof.
  destruct stack_frames as (Hr & _ & Hbelow).
  apply frames_agree with (h := h); auto.
  intros a Ha. apply new_node_agree; lia.
Qed.

(** The new node as the last child of the innermost frame. *)
Lemma frames_attach :
  frames h' (List.length h') None (push_child (mkElement type attrs []) f :: fs) (r :: rs).
Proof.
  pose proof new_node_below as Hbelow.
  destruct stack_frames as (Hr & (n & cs & H1 & H2 & H3 & H4 & H5) & _).
  cbn [frames]. rewrite new_node_length. split; [lia|]. split; [|exact Hbelow].
  eexists _, (cs ++ [List.length h])%list. repeat split.
  - unfold with_new_child. apply nth_error_update_same. apply nth_error_extend. exact H1.
  - exact H2.
  - exact H3.
  - simpl. rewrite H4. now rewrite !app_nil_r.
  - simpl. apply reps_in_snoc.
    + apply reps_in_widen with (lo := S r) (hi := List.length h); auto.
      apply reps_in_agree with (h := h); auto.
      intros a Ha1 Ha2. apply new_node_agree; lia.
    + rewrite <- new_node_length. apply new_node_rep. lia.
Qed.

(** The new node as a frame over the innermost frame. *)
Lemma frames_open :
  frames h' (List.length h') None (mkElement type attrs [] :: f :: fs)
    (List.length h :: r :: rs).
Proof.
  pose proof new_node_below as Hbelow.
  destruct stack_frames as (Hr & (n & cs & H1 & H2 & H3 & H4 & H5) & _).
  cbn [frames]. rewrite new_node_length. split; [lia|]. split.
  { exists (mkNode type attrs []), []. repeat split; auto.
    unfold with_new_child. rewrite nth_error_update_other by lia. apply nth_error_alloc. }
  split; [exact Hr|]. split; [|exact Hbelow].
  eexists _, cs. repeat split.
  - unfold with_new_child. apply nth_error_update_same. apply nth_error_extend. exact H1.
  - exact H2.
  - exact H3.
  - simpl. rewrite H4. now rewrite app_nil_r.
  - apply reps_in_agree with (h := h); auto.
    intros a Ha1 Ha2. apply new_node_agree; lia.
Qed.

End NewNode.

(** *** The builder on the store follows [build] *)

Lemma then_done {A B} (c : M A) (k : A -> M B) (h : heap) (v : A) (h1 : heap) :
  c h = Done v h1 -> then_ c k h = k v h1.
Proof. unfold then_. now intros ->. Qed.

Lemma build_refines (base : nat) (tokens : list (string + Token)) :
  forall fs rs h,
    frames h (List.length h) None fs rs ->
    Forall (fun r => base <= r) rs ->
    match value_build tokens fs with
    | Return es =>
        exists out h',
          Store.build tokens rs h = Done out h'
          /\ reps h' es out
          /\ (forall a, a < base -> nth_error h' a = nth_error h a)
    | Throws => Store.build tokens rs h = Throw
    end.
Proof.
  induction tokens as [|[text|token] tokens IH]; intros fs rs h Hframes Hbase.
  - (* end of the tokens *)
    destruct fs as [|f fs], rs as [|r rs];
      try (simpl in Hframes; tauto); try reflexivity.
    destruct (frames_bottom _ _ _ _ _ _ Hframes) as (n & Hn & Hreps).
    cbn [value_build Store.build last_frame].
    exists (node_children n), h. unfold then_, read. rewrite Hn.
    repeat split; auto.
  - (* a text *)
    destruct fs as [|f fs], rs as [|r rs];
      try (simpl in Hframes; tauto); try reflexivity.
    cbn [value_build Store.build].
    pose proof (frames_attach _ _ _ _ _ (Some "text")
                  (build_attrs [("content", Text text)] []) Hframes) as Hnext.
    pose proof (push_new_node _ _ _ _ _ (Some "text")
                  (build_attrs [("content", Text text)] []) Hframes) as Hp.
    specialize (IH _ _ _ Hnext Hbase).
    change (value_toElement (inl text))
      with (mkElement (Some "text") (build_attrs [("content", Text text)] []) []).
    erewrite then_done by reflexivity.
    erewrite then_done by exact Hp.
    destruct (value_build tokens _) as [es|]; [|exact IH].
    destruct IH as (out & h2 & E & Hreps & Hagree).
    exists out, h2. repeat split; auto.
    intros a Ha. rewrite Hagree by exact Ha.
    inversion Hbase; subst. destruct Hframes as (Hr & _).
    apply new_node_agree; auto; lia.
  - (* a tag *)
    cbn [value_build Store.build].
    destruct (negb (Str.is_empty (close token))).
    { (* closing *)
      apply IH.
      - destruct fs as [|f [|f' fs]], rs as [|r [|r' rs]];
          try (simpl in Hframes; tauto).
        apply (frames_shift _ _ _ _ _ _ _ _ Hframes).
      - destruct rs; simpl; [constructor | now inversion Hbase]. }
    change (value_Element (Some (tag token)) (Some (as_any (token_attrs token))) None)
      with (mkElement (Some (tag token)) (build_attrs (as_any (token_attrs token)) []) []).
    erewrite then_done by reflexivity.
    destruct fs as [|f fs], rs as [|r rs];
      try (simpl in Hframes; tauto); try reflexivity.
    pose proof (push_new_node _ _ _ _ _ (Some (tag token))
                  (build_attrs (as_any (token_attrs token)) []) Hframes) as Hp.
    erewrite then_done by exact Hp.
    assert (Hagree0 : forall a, a < base ->
              nth_error
                (update r
                   (fun n => mkNode (node_type n) (node_attrs n)
                               (node_children n ++ [List.length h])%list)
                   (h ++ [mkNode (Some (tag token))
                            (build_attrs (as_any (token_attrs token)) []) []])%list) a
              = nth_error h a).
    { intros a Ha. inversion Hbase; subst. destruct Hframes as (Hr & _).
      apply new_node_agree; auto; lia. }
    destruct (negb (Str.is_empty (empty token))).
    + pose proof (frames_attach _ _ _ _ _ (Some (tag token))
                    (build_attrs (as_any (token_attrs token)) []) Hframes) as Hnext.
      specialize (IH _ _ _ Hnext Hbase).
      destruct (value_build tokens _) as [es|]; [|exact IH].
      destruct IH as (out & h2 & E & Hreps & Hagree).
      exists out, h2. repeat split; auto.
      intros a Ha. rewrite Hagree by exact Ha. now apply Hagree0.
    + pose proof (frames_open _ _ _ _ _ (Some (tag token))
                    (build_attrs (as_any (token_attrs token)) []) Hframes) as Hnext.
      assert (Hbase' : Forall (fun r => base <= r) (List.length h :: r :: rs)).
      { constructor; [|exact Hbase]. inversion Hbase; subst.
        destruct Hframes as (Hr & _). lia. }
      specialize (IH _ _ _ Hnext Hbase').
      destruct (value_build tokens _) as [es|]; [|exact IH].
      destruct IH as (out & h2 & E & Hreps & Hagree).
      exists out, h2. repeat split; auto.
      intros a Ha. rewrite Hagree by exact Ha. now apply Hagree0.
Qed.

(** [parse] on the store returns nodes that have the values [parse]
    returns, leaves the objects that were in the store as they were, and
    throws when [parse] throws. *)
Lemma parse_refines (source : string) (h : heap) :
  match value_parse source with
  | Return es =>
      exists out h',
        Store.parse source h = Done out h'
        /\ reps h' es out
        /\ (forall a, a < List.length h -> nth_error h' a = nth_error h a)
  | Throws => Store.parse source h = Throw
  end.
Proof.
  unfold value_parse, Store.parse.
  assert (Hframes : frames (h ++ [mkNode None [] []])%list
                      (List.length (h ++ [mkNode None [] []])%list) None
                      [value_Element None None None] [List.length h]).
  { simpl. rewrite length_app. simpl. split; [lia|]. split; [|exact I].
    exists (mkNode None [] []), []. repeat split; auto. apply nth_error_alloc. }
  pose proof (build_refines (List.length h) (tokenize source) _ _ _ Hframes) as H.
  erewrite then_done by reflexivity.
  destruct (value_build (tokenize source) _) as [es|].
  - destruct H as (out & h2 & E & Hreps & Hagree); [repeat constructor|].
    exists out, h2. repeat split; auto.
    intros a Ha. rewrite Hagree by exact Ha. now rewrite nth_error_app1.
  - apply H. repeat constructor.
Qed.

End BuildFacts.

(** ** More on strings *)

Module SliceFacts.
Import Str StrFacts.

Lemma drop_append (a b : string) : drop (String.length a) (a ++ b) = b.
Proof. induction a; simpl; auto. Qed.

Lemma take_append (a b : string) : take (String.length a) (a ++ b) = a.
Proof. induction a; simpl; [now destruct b | congruence]. Qed.

Lemma drop_drop (n k : nat) (s : string) : drop n (drop k s) = drop (k + n) s.
Proof.
  revert s. induction k as [|k IH]; intros s; simpl; [reflexivity|].
  destruct s; simpl; [now destruct n | apply IH].
Qed.

Lemma drop_0 (s : string) : drop 0 s = s.
Proof. now destruct s. Qed.

Lemma take_diff (a b : string) :
  take (String.length (a ++ b) - String.length b) (a ++ b) = a.
Proof.
  rewrite length_append, Nat.add_sub. apply take_append.
Qed.

Lemma all_append p (a b : string) : all p (a ++ b) = all p a && all p b.
Proof. induction a; simpl; [reflexivity|]. now rewrite IHa, andb_assoc. Qed.

Lemma is_empty_false (s : string) : is_empty s = false <-> s <> "".
Proof. destruct s; simpl; split; congruence. Qed.

End SliceFacts.

(** ** The matcher *)

Module RegexFacts.
Import Str StrFacts SliceFacts.

Lemma suffix_of_refl (s : string) : suffix_of s s.
Proof. now exists "". Qed.

Lemma suffix_of_trans (a b c : string) : suffix_of a b -> suffix_of b c -> suffix_of a c.
Proof.
  intros [w ->] [w' ->]. exists (w' ++ w). now rewrite append_assoc.
Qed.

Lemma suffix_of_tail (c : ascii) (s : string) : suffix_of s (String c s).
Proof. now exists (String c ""). Qed.

Lemma suffix_of_length (a b : string) :
  suffix_of a b -> String.length a <= String.length b.
Proof. intros [w ->]. rewrite length_append. lia. Qed.

Lemma one_sound (p : ascii -> bool) : sound (one p).
Proof.
  intros [|c s] caps k res; simpl; [discriminate|].
  destruct (p c); [|discriminate]. intros H.
  exists s, caps. split; [apply suffix_of_tail | exact H].
Qed.

Lemma progress_sound (s : string) (k : cont) s' caps res :
  progress s k s' caps = Some res -> k s' caps = Some res.
Proof. unfold progress. now destruct (Nat.ltb _ _). Qed.

Lemma star_loop_sound (body : matcher) (greedy : bool) (k : cont) :
  sound body ->
  forall fuel s caps res,
    star_loop body greedy k fuel s caps = Some res ->
    exists s' caps', suffix_of s' s /\ k s' caps' = Some res.
Proof.
  intros Hbody. induction fuel as [|fuel IH]; intros s caps res; simpl.
  { intros H. exists s, caps. split; [apply suffix_of_refl | exact H]. }
  assert (Hiter : forall res',
             body s caps (progress s (star_loop body greedy k fuel)) = Some res' ->
             exists s' caps', suffix_of s' s /\ k s' caps' = Some res').
  { intros res' H. apply Hbody in H. destruct H as (s1 & caps1 & Hs1 & H).
    apply progress_sound, IH in H. destruct H as (s2 & caps2 & Hs2 & H).
    exists s2, caps2. split; [eapply suffix_of_trans; eauto | exact H]. }
  destruct greedy.
  - destruct (body s caps _) as [r|] eqn:E.
    + intros [= <-]. now apply Hiter.
    + intros H. exists s, caps. split; [apply suffix_of_refl | exact H].
  - destruct (k s caps) as [r|] eqn:E.
    + intros [= <-]. exists s, caps. split; [apply suffix_of_refl | exact E].
    + apply Hiter.
Qed.

Lemma m_sound (r : regex) : sound (m r).
Proof.
  induction r as [c|p|r1 IH1 r2 IH2|r IH|r IH|r IH|r IH|i r IH];
    intros s caps k res; cbn [m].
  - apply one_sound.
  - apply one_sound.
  - intros H. apply IH1 in H. destruct H as (s1 & caps1 & Hs1 & H).
    apply IH2 in H. destruct H as (s2 & caps2 & Hs2 & H).
    exists s2, caps2. split; [eapply suffix_of_trans; eauto | exact H].
  - now apply star_loop_sound.
  - now apply star_loop_sound.
  - intros H. apply IH in H. destruct H as (s1 & caps1 & Hs1 & H).
    apply star_loop_sound in H; [|exact IH]. destruct H as (s2 & caps2 & Hs2 & H).
    exists s2, caps2. split; [eapply suffix_of_trans; eauto | exact H].
  - destruct (m r s caps (progress s k)) as [x|] eqn:E.
    + intros [= <-]. apply IH in E. destruct E as (s1 & caps1 & Hs1 & H).
      apply progress_sound in H. now exists s1, caps1.
    + intros H. exists s, caps. split; [apply suffix_of_refl | exact H].
  - intros H. apply IH in H. destruct H as (s1 & caps1 & Hs1 & H).
    eexists s1, _. split; eauto.
Qed.

Lemma match_here_suffix (re : regex) (s s' : string) (caps : captures) :
  match_here re s = Some (s', caps) -> suffix_of s' s.
Proof.
  unfold match_here. intros H. apply m_sound in H.
  destruct H as (s1 & caps1 & Hs1 & [= -> ->]). exact Hs1.
Qed.

(** *** Runs of a character class *)

Section Runs.

Variable p : ascii -> bool.

(** A greedy star takes the whole run when the continuation accepts
    what follows. *)
Lemma star_greedy_run (k : cont) (u : string) :
  forall v caps fuel res,
    all p u = true -> stops p v ->
    String.length (u ++ v) < fuel ->
    k v caps = Some res ->
    star_loop (one p) true k fuel (u ++ v) caps = Some res.
Proof.
  induction u as [|c u IH]; intros v caps fuel res Hu Hv Hfuel Hk.
  - destruct fuel as [|fuel]; [simpl in Hfuel; lia|].
    simpl. destruct v as [|c v]; simpl; [exact Hk|].
    simpl in Hv. now rewrite Hv.
  - destruct fuel as [|fuel]; [simpl in Hfuel; lia|].
    simpl in Hu. apply andb_true_iff in Hu. destruct Hu as [Hc Hu].
    cbn [star_loop append one]. rewrite Hc. unfold progress.
    replace (Nat.ltb _ _) with true by (symmetry; apply Nat.ltb_lt; simpl; lia).
    rewrite (IH v caps fuel res); auto. simpl in Hfuel. lia.
Qed.

(** A greedy star fails when the continuation refuses every split of
    the run. *)
Lemma star_greedy_none (k : cont) (u : string) :
  forall v caps fuel,
    all p u = true -> stops p v ->
    (forall j, j <= String.length u -> k (drop j (u ++ v)) caps = None) ->
    star_loop (one p) true k fuel (u ++ v) caps = None.
Proof.
  induction u as [|c u IH]; intros v caps fuel Hu Hv Hk.
  - pose proof (Hk 0 (le_n _)) as H0. rewrite drop_0 in H0.
    destruct fuel as [|fuel]; simpl; [exact H0|].
    destruct v as [|c v]; simpl; [exact H0|].
    simpl in Hv. now rewrite Hv.
  - pose proof (Hk 0 (Nat.le_0_l _)) as H0. rewrite drop_0 in H0.
    destruct fuel as [|fuel]; [exact H0|].
    simpl in Hu. apply andb_true_iff in Hu. destruct Hu as [Hc Hu].
    cbn [star_loop append one]. rewrite Hc. unfold progress.
    destruct (Nat.ltb _ _); [|exact H0].
    rewrite IH; auto.
    intros j Hj. apply (Hk (S j)). simpl. lia.
Qed.

(** A lazy star stops as soon as the continuation accepts. *)
Lemma star_lazy_skip (k : cont) (u : string) :
  forall v caps fuel res,
    all p u = true ->
    String.length (u ++ v) < fuel ->
    (forall j, j < String.length u -> k (drop j (u ++ v)) caps = None) ->
    k v caps = Some res ->
    star_loop (one p) false k fuel (u ++ v) caps = Some res.
Proof.
  induction u as [|c u IH]; intros v caps fuel res Hu Hfuel Hnone Hk.
  - destruct fuel as [|fuel]; [simpl in Hfuel; lia|].
    simpl. now rewrite Hk.
  - destruct fuel as [|fuel]; [simpl in Hfuel; lia|].
    simpl in Hu. apply andb_true_iff in Hu. destruct Hu as [Hc Hu].
    pose proof (Hnone 0 (Nat.lt_0_succ _)) as H0. rewrite drop_0 in H0.
    cbn [star_loop]. rewrite H0. cbn [append one]. rewrite Hc. unfold progress.
    replace (Nat.ltb _ _) with true by (symmetry; apply Nat.ltb_lt; simpl; lia).
    apply IH; auto.
    + simpl in Hfuel. lia.
    + intros j Hj. apply (Hnone (S j)). simpl. lia.
Qed.

End Runs.

End RegexFacts.

(** ** Matches of [tagRegExp] *)

Module TagFacts.
Import Str StrFacts SliceFacts RegexFacts.

(** The end of the pattern, [(\/?)>]. *)
Abbreviation tag_end := (Group 4 (Opt (Chr "/")) @@ Chr ">") (only parsing).

(** The end of the pattern with the white space before it, [\s*(\/?)>]. *)
Abbreviation tag_tail := (Star (Class is_space) @@ tag_end) (only parsing).

Lemma progress_tail (c : ascii) (s : string) (k : cont) (caps : captures) :
  progress (String c s) k s caps = k s caps.
Proof.
  unfold progress.
  now replace (Nat.ltb _ _) with true by (symmetry; apply Nat.ltb_lt; simpl; lia).
Qed.

Lemma one_cons (p : ascii -> bool) (c : ascii) (s : string) (caps : captures) (k : cont) :
  one p (String c s) caps k = if p c then k s caps else None.
Proof. reflexivity. Qed.

Lemma tag_end_slash (rest : string) (caps : captures) (k : cont) :
  m tag_end ("/>" ++ rest) caps k = k rest ((4, "/") :: caps).
Proof.
  cbn [m append]. rewrite one_cons, Ascii.eqb_refl, progress_tail.
  rewrite one_cons, Ascii.eqb_refl.
  change (String "/" (String ">" rest)) with ("/" ++ String ">" rest).
  rewrite (take_diff "/" (String ">" rest)).
  now destruct (k rest ((4, "/") :: caps)).
Qed.

Lemma tag_end_gt (rest : string) (caps : captures) (k : cont) :
  m tag_end (">" ++ rest) caps k = k rest ((4, "") :: caps).
Proof.
  cbn [m append]. rewrite one_cons. change (Ascii.eqb "/" ">") with false.
  rewrite one_cons, Ascii.eqb_refl. now rewrite Nat.sub_diag.
Qed.

Lemma tag_end_none (s : string) (caps : captures) (k : cont) :
  starts_with ">" s = false -> starts_with "/>" s = false ->
  m tag_end s caps k = None.
Proof.
  destruct s as [|c s]; [reflexivity|].
  intros Hgt Hslash. cbn [starts_with] in Hgt, Hslash.
  rewrite andb_true_r in Hgt.
  cbn [m]. rewrite !one_cons, Hgt.
  destruct (Ascii.eqb "/" c); [|reflexivity].
  rewrite progress_tail. rewrite andb_true_l in Hslash.
  destruct s as [|d s]; [reflexivity|].
  cbn [starts_with] in Hslash. rewrite andb_true_r in Hslash.
  now rewrite one_cons, Hslash.
Qed.

Lemma space_not_gt (c : ascii) : is_space c = true -> Ascii.eqb ">" c = false.
Proof.
  intros H. destruct (Ascii.eqb_spec ">" c); [subst; discriminate | reflexivity].
Qed.

Lemma space_not_slash (c : ascii) : is_space c = true -> Ascii.eqb "/" c = false.
Proof.
  intros H. destruct (Ascii.eqb_spec "/" c); [subst; discriminate | reflexivity].
Qed.

(** A string is its leading white space followed by the rest. *)
Lemma leading_space (s : string) :
  exists u v,
    s = u ++ v /\ all is_space u = true /\ stops is_space v
    /\ closes s = (starts_with ">" v || starts_with "/>" v).
Proof.
  induction s as [|c s (u & v & E & Hu & Hv & Hc)].
  - exists "", "". repeat split.
  - destruct (is_space c) eqn:Ec.
    + exists (String c u), v. simpl. rewrite Ec. repeat split; auto.
      now rewrite E.
    + exists "", (String c s). cbn [closes]. rewrite Ec. repeat split; auto.
Qed.

Lemma drop_run (p : ascii -> bool) (u v : string) (j : nat) :
  j <= String.length u -> all p u = true ->
  exists u', drop j (u ++ v) = u' ++ v /\ all p u' = true
             /\ (u' = "" <-> j = String.length u).
Proof.
  revert j. induction u as [|c u IH]; intros j Hj Hu.
  - exists "". simpl in Hj. replace j with 0 by lia. rewrite drop_0. now repeat split.
  - destruct j as [|j].
    + exists (String c u). repeat split; auto; discriminate.
    + simpl in Hu. apply andb_true_iff in Hu. destruct Hu as [_ Hu].
      destruct (IH j) as (u' & E & Hu' & Hiff); [simpl in Hj; lia | exact Hu |].
      exists u'. simpl. repeat split; auto.
      * intros H. f_equal. now apply Hiff.
      * intros [= H]. now apply Hiff.
Qed.

Lemma tag_tail_none (s : string) (caps : captures) (k : cont) :
  closes s = false -> m tag_tail s caps k = None.
Proof.
  intros Hc. destruct (leading_space s) as (u & v & -> & Hu & Hv & E).
  rewrite Hc in E. symmetry in E. apply orb_false_iff in E. destruct E as [E1 E2].
  change (m tag_tail (u ++ v) caps k)
    with (star_loop (one is_space) true (fun s' caps' => m tag_end s' caps' k)
            (S (String.length (u ++ v))) (u ++ v) caps).
  apply star_greedy_none; auto.
  intros j Hj. destruct (drop_run is_space u v j Hj Hu) as (u' & -> & Hu' & _).
  apply tag_end_none.
  - destruct u' as [|c u']; [exact E1|]. simpl in Hu'. apply andb_true_iff in Hu'.
    cbn [append starts_with]. now rewrite (space_not_gt c).
  - destruct u' as [|c u']; [exact E2|]. simpl in Hu'. apply andb_true_iff in Hu'.
    cbn [append starts_with]. now rewrite (space_not_slash c).
Qed.

Lemma tag_tail_gt (rest : string) (caps : captures) (k : cont) res :
  k rest ((4, "") :: caps) = Some res ->
  m tag_tail (">" ++ rest) caps k = Some res.
Proof.
  intros H.
  change (m tag_tail (">" ++ rest) caps k)
    with (star_loop (one is_space) true (fun s' caps' => m tag_end s' caps' k)
            (S (String.length ("" ++ (">" ++ rest)))) ("" ++ (">" ++ rest)) caps).
  apply star_greedy_run; auto; try reflexivity.
  now rewrite tag_end_gt.
Qed.

Lemma tag_tail_slash (rest : string) (caps : captures) (k : cont) res :
  k rest ((4, "/") :: caps) = Some res ->
  m tag_tail ("/>" ++ rest) caps k = Some res.
Proof.
  intros H.
  change (m tag_tail ("/>" ++ rest) caps k)
    with (star_loop (one is_space) true (fun s' caps' => m tag_end s' caps' k)
            (S (String.length ("" ++ ("/>" ++ rest)))) ("" ++ ("/>" ++ rest)) caps).
  apply star_greedy_run; auto; try reflexivity.
  now rewrite tag_end_slash.
Qed.

(** *** The text between the name and the end of the tag *)

Lemma last_char_none (s : string) : last_char s = None <-> s = "".
Proof.
  destruct s as [|c s]; simpl; [tauto|].
  split; [|discriminate]. now destruct (last_char s).
Qed.

Lemma last_char_cons (c : ascii) (s : string) :
  s <> "" -> last_char (String c s) = last_char s.
Proof.
  intros H. simpl. destruct (last_char s) eqn:E; [reflexivity|].
  now apply last_char_none in E.
Qed.

Lemma ends_with_cons p (c : ascii) (s : string) :
  s <> "" -> ends_with p (String c s) = ends_with p s.
Proof. intros H. unfold ends_with. now rewrite last_char_cons. Qed.

Lemma ends_with_single p (c : ascii) : ends_with p (String c "") = p c.
Proof. reflexivity. Qed.

Lemma closes_inner (a t : string) :
  a <> "" -> all non_gt a = true -> ends_with attr_end_char a = true ->
  closes (a ++ t) = false.
Proof.
  induction a as [|c a IH]; intros Hne Hall Hend; [congruence|].
  cbn [all] in Hall. apply andb_true_iff in Hall. destruct Hall as [Hc Hall].
  unfold non_gt, is_char in Hc. apply negb_true_iff in Hc.
  cbn [append closes]. destruct (is_space c) eqn:Es.
  - destruct a as [|d a].
    + rewrite ends_with_single in Hend. unfold attr_end_char in Hend.
      now rewrite Es in Hend.
    + apply IH; [discriminate | exact Hall |].
      now rewrite ends_with_cons in Hend by discriminate.
  - cbn [starts_with]. rewrite Hc. cbn [andb orb].
    destruct (Ascii.eqb "/" c) eqn:E; [|reflexivity]. cbn [andb].
    destruct a as [|d a].
    + rewrite ends_with_single in Hend. unfold attr_end_char, is_char in Hend.
      rewrite E, orb_true_r in Hend. discriminate.
    + cbn [all] in Hall. apply andb_true_iff in Hall. destruct Hall as [Hd _].
      unfold non_gt, is_char in Hd. apply negb_true_iff in Hd.
      cbn [append starts_with]. now rewrite Hd.
Qed.

Lemma drop_inner (a : string) (j : nat) :
  j < String.length a -> all non_gt a = true -> ends_with attr_end_char a = true ->
  drop j a <> "" /\ all non_gt (drop j a) = true
  /\ ends_with attr_end_char (drop j a) = true.
Proof.
  revert j. induction a as [|c a IH]; intros j Hj Hall Hend; [simpl in Hj; lia|].
  destruct j as [|j]; [repeat split; auto; discriminate|].
  simpl in Hj. cbn [all] in Hall. apply andb_true_iff in Hall. destruct Hall as [_ Hall].
  cbn [drop]. apply IH; [lia | exact Hall |].
  rewrite ends_with_cons in Hend; [exact Hend|].
  destruct a; [simpl in Hj; lia | discriminate].
Qed.

Lemma drop_append_left (a t : string) (j : nat) :
  j <= String.length a -> drop j (a ++ t) = drop j a ++ t.
Proof.
  revert j. induction a as [|c a IH]; intros j Hj.
  - simpl in Hj. replace j with 0 by lia. now rewrite !drop_0.
  - destruct j as [|j]; [reflexivity|]. simpl. apply IH. simpl in Hj. lia.
Qed.

(** *** The pattern from each of its groups on *)

Abbreviation tag_attrs := (Group 3 (StarLazy (Class non_gt)) @@ tag_tail) (only parsing).
Abbreviation tag_name := (Group 2 (Plus (Class name_char)) @@ tag_attrs) (only parsing).
Abbreviation tag_space := (Star (Class is_space) @@ tag_name) (only parsing).

Lemma m_seq (r1 r2 : regex) (s : string) (caps : captures) (k : cont) :
  m (r1 @@ r2) s caps k = m r1 s caps (fun s' caps' => m r2 s' caps' k).
Proof. reflexivity. Qed.

Lemma m_group (i : nat) (r : regex) (s : string) (caps : captures) (k : cont) :
  m (Group i r) s caps k
  = m r s caps
      (fun s' caps' => k s' ((i, take (String.length s - String.length s') s) :: caps')).
Proof. reflexivity. Qed.

(** [p+] takes a whole non-empty run of [p] when the continuation
    accepts what follows. *)
Lemma plus_run (p : ascii -> bool) (k : cont) (u v : string) caps res :
  u <> "" -> all p u = true -> stops p v ->
  k v caps = Some res ->
  m (Plus (Class p)) (u ++ v) caps k = Some res.
Proof.
  intros Hne Hu Hv Hk. destruct u as [|c u]; [congruence|].
  cbn [all] in Hu. apply andb_true_iff in Hu. destruct Hu as [Hc Hu].
  cbn [m append]. rewrite one_cons, Hc.
  apply star_greedy_run; auto.
Qed.

(** [p*] takes a whole run of [p] when the continuation accepts what
    follows. *)
Lemma star_run (p : ascii -> bool) (k : cont) (u v : string) caps res :
  all p u = true -> stops p v ->
  k v caps = Some res ->
  m (Star (Class p)) (u ++ v) caps k = Some res.
Proof.
  intros Hu Hv Hk. cbn [m]. apply star_greedy_run; auto.
Qed.

Section Tag.

Variables (name a rest : string) (selfclosing : bool).
Variables (k : cont) (res : string * captures).

Hypothesis inner : a = "" \/ inner_text a = true.

Lemma tag_tail_close (caps : captures) :
  k rest ((4, tag_slash selfclosing) :: caps) = Some res ->
  m tag_tail (tag_close selfclosing ++ rest) caps k = Some res.
Proof.
  destruct selfclosing; [apply tag_tail_slash | apply tag_tail_gt].
Qed.

Lemma tag_attrs_match (caps : captures) :
  k rest ((4, tag_slash selfclosing) :: (3, a) :: caps) = Some res ->
  m tag_attrs (a ++ tag_close selfclosing ++ rest) caps k = Some res.
Proof.
  intros Hk. cbn [m].
  change (m (Class non_gt)) with (one non_gt).
  apply star_lazy_skip; auto.
  - destruct inner as [-> | Ha]; [reflexivity|].
    unfold inner_text in Ha. now rewrite !andb_true_iff in Ha.
  - intros j Hj. destruct inner as [-> | Ha]; [simpl in Hj; lia|].
    unfold inner_text in Ha. apply andb_true_iff in Ha. destruct Ha as [Ha _].
    apply andb_true_iff in Ha. destruct Ha as [Hall Hend].
    destruct (drop_inner a j Hj Hall Hend) as (H1 & H2 & H3).
    rewrite drop_append_left by lia.
    epose proof (tag_tail_none _ _ k (closes_inner _ _ H1 H2 H3)) as H.
    cbn [m] in H. apply H.
  - rewrite take_diff.
    epose proof (tag_tail_close _ Hk) as H. cbn [m] in H. apply H.
Qed.

Hypothesis name_chars : all name_char name = true.
Hypothesis name_first : name <> "".
Hypothesis not_bare : a = "" -> selfclosing = false.

Lemma after_name : stops name_char (a ++ tag_close selfclosing ++ rest).
Proof.
  destruct inner as [-> | Ha].
  - rewrite not_bare by reflexivity. reflexivity.
  - unfold inner_text in Ha. apply andb_true_iff in Ha. destruct Ha as [_ Ha].
    destruct a as [|c a']; [discriminate|]. simpl. now apply negb_true_iff.
Qed.

Lemma tag_name_match (caps : captures) :
  k rest ((4, tag_slash selfclosing) :: (3, a) :: (2, name) :: caps) = Some res ->
  m tag_name (name ++ a ++ tag_close selfclosing ++ rest) caps k = Some res.
Proof.
  intros Hk. rewrite m_seq, m_group.
  apply plus_run; auto using after_name.
  rewrite take_diff. now apply tag_attrs_match.
Qed.

Lemma name_not_space : stops is_space (name ++ a ++ tag_close selfclosing ++ rest).
Proof.
  pose proof name_chars as Hn.
  destruct name as [|c name']; [congruence|]. simpl.
  cbn [all] in Hn. apply andb_true_iff in Hn.
  destruct Hn as [Hc _]. unfold name_char in Hc.
  apply negb_true_iff, orb_false_iff in Hc. tauto.
Qed.

Lemma tag_space_match (caps : captures) :
  k rest ((4, tag_slash selfclosing) :: (3, a) :: (2, name) :: caps) = Some res ->
  m tag_space (name ++ a ++ tag_close selfclosing ++ rest) caps k = Some res.
Proof.
  intros Hk. rewrite m_seq.
  apply (star_run is_space _ "" _); auto using name_not_space.
  now apply tag_name_match.
Qed.

End Tag.

(** *** Whole tags *)

Lemma chr_cons (c : ascii) (s : string) (caps : captures) (k : cont) :
  m (Chr c) (String c s) caps k = k s caps.
Proof. cbn [m]. now rewrite one_cons, Ascii.eqb_refl. Qed.

Lemma one_stops (p : ascii -> bool) (s : string) (caps : captures) (k : cont) :
  stops p s -> one p s caps k = None.
Proof. destruct s as [|c s]; simpl; [reflexivity | now intros ->]. Qed.

Lemma opt_skip (r : regex) (s : string) (caps : captures) (k : cont) :
  m r s caps (progress s k) = None -> m (Opt r) s caps k = k s caps.
Proof. cbn [m]. now intros ->. Qed.

Lemma opt_take (r : regex) (s : string) (caps : captures) (k : cont) res :
  m r s caps (progress s k) = Some res -> m (Opt r) s caps k = Some res.
Proof. cbn [m]. now intros ->. Qed.

Lemma stops_slash (name rest : string) :
  starts_with "/" name = false -> name <> "" ->
  stops (Ascii.eqb "/") (name ++ rest).
Proof.
  destruct name as [|c name]; [congruence|]. cbn [starts_with append stops].
  now rewrite andb_true_r.
Qed.

Lemma tag_open_here (name a rest : string) (selfclosing : bool) :
  name <> "" -> all name_char name = true -> starts_with "/" name = false ->
  (a = "" \/ inner_text a = true) ->
  (a = "" -> selfclosing = false) ->
  match_here tagRegExp ("<" ++ name ++ a ++ tag_close selfclosing ++ rest)
  = Some (rest, [(4, tag_slash selfclosing); (3, a); (2, name); (1, "")]).
Proof.
  intros Hne Hname Hslash Ha Hbare.
  unfold match_here, tagRegExp. rewrite m_seq.
  change ("<" ++ ?x) with (String "<" x). rewrite chr_cons.
  rewrite m_seq, m_group, opt_skip.
  - rewrite Nat.sub_diag.
    change (take 0 (name ++ a ++ tag_close selfclosing ++ rest)) with "".
    now apply tag_space_match.
  - cbn [m]. apply one_stops. now apply stops_slash.
Qed.

Lemma tag_closing_here (name rest : string) :
  name <> "" -> all name_char name = true ->
  match_here tagRegExp ("</" ++ name ++ ">" ++ rest)
  = Some (rest, [(4, ""); (3, ""); (2, name); (1, "/")]).
Proof.
  intros Hne Hname.
  unfold match_here, tagRegExp. rewrite m_seq.
  change ("</" ++ ?x) with (String "<" ("/" ++ x)). rewrite chr_cons.
  rewrite m_seq, m_group. apply opt_take.
  change ("/" ++ ?x) with (String "/" x). rewrite chr_cons, progress_tail.
  change (String "/" ?x) with ("/" ++ x). rewrite take_diff.
  apply (tag_space_match name "" rest false); auto.
Qed.

(** A match of [tagRegExp] starts with [<] and is not empty. *)
Lemma tag_needs_lt (s : string) : stops (Ascii.eqb "<") s -> match_here tagRegExp s = None.
Proof.
  intros H. unfold match_here, tagRegExp. rewrite m_seq. cbn [m].
  now apply one_stops.
Qed.

Lemma tag_match_shorter (s s' : string) (caps : captures) :
  match_here tagRegExp s = Some (s', caps) -> String.length s' < String.length s.
Proof.
  unfold match_here, tagRegExp. rewrite m_seq. cbn [m].
  destruct s as [|c s]; [discriminate|]. rewrite one_cons.
  destruct (Ascii.eqb "<" c); [|discriminate].
  intros H. apply (m_sound (Group 1 (Opt (Chr "/")) @@ Star (Class is_space)
                            @@ Group 2 (Plus (Class name_char))
                            @@ Group 3 (StarLazy (Class non_gt))
                            @@ Star (Class is_space)
                            @@ Group 4 (Opt (Chr "/")) @@ Chr ">")) in H.
  destruct H as (s1 & caps1 & Hs1 & [= -> ->]).
  apply suffix_of_length in Hs1. simpl. lia.
Qed.

End TagFacts.

(** ** The tokenizer *)

Module TokenFacts.
Import Str StrFacts SliceFacts RegexFacts TagFacts.

Lemma search_here (re : regex) (i : nat) (s s' : string) (caps : captures) :
  match_here re s = Some (s', caps) ->
  search re i s = Some (mkFound i (take (String.length s - String.length s') s) caps s').
Proof. intros H. destruct s; simpl; now rewrite H. Qed.

Lemma search_next (re : regex) (i : nat) (c : ascii) (s : string) :
  match_here re (String c s) = None ->
  search re i (String c s) = search re (S i) s.
Proof. intros H. cbn [search]. now rewrite H. Qed.

(** What [search] finds is a match after some characters. *)
Lemma search_found (re : regex) (s : string) :
  forall i f,
    search re i s = Some f ->
    exists skipped s1,
      s = skipped ++ s1
      /\ index f = i + String.length skipped
      /\ match_here re s1 = Some (after f, groups f)
      /\ whole f = take (String.length s1 - String.length (after f)) s1.
Proof.
  induction s as [|c s IH]; intros i f.
  - cbn [search]. destruct (match_here re "") as [[s' caps]|] eqn:E; [|discriminate].
    intros [= <-]. exists "", "". simpl. rewrite Nat.add_0_r. now repeat split.
  - cbn [search]. destruct (match_here re (String c s)) as [[s' caps]|] eqn:E.
    + intros [= <-]. exists "", (String c s). cbn [append String.length index whole after groups].
      rewrite Nat.add_0_r. now repeat split.
    + intros H. destruct (IH _ _ H) as (skipped & s1 & -> & Hi & Hm & Hw).
      exists (String c skipped), s1. cbn [append String.length]. repeat split; auto. lia.
Qed.

Lemma non_lt_stops (c : ascii) (s : string) :
  non_lt c = true -> stops (Ascii.eqb "<") (String c s).
Proof. unfold non_lt, is_char. simpl. now rewrite negb_true_iff. Qed.

(** Text without [<] is passed over. *)
Lemma search_text (text s : string) :
  forall i,
    all non_lt text = true ->
    search tagRegExp i (text ++ s) = search tagRegExp (i + String.length text) s.
Proof.
  induction text as [|c text IH]; intros i Hall.
  - simpl. now rewrite Nat.add_0_r.
  - cbn [all] in Hall. apply andb_true_iff in Hall. destruct Hall as [Hc Hall].
    cbn [append]. rewrite search_next by (apply tag_needs_lt; now apply non_lt_stops).
    rewrite IH by exact Hall. f_equal. simpl. lia.
Qed.

(** After a match of [tagRegExp], the source is cut to what follows the
    match, which is shorter. *)
Lemma exec_tag_after (source : string) (f : found) :
  exec tagRegExp source = Some f ->
  drop (index f + String.length (whole f)) source = after f
  /\ String.length (after f) < String.length source.
Proof.
  intros H. apply search_found in H.
  destruct H as (skipped & s1 & -> & Hi & Hm & Hw).
  pose proof (tag_match_shorter _ _ _ Hm) as Hlt.
  apply match_here_suffix in Hm. destruct Hm as [w ->].
  rewrite take_diff in Hw. rewrite Hw, Hi. simpl.
  rewrite <- drop_drop, drop_append, drop_append.
  split; [reflexivity|]. rewrite !length_append in *. lia.
Qed.

Lemma exec_tag_empty : exec tagRegExp "" = None.
Proof. reflexivity. Qed.

(** [tokens_loop] never uses up its fuel. *)
Lemma tokens_loop_fuel (fuel1 : nat) :
  forall fuel2 source,
    String.length source <= fuel1 -> String.length source <= fuel2 ->
    tokens_loop fuel1 source = tokens_loop fuel2 source.
Proof.
  induction fuel1 as [|fuel1 IH]; intros fuel2 source H1 H2.
  - destruct source; [|simpl in H1; lia]. now destruct fuel2.
  - destruct fuel2 as [|fuel2].
    { destruct source; [reflexivity | simpl in H2; lia]. }
    cbn [tokens_loop]. destruct (exec tagRegExp source) as [f|] eqn:E; [|reflexivity].
    destruct (exec_tag_after _ _ E) as [Hd Hlt].
    do 2 f_equal. apply IH; rewrite Hd; lia.
Qed.

(** The tokens of a text without [<] followed by a tag. *)
Lemma tokenize_tag (text s rest : string) (caps : captures) :
  all non_lt text = true ->
  match_here tagRegExp s = Some (rest, caps) ->
  tokenize (text ++ s)
  = ((if is_empty text then [] else [inl (unescape text)])
       ++ inr (token_of caps) :: tokenize rest)%list.
Proof.
  intros Htext Hm.
  pose proof (tag_match_shorter _ _ _ Hm) as Hlt.
  pose proof (match_here_suffix _ _ _ _ Hm) as [w Hw].
  assert (E : exec tagRegExp (text ++ s)
              = Some (mkFound (String.length text)
                        (take (String.length s - String.length rest) s) caps rest)).
  { unfold exec. rewrite search_text by exact Htext. now apply search_here. }
  unfold tokenize.
  destruct (String.length (text ++ s)) as [|fuel] eqn:El.
  { rewrite length_append in El. lia. }
  cbn [tokens_loop]. rewrite E. cbn [index whole].
  destruct (exec_tag_after _ _ E) as [Hd _]. cbn [index whole after] in Hd.
  rewrite Hd. f_equal.
  - destruct text as [|c text]; [reflexivity|].
    cbn [String.length Nat.eqb is_empty]. unfold slice.
    rewrite drop_0, Nat.sub_0_r.
    change (S (String.length text)) with (String.length (String c text)).
    now rewrite take_append.
  - f_equal. apply tokens_loop_fuel; [|lia].
    rewrite length_append in El. lia.
Qed.

Lemma tokenize_tag_here (s rest : string) (caps : captures) :
  match_here tagRegExp s = Some (rest, caps) ->
  tokenize s = inr (token_of caps) :: tokenize rest.
Proof. intros Hm. exact (tokenize_tag "" s rest caps eq_refl Hm). Qed.

Lemma tokenize_empty : tokenize "" = [].
Proof. reflexivity. Qed.

(** A text before a tag is one more token. *)
Lemma tokenize_text (text s : string) :
  text <> "" -> all non_lt text = true -> tag_start s ->
  tokenize (text ++ s) = inl (unescape text) :: tokenize s.
Proof.
  intros Hne Htext (rest & caps & Hm).
  rewrite (tokenize_tag text s rest caps Htext Hm).
  rewrite (tokenize_tag_here s rest caps Hm).
  destruct text; [congruence | reflexivity].
Qed.

End TokenFacts.

(** ** Attributes *)

Module AttrFacts.
Import Str StrFacts SliceFacts RegexFacts TagFacts TokenFacts.

(** *** The characters of escaped text *)

Lemma all_cmap (p : ascii -> bool) (f : ascii -> string) (s : string) :
  (forall c, all p (f c) = true) -> all p (cmap f s) = true.
Proof.
  intros H. induction s as [|c s IH]; [reflexivity|].
  cbn [cmap]. now rewrite all_append, H, IH.
Qed.

Lemma esc_char_chars (p : ascii -> bool) (inline : bool) (c : ascii) :
  all p "&amp;" = true -> all p "&lt;" = true -> all p "&gt;" = true ->
  all p "&quot;" = true ->
  (Ascii.eqb c "&" = false -> Ascii.eqb c "<" = false -> Ascii.eqb c ">" = false ->
   inline && Ascii.eqb c dquote = false -> p c = true) ->
  all p (esc_char inline c) = true.
Proof.
  intros H1 H2 H3 H4 H. unfold esc_char.
  destruct (Ascii.eqb c "&") eqn:E1; [exact H1|].
  destruct (Ascii.eqb c "<") eqn:E2; [exact H2|].
  destruct (Ascii.eqb c ">") eqn:E3; [exact H3|].
  destruct (inline && Ascii.eqb c dquote) eqn:E4; [exact H4|].
  cbn [all]. now rewrite H.
Qed.

Lemma escape_non_lt (s : string) (inline : bool) : all non_lt (escape s inline) = true.
Proof.
  rewrite EscapeFacts.escape_cmap. apply all_cmap. intros c.
  apply esc_char_chars; try reflexivity.
  intros _ H _ _. unfold non_lt, is_char. now rewrite Ascii.eqb_sym, H.
Qed.

Lemma escape_non_gt (s : string) (inline : bool) : all non_gt (escape s inline) = true.
Proof.
  rewrite EscapeFacts.escape_cmap. apply all_cmap. intros c.
  apply esc_char_chars; try reflexivity.
  intros _ _ H _. unfold non_gt, is_char. now rewrite Ascii.eqb_sym, H.
Qed.

Lemma escape_non_quote (s : string) : all non_quote (escape s true) = true.
Proof.
  rewrite EscapeFacts.escape_cmap. apply all_cmap. intros c.
  apply esc_char_chars; try reflexivity.
  intros _ _ _ H. rewrite andb_true_l in H.
  unfold non_quote, is_char. now rewrite Ascii.eqb_sym, H.
Qed.

Lemma escape_not_empty (s : string) (inline : bool) : s <> "" -> escape s inline <> "".
Proof.
  rewrite EscapeFacts.escape_cmap. destruct s as [|c s]; [congruence|].
  intros _. cbn [cmap]. unfold esc_char.
  destruct (Ascii.eqb c "&"); [discriminate|].
  destruct (Ascii.eqb c "<"); [discriminate|].
  destruct (Ascii.eqb c ">"); [discriminate|].
  destruct (inline && Ascii.eqb c dquote); discriminate.
Qed.

(** *** Matches of [attrRegExp] *)

Lemma progress_shorter (s s' : string) (k : cont) (caps : captures) :
  String.length s' < String.length s -> progress s k s' caps = k s' caps.
Proof.
  intros H. unfold progress.
  now replace (Nat.ltb _ _) with true by (symmetry; now apply Nat.ltb_lt).
Qed.

Lemma attr_flag_here (w R : string) :
  w <> "" -> all attr_key_char w = true -> attr_follow R ->
  match_here attrRegExp (w ++ R) = Some (R, [(1, w)]).
Proof.
  intros Hne Hw [HR1 HR2]. unfold match_here, attrRegExp.
  rewrite m_seq, m_group. apply plus_run; auto.
  rewrite take_diff, opt_skip; [reflexivity|].
  rewrite m_seq. cbn [m]. now apply one_stops.
Qed.

Lemma attr_value_here (w E R : string) :
  w <> "" -> all attr_key_char w = true -> all non_quote E = true ->
  match_here attrRegExp (w ++ String "=" (String dquote (E ++ String dquote R)))
  = Some (R, [(2, E); (1, w)]).
Proof.
  intros Hne Hw HE. unfold match_here, attrRegExp.
  rewrite m_seq, m_group. apply plus_run; auto; [reflexivity|].
  rewrite take_diff. apply opt_take.
  rewrite m_seq, chr_cons, m_seq, chr_cons, m_seq, m_group.
  apply star_run; auto; [reflexivity|].
  rewrite chr_cons, take_diff.
  rewrite progress_shorter; [reflexivity|].
  simpl. rewrite length_append. simpl. lia.
Qed.

Lemma attr_needs_key (c : ascii) (s : string) :
  attr_key_char c = false -> match_here attrRegExp (String c s) = None.
Proof.
  intros H. unfold match_here, attrRegExp. rewrite m_seq, m_group.
  cbn [m]. now rewrite one_cons, H.
Qed.

Lemma attr_none_empty : match_here attrRegExp "" = None.
Proof. reflexivity. Qed.

(** *** The loop over the attributes *)

(** One round of the loop, at an attribute [W] that follows a space. *)
Lemma attrs_loop_step (fuel : nat) (done W R : string) (caps : captures)
    (acc : Dict.t string) :
  match_here attrRegExp (W ++ R) = Some (R, caps) ->
  attrs_loop (S fuel) (String.length done) (done ++ String " " (W ++ R)) acc
  = attrs_loop fuel (String.length (done ++ String " " W))
      ((done ++ String " " W) ++ R)
      (Dict.set (camelize (group_or "" 1 (mkFound 0 "" caps "")))
         (unescape (group_or "" 2 (mkFound 0 "" caps ""))) acc).
Proof.
  intros Hm. cbn [attrs_loop]. unfold exec_g.
  replace (Nat.ltb _ _) with false
    by (symmetry; apply Nat.ltb_ge; rewrite length_append; lia).
  rewrite drop_append.
  rewrite search_next by (now apply attr_needs_key).
  rewrite (search_here _ _ _ _ _ Hm). rewrite take_diff.
  cbn [index whole].
  replace (S (String.length done) + String.length W)
    with (String.length (done ++ String " " W))
    by (rewrite length_append; simpl; lia).
  replace (done ++ String " " (W ++ R)) with ((done ++ String " " W) ++ R)
    by (now rewrite append_assoc).
  reflexivity.
Qed.

Lemma attrs_loop_end (fuel : nat) (done : string) (acc : Dict.t string) :
  attrs_loop fuel (String.length done) (done ++ "") acc = acc.
Proof.
  destruct fuel; cbn [attrs_loop]; unfold exec_g;
    replace (Nat.ltb _ _) with false
      by (symmetry; apply Nat.ltb_ge; rewrite length_append; lia);
    now rewrite drop_append.
Qed.

Lemma attr_follow_join (l : Dict.t string) : attr_follow (join (map attr_toString l)).
Proof.
  destruct l as [|[k v] l]; [now split|].
  cbn [map join]. unfold attr_toString. cbn [fst snd].
  destruct (is_empty v); now split.
Qed.

Lemma good_key_wire (k : string) :
  good_key k = true ->
  hyphenate k <> "" /\ all attr_key_char (hyphenate k) = true
  /\ all non_gt (hyphenate k) = true
  /\ ends_with (is_char "/") (hyphenate k) = false
  /\ camelize (hyphenate k) = k.
Proof.
  unfold good_key. rewrite !andb_true_iff, !negb_true_iff.
  intros [[[H1 H2] H3] H4]. apply String.eqb_eq in H4.
  apply is_empty_false in H1. repeat split; auto.
  - clear -H2. induction (hyphenate k) as [|c w IH]; [reflexivity|].
    cbn [all] in *. unfold key_char in H2.
    rewrite !andb_true_iff in H2. rewrite andb_true_iff. tauto.
  - clear -H2. induction (hyphenate k) as [|c w IH]; [reflexivity|].
    cbn [all] in *. unfold key_char in H2.
    rewrite !andb_true_iff in H2. rewrite andb_true_iff. tauto.
Qed.

Lemma attrs_loop_all (l : Dict.t string) :
  forall done acc fuel,
    forallb (fun kv => good_key (fst kv)) l = true ->
    List.length l <= fuel ->
    attrs_loop fuel (String.length done) (done ++ join (map attr_toString l)) acc
    = fold_left (fun acc kv => Dict.set (fst kv) (snd kv) acc) l acc.
Proof.
  induction l as [|[k v] l IH]; intros done acc fuel Hkeys Hfuel.
  - apply attrs_loop_end.
  - cbn [forallb fst] in Hkeys. apply andb_true_iff in Hkeys.
    destruct Hkeys as [Hk Hkeys].
    destruct (good_key_wire k Hk) as (Hne & Hw & _ & _ & Hcamel).
    destruct fuel as [|fuel]; [simpl in Hfuel; lia|].
    pose proof (attr_follow_join l) as HR.
    cbn [map join fold_left fst snd]. unfold attr_toString at 1. cbn [fst snd].
    destruct (is_empty v) eqn:Ev.
    + destruct v; [|discriminate].
      rewrite append_assoc. cbn [append].
      rewrite (attrs_loop_step fuel done (hyphenate k) _ [(1, hyphenate k)]);
        [|now apply attr_flag_here].
      rewrite IH; auto; [|simpl in Hfuel; lia].
      unfold group_or. cbn [groups cap Nat.eqb]. now rewrite Hcamel.
    + rewrite !append_assoc. cbn [append].
      replace (hyphenate k
                 ++ String "=" (String dquote (escape v true ++ String dquote
                                                 (join (map attr_toString l)))))
        with ((hyphenate k ++ String "=" (String dquote (escape v true ++ dquotes)))
                ++ join (map attr_toString l))
        by (rewrite !append_assoc; cbn [append]; now rewrite append_assoc).
      rewrite (attrs_loop_step fuel done _ _ [(2, escape v true); (1, hyphenate k)]).
      * rewrite IH; auto; [|simpl in Hfuel; lia].
        unfold group_or. cbn [groups cap Nat.eqb].
        now rewrite Hcamel, EscapeFacts.unescape_escape.
      * rewrite !append_assoc. cbn [append]. rewrite append_assoc. cbn [append].
        apply attr_value_here; auto using escape_non_quote.
Qed.

(** *** Dictionaries with distinct keys *)

Lemma set_new {V} (k : string) (v : V) (d : Dict.t V) :
  Dict.get k d = None -> Dict.set k v d = (d ++ [(k, v)])%list.
Proof.
  induction d as [|[k' v'] d IH]; [reflexivity|].
  cbn [Dict.get Dict.set]. destruct (String.eqb k k'); [discriminate|].
  intros H. cbn [app]. now rewrite IH.
Qed.

Lemma get_app_none {V} (k : string) (d1 d2 : Dict.t V) :
  Dict.get k d1 = None -> Dict.get k (d1 ++ d2)%list = Dict.get k d2.
Proof.
  induction d1 as [|[k' v'] d1 IH]; [reflexivity|].
  cbn [Dict.get app]. destruct (String.eqb k k'); [discriminate | exact IH].
Qed.

(** Assigning the entries of a dictionary with distinct keys, in their
    order, to an object that has none of the keys, appends them. *)
Lemma assign_distinct (l : Dict.t string) :
  forall acc,
    distinct_keys l = true ->
    (forall k v, In (k, v) l -> Dict.get k acc = None) ->
    fold_left (fun acc kv => Dict.set (fst kv) (snd kv) acc) l acc = (acc ++ l)%list.
Proof.
  induction l as [|[k v] l IH]; intros acc Hd Hacc.
  - now rewrite app_nil_r.
  - cbn [distinct_keys] in Hd. destruct (Dict.get k l) eqn:Ek; [discriminate|].
    cbn [fold_left fst snd].
    rewrite set_new by (apply (Hacc k v); now left).
    rewrite IH; [now rewrite <- app_assoc | exact Hd |].
    intros k2 v2 Hin. rewrite get_app_none by (apply (Hacc k2 v2); now right).
    cbn [Dict.get]. destruct (String.eqb k2 k) eqn:E; [|reflexivity].
    apply String.eqb_eq in E. subst k2. exfalso. clear -Ek Hin.
    induction l as [|[k' v'] l IH]; [contradiction|].
    cbn [Dict.get] in Ek. destruct (String.eqb k k') eqn:E; [discriminate|].
    destruct Hin as [[= -> ->]|Hin]; [now rewrite String.eqb_refl in E | auto].
Qed.

Lemma length_join_attrs (l : Dict.t string) :
  List.length l <= String.length (join (map attr_toString l)).
Proof.
  induction l as [|[k v] l IH]; [simpl; lia|].
  cbn [map join List.length]. rewrite length_append.
  assert (H1 : 1 <= String.length (attr_toString (k, v))).
  { unfold attr_toString.
    destruct (is_empty (snd (k, v))); cbn [append String.length]; lia. }
  lia.
Qed.

(** The attributes of a tag are read back from their serialization. *)
Lemma parse_attrs_join (attrs : Dict.t string) :
  good_attrs attrs = true ->
  parse_attrs (join (map attr_toString attrs)) = attrs.
Proof.
  unfold good_attrs. rewrite andb_true_iff. intros [Hkeys Hd].
  unfold parse_attrs.
  pose proof (attrs_loop_all attrs "" [] _ Hkeys (length_join_attrs attrs)) as H.
  cbn [append String.length] in H. rewrite H.
  now rewrite assign_distinct.
Qed.

(** [Element] keeps the attrs of a token. *)
Lemma build_attrs_fold (l : Dict.t string) :
  forall acc,
    build_attrs (as_any l) acc
    = fold_left (fun acc kv => Dict.set (fst kv) (snd kv) acc) l acc.
Proof.
  induction l as [|[k v] l IH]; intros acc; [reflexivity|].
  cbn [as_any map build_attrs fold_left fst snd]. apply IH.
Qed.

Lemma build_attrs_distinct (attrs : Dict.t string) :
  distinct_keys attrs = true -> build_attrs (as_any attrs) [] = attrs.
Proof.
  intros Hd. rewrite build_attrs_fold. now rewrite assign_distinct.
Qed.

(** *** The text of the attributes in a tag *)

Lemma ends_with_append (p : ascii -> bool) (a b : string) :
  b <> "" -> ends_with p (a ++ b) = ends_with p b.
Proof.
  intros Hb. induction a as [|c a IH]; [reflexivity|].
  cbn [append]. rewrite ends_with_cons; [exact IH|].
  destruct a; [exact Hb | discriminate].
Qed.

Lemma ends_with_slash_other (w : string) :
  w <> "" -> all attr_key_char w = true -> ends_with (is_char "/") w = false ->
  ends_with attr_end_char w = true.
Proof.
  induction w as [|c w IH]; [congruence|]. intros _ Hw Hs.
  cbn [all] in Hw. apply andb_true_iff in Hw. destruct Hw as [Hc Hw].
  destruct w as [|d w].
  - rewrite ends_with_single in *. unfold attr_end_char, attr_key_char in *.
    apply negb_true_iff, orb_false_iff in Hc. destruct Hc as [Hc _].
    now rewrite Hc, Hs.
  - rewrite ends_with_cons in * by discriminate. apply IH; auto. discriminate.
Qed.

Lemma attr_toString_text (k v : string) :
  good_key k = true ->
  all non_gt (attr_toString (k, v)) = true
  /\ ends_with attr_end_char (attr_toString (k, v)) = true
  /\ exists t, attr_toString (k, v) = String " " t.
Proof.
  intros Hk. destruct (good_key_wire k Hk) as (Hne & Hw & Hgt & Hs & _).
  unfold attr_toString. cbn [fst snd]. destruct (is_empty v).
  - repeat split.
    + cbn [append all]. now rewrite Hgt.
    + rewrite ends_with_append by exact Hne. now apply ends_with_slash_other.
    + now eexists.
  - repeat split.
    + rewrite !all_append, Hgt, escape_non_gt. reflexivity.
    + rewrite <- !append_assoc. now rewrite ends_with_append by discriminate.
    + now eexists.
Qed.

Lemma inner_text_join (attrs : Dict.t string) :
  forallb (fun kv => good_key (fst kv)) attrs = true ->
  attrs <> [] ->
  inner_text (join (map attr_toString attrs)) = true.
Proof.
  intros Hkeys Hne.
  assert (H : all non_gt (join (map attr_toString attrs)) = true
              /\ ends_with attr_end_char (join (map attr_toString attrs)) = true
              /\ exists t, join (map attr_toString attrs) = String " " t).
  { induction attrs as [|[k v] attrs IH]; [congruence|].
    cbn [forallb fst] in Hkeys. apply andb_true_iff in Hkeys.
    destruct Hkeys as [Hk Hkeys].
    destruct (attr_toString_text k v Hk) as (H1 & H2 & t & Ht).
    cbn [map join]. destruct attrs as [|kv attrs].
    - cbn [map join]. rewrite append_nil_r. eauto.
    - destruct (IH Hkeys) as (G1 & G2 & t' & Ht'); [discriminate|].
      repeat split.
      + now rewrite all_append, H1, G1.
      + rewrite ends_with_append; [exact G2|]. now rewrite Ht'.
      + rewrite Ht. now eexists. }
  destruct H as (H1 & H2 & t & Ht). unfold inner_text.
  rewrite H1, H2, Ht. reflexivity.
Qed.

End AttrFacts.

(** ** Serialization, then [parse] *)

Module RoundTrip.
Import Str StrFacts SliceFacts RegexFacts TagFacts TokenFacts AttrFacts.

(** *** The two kinds of canonical nodes *)

Lemma canonical_text (e : Element) :
  canonical e = true -> is_text_node e = true ->
  exists content,
    e = mkElement (Some "text") [("content", content)] [] /\ content <> "".
Proof.
  destruct e as [ty ats kids]. unfold is_text_node. cbn [type canonical].
  intros Hc Ht. rewrite Ht in Hc.
  destruct ty as [name|]; [|discriminate]. simpl in Ht. apply String.eqb_eq in Ht.
  destruct ats as [|[k content] [|? ?]]; try discriminate.
  destruct kids; [|now rewrite andb_false_r in Hc].
  rewrite andb_true_r in Hc. apply andb_true_iff in Hc. destruct Hc as [Hk Hs].
  apply String.eqb_eq in Hk. apply negb_true_iff, is_empty_false in Hs.
  exists content. now subst.
Qed.

Lemma canonical_tag (e : Element) :
  canonical e = true -> is_text_node e = false ->
  exists name attrs children,
    e = mkElement (Some name) attrs children
    /\ good_name name = true
    /\ good_attrs attrs = true
    /\ (attrs = [] -> children <> [])
    /\ forallb canonical children = true
    /\ no_adjacent_text children = true.
Proof.
  destruct e as [ty ats kids]. unfold is_text_node. cbn [type canonical].
  intros Hc Ht. rewrite Ht in Hc.
  destruct ty as [name|]; [|discriminate].
  rewrite !andb_true_iff in Hc. destruct Hc as [[[[H1 H2] H3] H4] H5].
  exists name, ats, kids. repeat split; auto.
  intros -> ->. discriminate.
Qed.

Lemma good_name_parts (name : string) :
  good_name name = true ->
  name <> "" /\ String.eqb name "text" = false
  /\ all name_char name = true /\ starts_with "/" name = false.
Proof.
  unfold good_name. rewrite !andb_true_iff, !negb_true_iff.
  intros [[[H1 H2] H3] H4]. apply is_empty_false in H1. now repeat split.
Qed.

(** The text of a canonical tag. *)
Lemma text_of_tag (name : string) (attrs : Dict.t string) (children : list Element) :
  good_name name = true ->
  text_of (mkElement (Some name) attrs children)
  = "<" ++ name ++ join (map attr_toString attrs)
      ++ match children with
         | [] => "/>"
         | _ :: _ => ">" ++ join (map text_of children) ++ "</" ++ name ++ ">"
         end.
Proof.
  intros Hn. destruct (good_name_parts name Hn) as (H1 & H2 & _ & _).
  cbn [text_of no_type is_text type_name]. rewrite H2.
  apply is_empty_false in H1. rewrite H1.
  destruct children; reflexivity.
Qed.

(** *** [toString] returns on canonical nodes *)

Lemma join_children_text (children : list Element) :
  Forall (fun c => toString c = Return (text_of c)) children ->
  join_children toString children = Return (join (map text_of children)).
Proof.
  induction 1 as [|c cs Hc _ IH]; [reflexivity|].
  change (join_children toString (c :: cs))
    with (let* a := toString c in
          let* b := join_children toString cs in Return (a ++ b)).
  now rewrite Hc, IH.
Qed.

Lemma toString_canonical (e : Element) :
  canonical e = true -> toString e = Return (text_of e).
Proof.
  induction e as [type attrs children IH] using Element_induction. intros Hc.
  destruct (is_text type) eqn:Ht.
  - destruct (canonical_text _ Hc Ht) as (content & [= -> -> ->] & _). reflexivity.
  - destruct (canonical_tag _ Hc Ht) as (name & a & cs & [= -> -> ->] & Hn & _ & _ & Hcs & _).
    assert (Hkids : join_children toString cs = Return (join (map text_of cs))).
    { apply join_children_text. rewrite forallb_forall in Hcs.
      rewrite Forall_forall in *. intros c Hin. apply IH; auto. }
    destruct (good_name_parts name Hn) as (H1 & H2 & _ & _).
    apply is_empty_false in H1.
    cbn [toString text_of no_type is_text type_name]. rewrite H1, H2.
    destruct cs as [|c cs]; [reflexivity|].
    now rewrite Hkids.
Qed.

Lemma serialize_canonical (forest : list Element) :
  forallb canonical forest = true ->
  join_children toString forest = Return (join (map text_of forest)).
Proof.
  intros H. apply join_children_text. rewrite forallb_forall in H.
  apply Forall_forall. intros c Hin. now apply toString_canonical, H.
Qed.

(** *** The tokens of the text of a canonical forest *)

Lemma attrs_text_inner (attrs : Dict.t string) :
  good_attrs attrs = true ->
  join (map attr_toString attrs) = "" \/ inner_text (join (map attr_toString attrs)) = true.
Proof.
  unfold good_attrs. rewrite andb_true_iff. intros [Hk _].
  destruct attrs as [|kv attrs]; [now left|]. right.
  now apply inner_text_join.
Qed.

Lemma attrs_text_empty (attrs : Dict.t string) :
  join (map attr_toString attrs) = "" -> attrs = [].
Proof.
  destruct attrs as [|[k v] attrs]; [reflexivity|].
  cbn [map join]. unfold attr_toString. destruct (is_empty (snd (k, v))); discriminate.
Qed.

(** The opening tag of a canonical node is matched as it was written. *)
Lemma open_tag_here (name : string) (attrs : Dict.t string) (selfclosing : bool)
    (rest : string) :
  good_name name = true -> good_attrs attrs = true ->
  (attrs = [] -> selfclosing = false) ->
  match_here tagRegExp
    ("<" ++ name ++ join (map attr_toString attrs) ++ tag_close selfclosing ++ rest)
  = Some (rest, [(4, tag_slash selfclosing); (3, join (map attr_toString attrs));
                 (2, name); (1, "")]).
Proof.
  intros Hn Ha Hbare. destruct (good_name_parts name Hn) as (H1 & _ & H3 & H4).
  apply tag_open_here; auto using attrs_text_inner.
  intros E. apply Hbare. now apply attrs_text_empty.
Qed.

Lemma token_of_open (name : string) (attrs : Dict.t string) (slash : string) :
  good_attrs attrs = true ->
  token_of [(4, slash); (3, join (map attr_toString attrs)); (2, name); (1, "")]
  = mkToken name "" slash attrs.
Proof.
  intros Ha. unfold token_of, group_or. cbn [groups cap Nat.eqb].
  now rewrite parse_attrs_join.
Qed.

Lemma tag_start_node (e : Element) (rest : string) :
  canonical e = true -> is_text_node e = false -> tag_start (text_of e ++ rest).
Proof.
  intros Hc Ht.
  destruct (canonical_tag _ Hc Ht) as (name & a & cs & -> & Hn & Ha & Hbare & _ & _).
  rewrite text_of_tag by exact Hn. destruct cs as [|c cs].
  - eexists _, _. rewrite !append_assoc.
    apply (open_tag_here name a true); auto. intros ->. now destruct Hbare.
  - eexists _, _. rewrite !append_assoc.
    apply (open_tag_here name a false); auto.
Qed.

Lemma forest_tokens (forest : list Element) :
  Forall (fun e => canonical e = true /\ node_tokens e) forest ->
  no_adjacent_text forest = true ->
  forall rest,
    (ends_with_text forest = true -> tag_start rest) ->
    tokenize (join (map text_of forest) ++ rest)
    = (flat_map tokens_of forest ++ tokenize rest)%list.
Proof.
  induction 1 as [|e forest [Hc He] Hforest IH]; intros Hadj rest Hrest; [reflexivity|].
  cbn [map join flat_map]. rewrite append_assoc, <- app_assoc.
  cbn [no_adjacent_text ends_with_text] in Hadj, Hrest.
  rewrite He.
  - f_equal. destruct forest as [|e2 forest]; [reflexivity|].
    apply andb_true_iff in Hadj. apply IH; [tauto | exact Hrest].
  - intros Ht. destruct forest as [|e2 forest]; [now apply Hrest|].
    apply andb_true_iff in Hadj. destruct Hadj as [Hadj _].
    rewrite Ht in Hadj. cbn [andb] in Hadj. apply negb_true_iff in Hadj.
    cbn [map join]. rewrite append_assoc.
    inversion Hforest as [|? ? [Hc2 _] _]; subst.
    now apply tag_start_node.
Qed.

Lemma node_tokens_canonical (e : Element) : canonical e = true -> node_tokens e.
Proof.
  induction e as [type attrs children IH] using Element_induction. intros Hc rest Hrest.
  destruct (is_text type) eqn:Ht.
  - destruct (canonical_text _ Hc Ht) as (content & [= -> -> ->] & Hne).
    change (text_of (mkElement (Some "text") [("content", content)] []))
      with (escape content false).
    change (tokens_of (mkElement (Some "text") [("content", content)] []))
      with [inl content : string + Token].
    rewrite tokenize_text; auto using escape_non_lt, escape_not_empty.
    now rewrite EscapeFacts.unescape_escape.
  - destruct (canonical_tag _ Hc Ht)
      as (name & a & cs & [= -> -> ->] & Hn & Ha & Hbare & Hcs & Hadj).
    destruct (good_name_parts name Hn) as (H1 & H2 & H3 & _).
    rewrite text_of_tag by exact Hn.
    cbn [tokens_of is_text type_name]. rewrite H2.
    destruct cs as [|c cs].
    + rewrite !append_assoc.
      pose proof (open_tag_here name a true rest Hn Ha
                    (fun E => match Hbare E eq_refl with end)) as Hm.
      cbn [tag_close tag_slash] in Hm.
      rewrite (tokenize_tag_here _ _ _ Hm). now rewrite token_of_open.
    + rewrite !append_assoc.
      pose proof (open_tag_here name a false
                    (join (map text_of (c :: cs)) ++ "</" ++ name ++ ">" ++ rest)
                    Hn Ha (fun _ => eq_refl)) as Hm.
      cbn [tag_close tag_slash] in Hm.
      rewrite (tokenize_tag_here _ _ _ Hm). rewrite token_of_open by exact Ha.
      cbn [app]. f_equal.
      rewrite forest_tokens.
      * rewrite <- app_assoc. f_equal.
        rewrite (tokenize_tag_here _ _ _ (tag_closing_here name rest H1 H3)).
        reflexivity.
      * rewrite forallb_forall in Hcs. rewrite Forall_forall in *.
        intros x Hx. split; auto.
      * exact Hadj.
      * intros _. eexists _, _. now apply tag_closing_here.
Qed.

(** *** The tree built from the tokens of a canonical forest *)

Lemma push_children (l : list Element) :
  forall ty ats kids,
    fold_left (fun node child => push_child child node) l
      (mkElement ty ats kids)
    = mkElement ty ats (kids ++ l).
Proof.
  induction l as [|e l IH]; intros ty ats kids; cbn [fold_left].
  - now rewrite app_nil_r.
  - unfold push_child at 2. cbn [type attrs children].
    rewrite IH. now rewrite <- app_assoc.
Qed.

Lemma build_forest (forest : list Element) :
  Forall builds forest ->
  forall more top below,
    build (flat_map tokens_of forest ++ more) (top :: below)
    = build more
        (fold_left (fun node child => push_child child node) forest top :: below).
Proof.
  induction 1 as [|e forest He _ IH]; intros more top below; [reflexivity|].
  cbn [flat_map fold_left]. rewrite <- app_assoc, He. apply IH.
Qed.

Lemma builds_canonical (e : Element) : canonical e = true -> builds e.
Proof.
  induction e as [type attrs children IH] using Element_induction.
  intros Hc more top below.
  destruct (is_text type) eqn:Ht.
  - destruct (canonical_text _ Hc Ht) as (content & [= -> -> ->] & Hne). reflexivity.
  - destruct (canonical_tag _ Hc Ht)
      as (name & a & cs & [= -> -> ->] & Hn & Ha & Hbare & Hcs & Hadj).
    destruct (good_name_parts name Hn) as (_ & H2 & _ & _).
    assert (Hd : build_attrs (as_any a) [] = a).
    { apply build_attrs_distinct. unfold good_attrs in Ha.
      now apply andb_true_iff in Ha. }
    cbn [tokens_of is_text type_name]. rewrite H2.
    destruct cs as [|c cs].
    + cbn [app build close empty tag token_attrs is_empty negb].
      unfold Element_, Element_of. now rewrite Hd.
    + cbn [app build close empty tag token_attrs is_empty negb].
      unfold Element_, Element_of. rewrite Hd.
      rewrite <- app_assoc. rewrite build_forest.
      * rewrite push_children. reflexivity.
      * rewrite forallb_forall in Hcs. rewrite Forall_forall in *.
        intros x Hx. auto.
Qed.

(** [parse] gives back a canonical forest from its serialization. *)
Lemma parse_serialized (forest : list Element) :
  canonical_forest forest = true ->
  parse (join (map text_of forest)) = Return forest.
Proof.
  unfold canonical_forest. rewrite !andb_true_iff, negb_true_iff.
  intros [[Hc Hadj] Hend]. unfold parse.
  rewrite <- (append_nil_r (join (map text_of forest))).
  rewrite forest_tokens; auto.
  - rewrite tokenize_empty. rewrite build_forest.
    + unfold Element_, Element_of. rewrite push_children. reflexivity.
    + rewrite forallb_forall in Hc. apply Forall_forall.
      intros e He. now apply builds_canonical, Hc.
  - rewrite forallb_forall in Hc. apply Forall_forall.
    intros e He. split; [now apply Hc | now apply node_tokens_canonical, Hc].
  - now rewrite Hend.
Qed.

End RoundTrip.

(** ** The loops of the parsers run to their end

    The loops over the matches of a regular expression are written with
    fuel; the fuel they are given is never used up, so that the result is
    the one of the loop of the source. *)

Module LoopFacts.
Import Str StrFacts SliceFacts RegexFacts TagFacts TokenFacts AttrFacts.

Lemma length_drop (n : nat) (s : string) :
  String.length (drop n s) = String.length s - n.
Proof.
  revert s. induction n as [|n IH]; intros s.
  - rewrite drop_0. lia.
  - destruct s as [|c s]; [reflexivity|]. simpl. apply IH.
Qed.

(** A match of a pattern whose matches are not empty, found from
    [lastIndex] on, ends after [lastIndex] and within the string. *)
Lemma exec_g_advance (re : regex) (lastIndex : nat) (s : string) (f : found) (next : nat) :
  (forall s1 s' caps, match_here re s1 = Some (s', caps) ->
                      String.length s' < String.length s1) ->
  exec_g re lastIndex s = (Some f, next) ->
  next = index f + String.length (whole f)
  /\ lastIndex < next /\ next <= String.length s.
Proof.
  intros Hre. unfold exec_g.
  destruct (Nat.ltb (String.length s) lastIndex) eqn:E; [discriminate|].
  apply Nat.ltb_ge in E.
  destruct (search re lastIndex (drop lastIndex s)) as [f'|] eqn:Es; [|discriminate].
  intros H. injection H as Hf Hn. subst f next. split; [reflexivity|].
  destruct (search_found _ _ _ _ Es) as (skipped & s1 & Hs & Hi & Hm & Hw).
  pose proof (Hre _ _ _ Hm) as Hlt.
  apply match_here_suffix in Hm. destruct Hm as [w Hm]. rewrite Hm in Hw, Hlt.
  rewrite take_diff in Hw. rewrite Hw, Hi.
  assert (El : String.length (drop lastIndex s)
               = String.length skipped + (String.length w + String.length (after f'))).
  { rewrite Hs, Hm. now rewrite !length_append. }
  rewrite length_drop in El. rewrite length_append in Hlt. lia.
Qed.

Lemma attr_match_shorter (s s' : string) (caps : captures) :
  match_here attrRegExp s = Some (s', caps) -> String.length s' < String.length s.
Proof.
  unfold match_here, attrRegExp. rewrite m_seq, m_group. cbn [m].
  destruct s as [|c s]; [discriminate|]. rewrite one_cons.
  destruct (attr_key_char c); [|discriminate].
  intros H. apply star_loop_sound in H; [|apply one_sound].
  destruct H as (s1 & caps1 & Hs1 & H).
  apply (m_sound (Opt (Chr "=" @@ Chr dquote
                       @@ Group 2 (Star (Class non_quote)) @@ Chr dquote))) in H.
  destruct H as (s2 & caps2 & Hs2 & [= -> ->]).
  apply suffix_of_length in Hs1, Hs2. simpl. lia.
Qed.

(** [attrs_loop] never uses up its fuel. *)
Lemma attrs_loop_fuel (attrs : string) (fuel1 : nat) :
  forall fuel2 lastIndex acc,
    String.length attrs - lastIndex <= fuel1 ->
    String.length attrs - lastIndex <= fuel2 ->
    attrs_loop fuel1 lastIndex attrs acc = attrs_loop fuel2 lastIndex attrs acc.
Proof.
  induction fuel1 as [|fuel1 IH]; intros fuel2 lastIndex acc H1 H2.
  - destruct fuel2 as [|fuel2]; [reflexivity|]. cbn [attrs_loop].
    destruct (exec_g attrRegExp lastIndex attrs) as [[f|] next] eqn:E; [|reflexivity].
    apply (exec_g_advance _ _ _ _ _ attr_match_shorter) in E. lia.
  - cbn [attrs_loop].
    destruct (exec_g attrRegExp lastIndex attrs) as [[f|] next] eqn:E;
      [|destruct fuel2; cbn [attrs_loop]; now rewrite E].
    pose proof (exec_g_advance _ _ _ _ _ attr_match_shorter E) as Ha.
    destruct fuel2 as [|fuel2]; [lia|].
    cbn [attrs_loop]. rewrite E. apply IH; lia.
Qed.

Lemma comb_match_shorter (s s' : string) (caps : captures) :
  match_here combRegExp s = Some (s', caps) -> String.length s' < String.length s.
Proof.
  unfold match_here, combRegExp. rewrite m_seq. intros H.
  apply (m_sound (Star (Chr " "))) in H. destruct H as (s1 & caps1 & Hs1 & H).
  rewrite m_seq, m_group in H. cbn [m] in H.
  destruct s1 as [|c s1]; [discriminate|]. rewrite one_cons in H.
  destruct (comb_char c); [|discriminate].
  apply star_loop_sound in H; [|apply one_sound].
  destruct H as (s2 & caps2 & Hs2 & [= -> ->]).
  apply suffix_of_length in Hs1, Hs2. simpl in Hs1. lia.
Qed.

(** [selectors_loop] never uses up its fuel. *)
Lemma selectors_loop_fuel (fuel1 : nat) :
  forall fuel2 lastIndex query combinator,
    String.length query <= fuel1 -> String.length query <= fuel2 ->
    selectors_loop fuel1 lastIndex query combinator
    = selectors_loop fuel2 lastIndex query combinator.
Proof.
  induction fuel1 as [|fuel1 IH]; intros fuel2 lastIndex query combinator H1 H2.
  - destruct fuel2 as [|fuel2]; [reflexivity|]. cbn [selectors_loop].
    destruct (exec_g combRegExp lastIndex query) as [[f|] next] eqn:E; [|reflexivity].
    apply (exec_g_advance _ _ _ _ _ comb_match_shorter) in E. lia.
  - cbn [selectors_loop].
    destruct (exec_g combRegExp lastIndex query) as [[f|] next] eqn:E;
      [|destruct fuel2; cbn [selectors_loop]; now rewrite E].
    pose proof (exec_g_advance _ _ _ _ _ comb_match_shorter E) as (Hn & Hlt & Hle).
    destruct fuel2 as [|fuel2]; [lia|].
    cbn [selectors_loop]. rewrite E.
    rewrite (IH fuel2); [reflexivity | |]; rewrite length_drop; lia.
Qed.

End LoopFacts.

(** ** More on the escaper and on [toString] *)

Module MoreEscape.
Import Str StrFacts SliceFacts EscapeFacts.

Lemma escape_append (a b : string) (inline : bool) :
  escape (a ++ b) inline = escape a inline ++ escape b inline.
Proof. rewrite !escape_cmap. apply cmap_append. Qed.

Lemma escape_plain (s : string) (inline : bool) :
  all (plain_char inline) s = true -> escape s inline = s.
Proof.
  intros H. rewrite escape_cmap. induction s as [|c s IH]; [reflexivity|].
  cbn [all] in H. apply andb_true_iff in H. destruct H as [Hc Hs].
  cbn [cmap]. rewrite (IH Hs).
  unfold plain_char, is_char in Hc. apply negb_true_iff in Hc.
  rewrite !orb_false_iff in Hc. destruct Hc as [[[H1 H2] H3] H4].
  unfold esc_char. rewrite (Ascii.eqb_sym c "&"), H1, (Ascii.eqb_sym c "<"), H2,
    (Ascii.eqb_sym c ">"), H3, (Ascii.eqb_sym c dquote), H4.
  reflexivity.
Qed.

Lemma replace_no_head (p : ascii) (pat rep s : string) :
  all (fun c => negb (Ascii.eqb p c)) s = true ->
  replace_all (String p pat) rep s = s.
Proof.
  unfold replace_all. induction s as [|c s IH]; [reflexivity|].
  cbn [all]. intros H. apply andb_true_iff in H. destruct H as [Hc Hs].
  apply negb_true_iff in Hc.
  rewrite replace_from_other.
  - now rewrite IH.
  - intros ->. now rewrite Ascii.eqb_refl in Hc.
Qed.

Lemma unescape_no_amp (s : string) : all non_amp s = true -> unescape s = s.
Proof.
  intros H. unfold unescape.
  rewrite (replace_no_head "&" "lt;" "<" s H).
  rewrite (replace_no_head "&" "gt;" ">" s H).
  rewrite (replace_no_head "&" "quot;" dquotes s H).
  apply (replace_no_head "&" "amp;" "&" s H).
Qed.

(** *** When [toString] returns *)

Lemma join_children_serializable (children : list Element) :
  Forall (fun c => toString c = if serializable c then Return (text_of c) else Throws)
    children ->
  join_children toString children
  = if forallb serializable children
    then Return (join (map text_of children)) else Throws.
Proof.
  induction 1 as [|c cs Hc _ IH]; [reflexivity|].
  change (join_children toString (c :: cs))
    with (let* a := toString c in
          let* b := join_children toString cs in Return (a ++ b)).
  rewrite Hc, IH. cbn [forallb map join].
  destruct (serializable c); [|reflexivity].
  now destruct (forallb serializable cs).
Qed.

Lemma toString_serializable (e : Element) :
  toString e = if serializable e then Return (text_of e) else Throws.
Proof.
  induction e as [ty ats kids IH] using Element_induction.
  pose proof (join_children_serializable kids IH) as Hk.
  cbn [toString serializable text_of].
  destruct (no_type ty); [exact Hk|].
  destruct (is_text ty).
  { now destruct (Dict.get "content" ats). }
  destruct kids as [|k kids]; [reflexivity|].
  rewrite Hk. now destruct (forallb serializable (k :: kids)).
Qed.

End MoreEscape.

(** ** More on the parser *)

Module MoreParse.
Import Str StrFacts SliceFacts RegexFacts TagFacts TokenFacts.

(** *** A source without a tag *)

Lemma search_tag_end (i : nat) : search tagRegExp i "" = None.
Proof. reflexivity. Qed.

Lemma exec_tag_plain (s : string) : all non_lt s = true -> exec tagRegExp s = None.
Proof.
  intros H. unfold exec.
  rewrite <- (append_nil_r s), (search_text s "" 0 H). apply search_tag_end.
Qed.

Lemma tokenize_plain (s : string) :
  all non_lt s = true -> tokenize s = if is_empty s then [] else [inl s].
Proof.
  intros H. unfold tokenize.
  destruct (String.length s); cbn [tokens_loop]; now rewrite (exec_tag_plain s H).
Qed.

Lemma parse_plain (s : string) :
  all non_lt s = true ->
  parse s = Return (if is_empty s then [] else [text_node s]).
Proof.
  intros H. unfold parse. rewrite (tokenize_plain s H).
  now destruct s.
Qed.

(** *** When the stack of open nodes runs out *)

Lemma length_shift (stack : list Element) :
  List.length (shift stack) = List.length stack - 1.
Proof.
  destruct stack as [|a [|b stack]]; reflexivity.
Qed.

Lemma count_cons {A} (p : A -> bool) (x : A) (l : list A) :
  count p (x :: l) = (if p x then 1 else 0) + count p l.
Proof. unfold count. cbn [filter]. now destruct (p x). Qed.

Lemma build_throws (tokens : list (string + Token)) :
  forall stack,
    build tokens stack = Throws
    <-> exists n,
          List.length stack + count is_opening (firstn n tokens)
          <= count is_closing (firstn n tokens).
Proof.
  induction tokens as [|t tokens IH]; intros stack.
  - destruct stack as [|node below]; cbn [build].
    + split; [|reflexivity]. intros _. exists 0. unfold count. simpl. lia.
    + split; [discriminate|]. intros [n H]. rewrite firstn_nil in H.
      unfold count in H. simpl in H. lia.
  - destruct stack as [|top below].
    { rewrite build_empty_stack. split; [|reflexivity].
      intros _. exists 0. unfold count. simpl. lia. }
    destruct t as [text | token].
    + cbn [build]. rewrite IH. cbn [List.length].
      split; intros [n H].
      * exists (S n). cbn [firstn]. rewrite !count_cons. cbn [is_opening is_closing]. lia.
      * destruct n as [|n]; [unfold count in H; simpl in H; lia|].
        cbn [firstn] in H. rewrite !count_cons in H. cbn [is_opening is_closing] in H.
        exists n. lia.
    + cbn [build]. destruct (is_empty (close token)) eqn:Ec; cbn [negb].
      * destruct (is_empty (empty token)) eqn:Ee; cbn [negb]; rewrite IH;
          cbn [List.length]; split; intros [n H].
        -- exists (S n). cbn [firstn]. rewrite !count_cons. cbn [is_opening is_closing].
           rewrite Ec, Ee. cbn [negb andb]. lia.
        -- destruct n as [|n]; [unfold count in H; simpl in H; lia|].
           cbn [firstn] in H. rewrite !count_cons in H. cbn [is_opening is_closing] in H.
           rewrite Ec, Ee in H. cbn [negb andb] in H. exists n. lia.
        -- exists (S n). cbn [firstn]. rewrite !count_cons. cbn [is_opening is_closing].
           rewrite Ec, Ee. cbn [negb andb]. lia.
        -- destruct n as [|n]; [unfold count in H; simpl in H; lia|].
           cbn [firstn] in H. rewrite !count_cons in H. cbn [is_opening is_closing] in H.
           rewrite Ec, Ee in H. cbn [negb andb] in H. exists n. lia.
      * rewrite IH, length_shift. cbn [List.length]. split; intros [n H].
        -- exists (S n). cbn [firstn]. rewrite !count_cons. cbn [is_opening is_closing].
           rewrite Ec. cbn [negb andb]. lia.
        -- destruct n as [|n]; [unfold count in H; simpl in H; lia|].
           cbn [firstn] in H. rewrite !count_cons in H. cbn [is_opening is_closing] in H.
           rewrite Ec in H. cbn [negb andb] in H. exists n. lia.
Qed.

Lemma parse_throws (source : string) :
  parse source = Throws
  <-> exists n,
        count is_opening (firstn n (tokenize source))
        < count is_closing (firstn n (tokenize source)).
Proof.
  unfold parse. rewrite build_throws. cbn [List.length].
  split; intros [n H]; exists n; lia.
Qed.

(** *** A slash right after the name, or after white space *)

Lemma name_slash (name : string) :
  all name_char name = true -> all name_char (name ++ "/") = true.
Proof. intros H. rewrite all_append, H. reflexivity. Qed.

Lemma starts_with_append (name t : string) :
  name <> "" -> starts_with "/" (name ++ t) = starts_with "/" name.
Proof. destruct name; [congruence | reflexivity]. Qed.

Lemma tag_bare_slash_here (name rest : string) :
  name <> "" -> all name_char name = true -> starts_with "/" name = false ->
  match_here tagRegExp ("<" ++ name ++ "/>" ++ rest)
  = Some (rest, [(4, ""); (3, ""); (2, name ++ "/"); (1, "")]).
Proof.
  intros Hne Hname Hslash.
  pose proof (tag_open_here (name ++ "/") "" rest false) as H.
  cbn [tag_close tag_slash] in H.
  replace ("<" ++ name ++ "/>" ++ rest)
    with ("<" ++ (name ++ "/") ++ "" ++ ">" ++ rest).
  - apply H; auto.
    + destruct name; [congruence | discriminate].
    + now apply name_slash.
    + now rewrite starts_with_append.
  - rewrite (append_assoc name "/"). reflexivity.
Qed.

Lemma space_stops_name (ws t : string) :
  ws <> "" -> all is_space ws = true -> stops name_char (ws ++ t).
Proof.
  destruct ws as [|c ws]; [congruence|]. intros _ H.
  cbn [all] in H. apply andb_true_iff in H. destruct H as [Hc _].
  cbn [append stops]. unfold name_char. now rewrite Hc.
Qed.

Lemma tag_spaced_here (name ws rest : string) (selfclosing : bool) :
  name <> "" -> all name_char name = true -> starts_with "/" name = false ->
  ws <> "" -> all is_space ws = true ->
  match_here tagRegExp ("<" ++ name ++ ws ++ tag_close selfclosing ++ rest)
  = Some (rest, [(4, tag_slash selfclosing); (3, ""); (2, name); (1, "")]).
Proof.
  intros Hne Hname Hslash Hws Hspace.
  unfold match_here, tagRegExp. rewrite m_seq.
  change ("<" ++ ?x) with (String "<" x). rewrite chr_cons.
  rewrite m_seq, m_group, opt_skip.
  2:{ cbn [m]. apply one_stops. now apply stops_slash. }
  rewrite Nat.sub_diag.
  change (take 0 (name ++ ws ++ tag_close selfclosing ++ rest)) with "".
  rewrite m_seq.
  apply (star_run is_space _ "" _); [reflexivity | |].
  { destruct name as [|c name']; [congruence|]. simpl.
    cbn [all] in Hname. apply andb_true_iff in Hname.
    destruct Hname as [Hc _]. unfold name_char in Hc.
    apply negb_true_iff, orb_false_iff in Hc. tauto. }
  rewrite m_seq, m_group.
  apply plus_run; auto using space_stops_name.
  rewrite take_diff. rewrite m_seq, m_group.
  cbn [m]. change (m (Class non_gt)) with (one non_gt).
  apply (star_lazy_skip non_gt _ "" (ws ++ tag_close selfclosing ++ rest));
    [reflexivity | simpl; lia | intros j Hj; simpl in Hj; lia |].
  cbn [append]. rewrite Nat.sub_diag.
  change (take 0 (ws ++ tag_close selfclosing ++ rest)) with "".
  change (star_loop (one is_space) true ?k
            (S (String.length (ws ++ tag_close selfclosing ++ rest)))
            (ws ++ tag_close selfclosing ++ rest) ?c)
    with (m (Star (Class is_space)) (ws ++ tag_close selfclosing ++ rest) c k).
  apply star_run; [exact Hspace | now destruct selfclosing |].
  destruct selfclosing; cbn [tag_close tag_slash].
  - exact (tag_end_slash rest _ (fun s' caps => Some (s', caps))).
  - exact (tag_end_gt rest _ (fun s' caps => Some (s', caps))).
Qed.

End MoreParse.

(** ** More on [transform] *)

Module MoreTransform.

Lemma get_forallb {V} (p : V -> bool) (k : string) (d : Dict.t V) (v : V) :
  forallb (fun kv => p (snd kv)) d = true -> Dict.get k d = Some v -> p v = true.
Proof.
  induction d as [|[k' v'] d IH]; [discriminate|].
  cbn [forallb Dict.get fst snd]. intros H. apply andb_true_iff in H.
  destruct H as [Hv Hd]. destruct (String.eqb k k').
  - now intros [= <-].
  - now apply IH.
Qed.

Section Plain.

Variable rules : Dict.t Transformer.
Hypothesis plain : plain_rules rules = true.

(** On a type that names no member of [Object.prototype] the rule is
    one of the rules, or [true]. *)
Lemma resolve_plain (type : option string) :
  plain_type type = true -> is_plain (resolve rules type) = true.
Proof.
  unfold plain_type, resolve. intros Hty.
  destruct (Dict.get (type_name type) rules) as [rule|] eqn:E1.
  { exact (get_forallb is_plain _ _ _ plain E1). }
  destruct (inherited (type_name type)); [discriminate|].
  destruct (Dict.get "default" rules) as [rule|] eqn:E2.
  { exact (get_forallb is_plain _ _ _ plain E2). }
  reflexivity.
Qed.

Lemma each_from_plain (l : list Element) :
  Forall (fun e => plain_types e = true ->
                   forall i els, transform_node rules e i els
                                 = Return (replacement rules e, grown rules e)) l ->
  forallb plain_types l = true ->
  forall before,
    each_from (transform_node rules) before l
    = Return (flat_map (replacement rules) l, (before ++ map (grown rules) l)%list).
Proof.
  induction 1 as [|e l He _ IH]; intros Hl before.
  - cbn [each_from flat_map map]. now rewrite app_nil_r.
  - cbn [forallb] in Hl. apply andb_true_iff in Hl. destruct Hl as [Hpe Hpl].
    cbn [each_from flat_map map]. rewrite (He Hpe). cbn [bind fst snd].
    rewrite (IH Hpl). cbn [bind fst snd]. now rewrite <- app_assoc.
Qed.

Lemma transform_node_plain (e : Element) :
  plain_types e = true ->
  forall i els,
    transform_node rules e i els = Return (replacement rules e, grown rules e).
Proof.
  induction e as [ty ats kids IH] using Element_induction.
  intros Hp i els. cbn [plain_types] in Hp. apply andb_true_iff in Hp.
  destruct Hp as [Hty Hkids].
  pose proof (resolve_plain ty Hty) as Hrule.
  cbn [transform_node grown type]. unfold replacement. cbn [type].
  destruct (resolve rules ty) as [[[|]|c|]|f]; try discriminate; cbn [verdict bind];
    try reflexivity.
  unfold for_each. rewrite (each_from_plain kids IH Hkids []). reflexivity.
Qed.

Lemma transform_forest_plain (forest : list Element) :
  forallb plain_types forest = true ->
  transform_forest forest rules
  = Return (flat_map (replacement rules) forest, map (grown rules) forest).
Proof.
  intros Hp. unfold transform_forest, for_each.
  apply (each_from_plain forest); [|exact Hp].
  apply Forall_forall. intros e _. apply transform_node_plain.
Qed.

End Plain.

End MoreTransform.

(** ** More on the selectors *)

Module MoreSelect.

(** *** [_select] does not throw on groups that are not empty *)

Lemma ready_snoc (q : list (list Selector)) (g : list Selector) :
  ready q -> g <> [] -> ready (q ++ [g]).
Proof. intros Hq Hg. apply Forall_app. split; [exact Hq | now constructor]. Qed.

Lemma scan_ready_refl (e : Element) (st : scan) : scan_ready e st st.
Proof. unfold scan_ready. tauto. Qed.

Lemma scan_ready_trans (e : Element) (st1 st2 st3 : scan) :
  scan_ready e st1 st2 -> scan_ready e st2 st3 -> scan_ready e st1 st3.
Proof.
  unfold scan_ready. intros (A1 & B1 & C1 & D1) (A2 & B2 & C2 & D2).
  repeat split; auto.
  intros x Hx. destruct (D2 x Hx) as [H| ->]; auto.
Qed.

Lemma scan_group_ready (e : Element) (st : scan) (g : list Selector) :
  g <> [] -> exists st', scan_group e st g = Return st' /\ scan_ready e st st'.
Proof.
  destruct g as [|s tail]; [congruence|]. intros Hg.
  unfold scan_group. eexists. split; [reflexivity|].
  assert (H1 : scan_ready e st
    (if type_is (type e) (selector_type s)
     then match tail with
          | [] => mkScan (scan_yield st ++ [e]) (scan_inner st) (scan_adjacent st) (scan_query st)
          | next :: _ =>
              if String.eqb (combinator next) " " || String.eqb (combinator next) ">"
              then mkScan (scan_yield st) (scan_inner st ++ [tail]) (scan_adjacent st) (scan_query st)
              else if String.eqb (combinator next) "+"
              then mkScan (scan_yield st) (scan_inner st) (scan_adjacent st ++ [tail]) (scan_query st)
              else mkScan (scan_yield st) (scan_inner st) (scan_adjacent st) (scan_query st ++ [tail])
          end
     else st)).
  { destruct (type_is _ _); [|apply scan_ready_refl].
    destruct tail as [|next tail'].
    - unfold scan_ready. cbn [scan_yield scan_inner scan_adjacent scan_query].
      repeat split; auto. intros x Hx. apply in_app_or in Hx.
      destruct Hx as [Hx|[<-|[]]]; auto.
    - destruct (_ || _); [|destruct (String.eqb _ "+")];
        unfold scan_ready; cbn [scan_yield scan_inner scan_adjacent scan_query];
        repeat split; auto; intros H; apply ready_snoc; auto; discriminate. }
  eapply scan_ready_trans; [exact H1|].
  destruct (String.eqb _ _); [|apply scan_ready_refl].
  unfold scan_ready. cbn [scan_yield scan_inner scan_adjacent scan_query].
  repeat split; auto. intros H. now apply ready_snoc.
Qed.

Lemma scan_groups_ready (e : Element) (local : list (list Selector)) :
  forall st, ready local ->
    exists st', scan_groups e st local = Return st' /\ scan_ready e st st'.
Proof.
  induction local as [|g local IH]; intros st Hl.
  - exists st. split; [reflexivity | apply scan_ready_refl].
  - inversion Hl as [|? ? Hg Hl']; subst. cbn [scan_groups].
    destruct (scan_group_ready e st g Hg) as (st1 & -> & H1). cbn [bind].
    destruct (IH st1 Hl') as (st2 & -> & H2).
    exists st2. split; [reflexivity | eapply scan_ready_trans; eauto].
Qed.

Lemma select_loop_inside (elements : list Element) :
  Forall selects_inside elements ->
  forall query adjacent, ready query -> ready adjacent ->
    exists out,
      select_loop select_in elements query adjacent = Return out
      /\ incl out (flat_map nodes elements).
Proof.
  induction 1 as [|e l He _ IH]; intros query adjacent Hq Ha.
  - exists []. split; [reflexivity | apply incl_nil_l].
  - cbn [select_loop].
    destruct (scan_groups_ready e (query ++ adjacent) (mkScan [] [] [] query))
      as (st & -> & Hi & Hadj & Hquery & Hy).
    { apply Forall_app. now split. }
    cbn [scan_inner scan_adjacent scan_query scan_yield] in *. cbn [bind].
    destruct (He (scan_inner st)) as (below & -> & Hbelow); [apply Hi; constructor|].
    cbn [bind].
    destruct (IH (scan_query st) (scan_adjacent st)) as (others & -> & Hothers);
      [now apply Hquery | apply Hadj; constructor |].
    cbn [bind]. eexists. split; [reflexivity|].
    cbn [flat_map]. destruct e as [ty ats kids]. cbn [nodes children] in *.
    intros x Hx. apply in_app_or in Hx. destruct Hx as [Hx|Hx].
    { destruct (Hy x Hx) as [[]| ->]. now left. }
    apply in_app_or in Hx. destruct Hx as [Hx|Hx].
    + right. apply in_or_app. left. now apply Hbelow.
    + right. apply in_or_app. right. now apply Hothers.
Qed.

Lemma select_in_inside (e : Element) : selects_inside e.
Proof.
  induction e as [ty ats kids IH] using Element_induction.
  intros q Hq. cbn [select_in children]. destruct q as [|g q].
  - exists []. split; [reflexivity | apply incl_nil_l].
  - apply (select_loop_inside kids IH); [exact Hq | constructor].
Qed.

Lemma _select_inside (forest : list Element) (q : list (list Selector)) :
  ready q ->
  exists out, _select forest q = Return out /\ incl out (flat_map nodes forest).
Proof.
  intros Hq. unfold _select. destruct q as [|g q].
  - exists []. split; [reflexivity | apply incl_nil_l].
  - apply select_loop_inside; [|exact Hq | constructor].
    apply Forall_forall. intros e _. apply select_in_inside.
Qed.

(** [parseSelector] gives groups that are not empty. *)
Lemma selectors_loop_ready (fuel : nat) :
  forall lastIndex query combinator,
    String.length query <= fuel ->
    fst (selectors_loop fuel lastIndex query combinator) <> [].
Proof.
  induction fuel as [|fuel IH]; intros lastIndex query combinator Hfuel;
    cbn [selectors_loop];
    destruct (exec_g combRegExp lastIndex query) as [[f|] next] eqn:E;
    try discriminate.
  - apply (LoopFacts.exec_g_advance _ _ _ _ _ LoopFacts.comb_match_shorter) in E. lia.
  - destruct (selectors_loop fuel next _ _). discriminate.
Qed.

Lemma parse_queries_ready (queries : list string) :
  forall lastIndex, ready (parse_queries lastIndex queries).
Proof.
  induction queries as [|q queries IH]; intros lastIndex; [constructor|].
  cbn [parse_queries].
  pose proof (selectors_loop_ready (String.length (trim q)) lastIndex (trim q) " "
                (le_n _)) as H.
  destruct (selectors_loop _ _ _ _) as [selectors next]. constructor; [exact H | apply IH].
Qed.

Lemma select_inside (forest : list Element) (query : string) :
  exists out,
    select (inr forest) query = Return out /\ incl out (flat_map nodes forest).
Proof.
  cbn [select bind]. apply _select_inside. apply parse_queries_ready.
Qed.

(** *** One type *)

Section OneType.

Variable t : string.

#[local] Abbreviation T := (mkSelector t " ") (only parsing).

Lemma scan_one (e : Element) :
  scan_groups e (mkScan [] [] [] [[T]]) [[T]]
  = Return (mkScan (if has_type t e then [e] else []) [[T]] [] [[T]]).
Proof.
  unfold has_type. cbn [scan_groups scan_group selector_type combinator].
  destruct (type_is (type e) t). all: reflexivity.
Qed.

Lemma select_loop_one (l : list Element) :
  Forall (fun e => select_in e [[T]]
                   = Return (filter (has_type t) (flat_map nodes (children e)))) l ->
  select_loop select_in l [[T]] []
  = Return (filter (has_type t) (flat_map nodes l)).
Proof.
  induction 1 as [|e l He _ IH]; [reflexivity|].
  cbn [select_loop app]. rewrite scan_one. cbn [bind scan_inner scan_query scan_adjacent scan_yield].
  rewrite He, IH. cbn [bind flat_map]. f_equal.
  rewrite filter_app, app_assoc. f_equal.
  destruct e as [ty ats kids]. cbn [nodes filter children].
  now destruct (has_type t _).
Qed.

Lemma select_in_one (e : Element) :
  select_in e [[T]] = Return (filter (has_type t) (flat_map nodes (children e))).
Proof.
  induction e as [ty ats kids IH] using Element_induction.
  cbn [select_in children]. now apply select_loop_one.
Qed.

Lemma _select_one (forest : list Element) :
  _select forest [[T]] = Return (filter (has_type t) (flat_map nodes forest)).
Proof.
  unfold _select. apply select_loop_one.
  apply Forall_forall. intros e _. apply select_in_one.
Qed.

End OneType.

Lemma select_in_groups (ty : option string) (ats : Dict.t string) (kids : list Element)
    (q : list (list Selector)) :
  q <> [] ->
  select_in (mkElement ty ats kids) q = select_loop select_in kids q [].
Proof. destruct q; [congruence | reflexivity]. Qed.

Lemma _select_groups (forest : list Element) (q : list (list Selector)) :
  q <> [] -> _select forest q = select_loop select_in forest q [].
Proof. destruct q; [congruence | reflexivity]. Qed.

Lemma snoc_not_nil {A} (l : list A) (x : A) : (l ++ [x])%list <> [].
Proof. destruct l; discriminate. Qed.

Lemma repeat_snoc {A} (x : A) (n : nat) : (repeat x n ++ [x])%list = repeat x (S n).
Proof. symmetry. apply repeat_cons. Qed.

(** *** A type under a type *)

Section Descendants.

Variables a c : string.

#[local] Abbreviation A := (mkSelector a " ") (only parsing).
#[local] Abbreviation C := (mkSelector c " ") (only parsing).

Lemma scan_under_last (e : Element) (n : nat) :
  forall st,
    scan_groups e st (repeat [C] n)
    = Return (mkScan (scan_yield st ++ repeat e (if has_type c e then n else 0))
                (scan_inner st ++ repeat [C] n) (scan_adjacent st) (scan_query st)).
Proof.
  induction n as [|n IH]; intros [y i ad q].
  - cbn [repeat scan_groups scan_yield scan_inner scan_adjacent scan_query].
    destruct (has_type c e); now rewrite !app_nil_r.
  - cbn [repeat scan_groups scan_group selector_type combinator].
    unfold has_type in *.
    destruct (type_is (type e) c) eqn:Ec;
      cbn [String.eqb Ascii.eqb Bool.eqb bind scan_yield scan_inner scan_adjacent scan_query];
      rewrite IH; cbn [scan_yield scan_inner scan_adjacent scan_query];
      rewrite <- ?app_assoc; reflexivity.
Qed.

Lemma scan_under (e : Element) (n : nat) (q : list (list Selector)) :
  scan_groups e (mkScan [] [] [] q) (repeat [C] n ++ [[A; C]])
  = Return (mkScan (repeat e (if has_type c e then n else 0))
              (repeat [C] (if has_type a e then S n else n) ++ [[A; C]]) [] q).
Proof.
  assert (Happ : forall l1 l2 st,
             scan_groups e st (l1 ++ l2)
             = let* st' := scan_groups e st l1 in scan_groups e st' l2).
  { induction l1 as [|g l1 IH]; intros l2 st; [reflexivity|].
    cbn [app scan_groups]. destruct (scan_group e st g); [apply IH | reflexivity]. }
  rewrite Happ, scan_under_last. cbn [bind scan_yield scan_inner scan_adjacent scan_query app].
  cbn [scan_groups scan_group selector_type combinator].
  unfold has_type. destruct (type_is (type e) a);
    cbn [String.eqb Ascii.eqb Bool.eqb bind orb scan_yield scan_inner scan_adjacent scan_query];
    rewrite <- ?app_assoc, <- ?repeat_snoc, <- ?app_assoc; reflexivity.
Qed.

Lemma select_loop_under (l : list Element) :
  Forall (fun e => forall n,
            select_in e (repeat [C] n ++ [[A; C]])
            = Return (flat_map (under a c n) (children e))) l ->
  forall n,
    select_loop select_in l (repeat [C] n ++ [[A; C]]) []
    = Return (flat_map (under a c n) l).
Proof.
  induction 1 as [|e l He _ IH]; intros n; [reflexivity|].
  cbn [select_loop]. rewrite app_nil_r, scan_under.
  cbn [bind scan_inner scan_query scan_adjacent scan_yield].
  rewrite He, IH. cbn [bind flat_map]. f_equal. rewrite app_assoc. f_equal.
  destruct e as [ty ats kids]. reflexivity.
Qed.

Lemma select_in_under (e : Element) :
  forall n,
    select_in e (repeat [C] n ++ [[A; C]]) = Return (flat_map (under a c n) (children e)).
Proof.
  induction e as [ty ats kids IH] using Element_induction. intros n.
  rewrite select_in_groups by apply snoc_not_nil.
  now apply select_loop_under.
Qed.

Lemma _select_under (forest : list Element) :
  _select forest [[A; C]] = Return (flat_map (under a c 0) forest).
Proof.
  unfold _select. apply (select_loop_under forest) with (n := 0).
  apply Forall_forall. intros e _. apply select_in_under.
Qed.

End Descendants.

(** *** A type right under a type *)

Section Children.

Variables a c : string.

#[local] Abbreviation A1 := (mkSelector a " ") (only parsing).
#[local] Abbreviation C1 := (mkSelector c ">") (only parsing).

Lemma scan_child (e : Element) (parent : bool) (q : list (list Selector)) :
  scan_groups e (mkScan [] [] [] q) ((if parent then [[C1]] else []) ++ [[A1; C1]])%list
  = Return (mkScan (if parent && has_type c e then [e] else [])
              ((if has_type a e then [[C1]] else []) ++ [[A1; C1]])%list [] q).
Proof.
  unfold has_type.
  destruct parent; cbn [app scan_groups scan_group selector_type combinator];
    destruct (type_is (type e) c), (type_is (type e) a); reflexivity.
Qed.

Lemma select_loop_child (l : list Element) :
  Forall (fun e => forall parent : bool,
            select_in e ((if parent then [[C1]] else []) ++ [[A1; C1]])%list
            = Return (flat_map (child_of a c parent) (children e))) l ->
  forall parent : bool,
    select_loop select_in l ((if parent then [[C1]] else []) ++ [[A1; C1]])%list []
    = Return (flat_map (child_of a c parent) l).
Proof.
  induction 1 as [|e l He _ IH]; intros parent; [reflexivity|].
  cbn [select_loop]. rewrite app_nil_r, scan_child.
  cbn [bind scan_inner scan_query scan_adjacent scan_yield].
  rewrite (He (has_type a e)), IH. cbn [bind flat_map]. f_equal. rewrite app_assoc. f_equal.
  destruct e as [ty ats kids]. reflexivity.
Qed.

Lemma select_in_child (e : Element) :
  forall parent : bool,
    select_in e ((if parent then [[C1]] else []) ++ [[A1; C1]])%list
    = Return (flat_map (child_of a c parent) (children e)).
Proof.
  induction e as [ty ats kids IH] using Element_induction. intros parent.
  rewrite select_in_groups by apply snoc_not_nil.
  now apply select_loop_child.
Qed.

Lemma _select_child (forest : list Element) :
  _select forest [[A1; C1]] = Return (flat_map (child_of a c false) forest).
Proof.
  unfold _select. apply (select_loop_child forest) with (parent := false).
  apply Forall_forall. intros e _. apply select_in_child.
Qed.

End Children.

(** *** A type right after a type *)

Section Next.

Variables a b : string.

#[local] Abbreviation A2 := (mkSelector a " ") (only parsing).
#[local] Abbreviation B2 := (mkSelector b "+") (only parsing).

Lemma scan_next (e : Element) (previous : bool) :
  scan_groups e (mkScan [] [] [] [[A2; B2]])
    ([[A2; B2]] ++ (if previous then [[B2]] else []))%list
  = Return (mkScan (if previous && has_type b e then [e] else [])
              [[A2; B2]] (if has_type a e then [[B2]] else []) [[A2; B2]]).
Proof.
  unfold has_type.
  destruct previous; cbn [app scan_groups scan_group selector_type combinator];
    destruct (type_is (type e) b), (type_is (type e) a); reflexivity.
Qed.

Lemma select_loop_next (l : list Element) :
  Forall (fun e => select_in e [[A2; B2]] = Return (next_in a b e)) l ->
  forall previous : bool,
    select_loop select_in l [[A2; B2]] (if previous then [[B2]] else [])
    = Return (next_loop a b (next_in a b) l previous).
Proof.
  induction 1 as [|e l He _ IH]; intros previous; [reflexivity|].
  cbn [select_loop next_loop]. rewrite scan_next.
  cbn [bind scan_inner scan_query scan_adjacent scan_yield].
  rewrite He, (IH (has_type a e)). reflexivity.
Qed.

Lemma select_in_next (e : Element) :
  select_in e [[A2; B2]] = Return (next_in a b e).
Proof.
  induction e as [ty ats kids IH] using Element_induction.
  cbn [select_in next_in]. now apply (select_loop_next kids IH false).
Qed.

Lemma _select_next (forest : list Element) :
  _select forest [[A2; B2]] = Return (next_to a b forest).
Proof.
  unfold _select, next_to. apply (select_loop_next forest) with (previous := false).
  apply Forall_forall. intros e _. apply select_in_next.
Qed.

End Next.

(** *** A type after a type *)

Section Later.

Variables a b : string.

#[local] Abbreviation A3 := (mkSelector a " ") (only parsing).
#[local] Abbreviation B3 := (mkSelector b "~") (only parsing).

Lemma scan_later_last (e : Element) (n : nat) :
  forall st,
    scan_groups e st (repeat [B3] n)
    = Return (mkScan (scan_yield st ++ repeat e (if has_type b e then n else 0))
                (scan_inner st) (scan_adjacent st) (scan_query st)).
Proof.
  induction n as [|n IH]; intros [y i ad q].
  - cbn [repeat scan_groups scan_yield scan_inner scan_adjacent scan_query].
    destruct (has_type b e); now rewrite !app_nil_r.
  - cbn [repeat scan_groups scan_group selector_type combinator].
    unfold has_type in *.
    destruct (type_is (type e) b) eqn:Eb;
      cbn [String.eqb Ascii.eqb Bool.eqb bind scan_yield scan_inner scan_adjacent scan_query];
      rewrite IH; cbn [scan_yield scan_inner scan_adjacent scan_query];
      rewrite <- ?app_assoc; reflexivity.
Qed.

Lemma scan_later (e : Element) (n : nat) :
  scan_groups e (mkScan [] [] [] ([A3; B3] :: repeat [B3] n)) ([A3; B3] :: repeat [B3] n)
  = Return (mkScan (repeat e (if has_type b e then n else 0)) [[A3; B3]] []
              ([A3; B3] :: repeat [B3] (if has_type a e then S n else n))).
Proof.
  cbn [scan_groups scan_group selector_type combinator].
  unfold has_type. destruct (type_is (type e) a);
    cbn [String.eqb Ascii.eqb Bool.eqb bind orb scan_yield scan_inner scan_adjacent scan_query];
    rewrite scan_later_last;
    cbn [scan_yield scan_inner scan_adjacent scan_query app]; unfold has_type;
    rewrite ?repeat_snoc; reflexivity.
Qed.

Lemma select_loop_later (l : list Element) :
  Forall (fun e => select_in e [[A3; B3]] = Return (later_in a b e)) l ->
  forall n,
    select_loop select_in l ([A3; B3] :: repeat [B3] n) []
    = Return (later_loop a b (later_in a b) l n).
Proof.
  induction 1 as [|e l He _ IH]; intros n; [reflexivity|].
  cbn [select_loop later_loop]. rewrite app_nil_r, scan_later.
  cbn [bind scan_inner scan_query scan_adjacent scan_yield].
  rewrite He, IH. reflexivity.
Qed.

Lemma select_in_later (e : Element) :
  select_in e [[A3; B3]] = Return (later_in a b e).
Proof.
  induction e as [ty ats kids IH] using Element_induction.
  cbn [select_in later_in]. now apply (select_loop_later kids IH 0).
Qed.

Lemma _select_later (forest : list Element) :
  _select forest [[A3; B3]] = Return (later_than a b forest).
Proof.
  unfold _select, later_than. apply (select_loop_later forest) with (n := 0).
  apply Forall_forall. intros e _. apply select_in_later.
Qed.

End Later.

End MoreSelect.

(** ** More on [parseSelector] *)

Module MoreSelector.
Import Str StrFacts SliceFacts RegexFacts TagFacts TokenFacts LoopFacts.

(** *** Matches of [combRegExp] *)

Lemma star_greedy_last (p : ascii -> bool) (k : cont) (u : string) :
  forall c v caps fuel res,
    all p u = true -> p c = true -> stops p v ->
    String.length (u ++ String c v) < fuel ->
    k v caps = None -> k (String c v) caps = Some res ->
    star_loop (one p) true k fuel (u ++ String c v) caps = Some res.
Proof.
  induction u as [|d u IH]; intros c v caps fuel res Hu Hc Hv Hfuel Hnone Hk.
  - destruct fuel as [|fuel]; [simpl in Hfuel; lia|].
    cbn [star_loop append one]. rewrite Hc. unfold progress.
    replace (Nat.ltb _ _) with true by (symmetry; apply Nat.ltb_lt; simpl; lia).
    change v with ("" ++ v) at 1.
    rewrite (star_greedy_none p k "" v caps fuel eq_refl Hv); [exact Hk|].
    intros j Hj. simpl in Hj. replace j with 0 by lia. now rewrite drop_0.
  - destruct fuel as [|fuel]; [simpl in Hfuel; lia|].
    cbn [all] in Hu. apply andb_true_iff in Hu. destruct Hu as [Hd Hu].
    cbn [star_loop append one]. rewrite Hd. unfold progress.
    replace (Nat.ltb _ _) with true by (symmetry; apply Nat.ltb_lt; simpl; lia).
    rewrite (IH c v caps fuel res); auto. simpl in Hfuel. lia.
Qed.

Lemma stops_comb_blank (s : string) : stops comb_char s -> stops (Ascii.eqb " ") s.
Proof.
  destruct s as [|c s]; [trivial|]. cbn [stops]. unfold comb_char, is_char.
  intros H. rewrite !orb_false_iff in H. tauto.
Qed.

Lemma comb_none (s : string) : stops comb_char s -> match_here combRegExp s = None.
Proof.
  intros H. unfold match_here, combRegExp. rewrite m_seq.
  change (m (Star (Chr " ")) s [] ?k)
    with (star_loop (one (Ascii.eqb " ")) true k (S (String.length ("" ++ s))) ("" ++ s) []).
  apply star_greedy_none; [reflexivity | now apply stops_comb_blank |].
  intros j Hj. simpl in Hj. replace j with 0 by lia. rewrite drop_0.
  rewrite m_seq, m_group. cbn [m append]. now apply one_stops.
Qed.

Lemma comb_tail (k : ascii) (sp2 rest : string) (caps : captures) :
  comb_char k = true -> blanks sp2 = true -> stops (Ascii.eqb " ") rest ->
  m (Group 1 (Class comb_char) @@ Star (Chr " ")) (String k (sp2 ++ rest)) caps
    (fun s' caps' => Some (s', caps'))
  = Some (rest, (1, String k "") :: caps).
Proof.
  intros Hk Hsp Hrest. rewrite m_seq, m_group. cbn [m]. rewrite one_cons, Hk.
  change (star_loop (one (Ascii.eqb " ")) true ?k0 (S (String.length (sp2 ++ rest)))
            (sp2 ++ rest) ?c)
    with (m (Star (Class (Ascii.eqb " "))) (sp2 ++ rest) c k0).
  apply star_run; [exact Hsp | exact Hrest |].
  change (String k (sp2 ++ rest)) with (String k "" ++ (sp2 ++ rest)).
  now rewrite take_diff.
Qed.

Lemma comb_operator_here (sp1 sp2 rest : string) (k : ascii) :
  blanks sp1 = true -> operator_char k = true -> blanks sp2 = true ->
  stops (Ascii.eqb " ") rest ->
  match_here combRegExp (sp1 ++ String k (sp2 ++ rest))
  = Some (rest, [(1, String k "")]).
Proof.
  intros H1 Hk H2 Hrest. unfold operator_char in Hk. apply andb_true_iff in Hk.
  destruct Hk as [Hcomb Hblank]. apply negb_true_iff in Hblank.
  unfold match_here, combRegExp. rewrite m_seq.
  change (m (Star (Chr " "))) with (m (Star (Class (Ascii.eqb " ")))).
  apply star_run; [exact H1 | exact Hblank |].
  now apply comb_tail.
Qed.

Lemma blanks_last (sp : string) :
  sp <> "" -> blanks sp = true -> exists u, sp = u ++ " " /\ blanks u = true.
Proof.
  unfold blanks. induction sp as [|c sp IH]; [congruence|]. intros _ H.
  cbn [all] in H. apply andb_true_iff in H. destruct H as [Hc Hsp].
  destruct sp as [|d sp].
  - exists "". split; [|reflexivity]. unfold is_char in Hc.
    apply Ascii.eqb_eq in Hc. now subst.
  - destruct (IH ltac:(discriminate) Hsp) as (u & E & Hu).
    exists (String c u). split; [simpl; now rewrite E|]. cbn [all]. now rewrite Hc.
Qed.

Lemma comb_blank_here (sp rest : string) :
  sp <> "" -> blanks sp = true -> stops comb_char rest ->
  match_here combRegExp (sp ++ rest) = Some (rest, [(1, " ")]).
Proof.
  intros Hne Hsp Hrest. destruct (blanks_last sp Hne Hsp) as (u & -> & Hu).
  rewrite append_assoc. cbn [append].
  unfold match_here, combRegExp. rewrite m_seq.
  change (m (Star (Chr " ")) ?s [] ?k)
    with (star_loop (one (Ascii.eqb " ")) true k (S (String.length s)) s []).
  apply star_greedy_last; auto using stops_comb_blank.
  - rewrite m_seq, m_group. cbn [m]. now apply one_stops.
  - apply (comb_tail " " "" rest []); auto using stops_comb_blank.
Qed.

(** *** The separators *)

Lemma skip_blanks_split (sep : string) :
  exists sp1, sep = sp1 ++ skip_blanks sep /\ blanks sp1 = true
              /\ stops (Ascii.eqb " ") (skip_blanks sep).
Proof.
  induction sep as [|c sep (sp1 & E & H1 & H2)].
  - now exists "".
  - cbn [skip_blanks]. destruct (is_char " " c) eqn:Ec.
    + exists (String c sp1). cbn [append]. rewrite <- E. unfold blanks. cbn [all].
      now rewrite Ec.
    + now exists "".
Qed.

Lemma separator_here (sep k rest : string) :
  separator sep = Some k -> stops comb_char rest ->
  match_here combRegExp (sep ++ rest) = Some (rest, [(1, k)]).
Proof.
  unfold separator. intros H Hrest.
  destruct (skip_blanks_split sep) as (sp1 & E & H1 & H2).
  destruct (skip_blanks sep) as [|kc sp2].
  - rewrite append_nil_r in E. subst sp1.
    destruct sep as [|c sep]; [discriminate|]. injection H as <-.
    now apply comb_blank_here.
  - destruct (operator_char kc && blanks sp2) eqn:Hk; [|discriminate].
    injection H as <-. apply andb_true_iff in Hk. destruct Hk as [Hk Hsp2].
    rewrite E, append_assoc. cbn [append].
    apply comb_operator_here; auto using stops_comb_blank.
Qed.

Lemma separator_chars (sep k : string) :
  separator sep = Some k ->
  sep <> "" /\ all (fun c => negb (is_char "," c)) sep = true.
Proof.
  unfold separator. intros H.
  destruct (skip_blanks_split sep) as (sp1 & E & H1 & _).
  assert (Hblank : forall s, blanks s = true ->
                             all (fun c => negb (is_char "," c)) s = true).
  { unfold blanks. induction s as [|c s IH]; [reflexivity|]. cbn [all].
    intros Hs. apply andb_true_iff in Hs. destruct Hs as [Hc Hs].
    rewrite (IH Hs), andb_true_r. unfold is_char in *.
    apply Ascii.eqb_eq in Hc. now subst. }
  destruct (skip_blanks sep) as [|kc sp2].
  - destruct sep; [discriminate|]. split; [discriminate|].
    rewrite append_nil_r in E. subst sp1. now apply Hblank.
  - destruct (operator_char kc && blanks sp2) eqn:Hk; [|discriminate].
    apply andb_true_iff in Hk. destruct Hk as [Hk Hsp2].
    split; [destruct sp1; rewrite E; discriminate|].
    rewrite E, all_append, (Hblank sp1 H1). cbn [all andb].
    rewrite (Hblank sp2 Hsp2), andb_true_r.
    unfold operator_char, comb_char, is_char in Hk |- *.
    destruct (Ascii.eqb_spec "," kc); [subst; discriminate | reflexivity].
Qed.

(** *** Type names *)

Lemma simple_not_comb (c : ascii) : simple_char c = true -> comb_char c = false.
Proof.
  unfold simple_char. intros H. apply negb_true_iff in H.
  rewrite !orb_false_iff in H. tauto.
Qed.

Lemma simple_stops (s t : string) :
  all simple_char s = true -> s <> "" -> stops comb_char (s ++ t).
Proof.
  destruct s as [|c s]; [congruence|]. cbn [all]. intros H _.
  apply andb_true_iff in H. destruct H as [Hc _]. now apply simple_not_comb.
Qed.

Lemma search_comb_end (i : nat) : search combRegExp i "" = None.
Proof. reflexivity. Qed.

Lemma search_comb_skip (a s : string) :
  forall i,
    all simple_char a = true ->
    search combRegExp i (a ++ s) = search combRegExp (i + String.length a) s.
Proof.
  induction a as [|c a IH]; intros i Hall.
  - simpl. now rewrite Nat.add_0_r.
  - cbn [all] in Hall. apply andb_true_iff in Hall. destruct Hall as [Hc Hall].
    cbn [append]. rewrite search_next.
    + rewrite IH by exact Hall. f_equal. simpl. lia.
    + apply comb_none. now apply simple_not_comb.
Qed.

Lemma all_drop p (s : string) (n : nat) : all p s = true -> all p (drop n s) = true.
Proof.
  revert s. induction n as [|n IH]; intros s H; [now rewrite drop_0|].
  destruct s as [|c s]; [reflexivity|]. cbn [all] in H.
  apply andb_true_iff in H. destruct H as [_ H]. now apply IH.
Qed.

Lemma exec_g_simple (c : string) (lastIndex : nat) :
  all simple_char c = true -> exec_g combRegExp lastIndex c = (None, 0).
Proof.
  intros H. unfold exec_g. destruct (Nat.ltb _ _); [reflexivity|].
  rewrite <- (append_nil_r (drop lastIndex c)).
  rewrite search_comb_skip by now apply all_drop.
  now rewrite search_comb_end.
Qed.

Lemma exec_g_separator (a sep k rest : string) (lastIndex : nat) :
  all simple_char a = true -> lastIndex <= String.length a ->
  match_here combRegExp (sep ++ rest) = Some (rest, [(1, k)]) ->
  exec_g combRegExp lastIndex (a ++ sep ++ rest)
  = (Some (mkFound (String.length a) sep [(1, k)] rest),
     String.length a + String.length sep).
Proof.
  intros Ha Hli Hm. unfold exec_g.
  replace (Nat.ltb _ _) with false
    by (symmetry; apply Nat.ltb_ge; rewrite length_append; lia).
  rewrite drop_append_left by exact Hli.
  rewrite search_comb_skip by now apply all_drop.
  rewrite length_drop. replace (lastIndex + (String.length a - lastIndex))
    with (String.length a) by lia.
  rewrite (search_here _ _ _ _ _ Hm), take_diff. reflexivity.
Qed.

Lemma selectors_loop_last (c combinator : string) (fuel lastIndex : nat) :
  all simple_char c = true ->
  selectors_loop fuel lastIndex c combinator = ([mkSelector c combinator], 0).
Proof.
  intros H. destruct fuel; cbn [selectors_loop]; now rewrite exec_g_simple.
Qed.

Lemma selectors_loop_step (a sep k rest combinator : string) (fuel lastIndex : nat) :
  all simple_char a = true -> lastIndex <= String.length a ->
  match_here combRegExp (sep ++ rest) = Some (rest, [(1, k)]) ->
  selectors_loop (S fuel) lastIndex (a ++ sep ++ rest) combinator
  = let (more, last) :=
      selectors_loop fuel (String.length a + String.length sep) rest k in
    (mkSelector a combinator :: more, last).
Proof.
  intros Ha Hli Hm. cbn [selectors_loop].
  rewrite (exec_g_separator a sep k rest lastIndex Ha Hli Hm).
  cbn [index whole]. unfold slice. rewrite drop_0, Nat.sub_0_r, take_append.
  rewrite <- (append_assoc a sep rest), <- length_append, drop_append.
  reflexivity.
Qed.

(** *** [split] and [trim] *)

Lemma split_comma_none (s : string) :
  all (fun c => negb (is_char "," c)) s = true -> split_comma s = [s].
Proof.
  induction s as [|c s IH]; [reflexivity|]. cbn [all]. intros H.
  apply andb_true_iff in H. destruct H as [Hc Hs]. apply negb_true_iff in Hc.
  cbn [split_comma]. now rewrite Hc, (IH Hs).
Qed.

Lemma simple_not_space (c : ascii) : simple_char c = true -> is_space c = false.
Proof.
  unfold simple_char. intros H. apply negb_true_iff in H.
  rewrite !orb_false_iff in H. tauto.
Qed.

Lemma simple_not_comma (s : string) :
  all simple_char s = true -> all (fun c => negb (is_char "," c)) s = true.
Proof.
  induction s as [|c s IH]; [reflexivity|]. cbn [all]. intros H.
  apply andb_true_iff in H. destruct H as [Hc Hs]. rewrite (IH Hs), andb_true_r.
  unfold simple_char in Hc. apply negb_true_iff in Hc.
  rewrite !orb_false_iff in Hc. apply negb_true_iff. tauto.
Qed.

Lemma trim_end_simple (c : string) :
  all simple_char c = true -> trim_end c = c.
Proof.
  induction c as [|ch c IH]; [reflexivity|]. cbn [all]. intros H.
  apply andb_true_iff in H. destruct H as [Hc Hs].
  cbn [trim_end]. rewrite (IH Hs), (simple_not_space ch Hc). now destruct c.
Qed.

Lemma trim_end_append (x c : string) :
  c <> "" -> all simple_char c = true -> trim_end (x ++ c) = x ++ c.
Proof.
  intros Hne Hc. induction x as [|d x IH]; [now apply trim_end_simple|].
  cbn [append trim_end]. rewrite IH.
  destruct (x ++ c) eqn:E; [|reflexivity].
  destruct x; [simpl in E; congruence | discriminate].
Qed.

Lemma trim_start_simple (a t : string) :
  a <> "" -> all simple_char a = true -> trim_start (a ++ t) = a ++ t.
Proof.
  destruct a as [|c a]; [congruence|]. cbn [all]. intros _ H.
  apply andb_true_iff in H. destruct H as [Hc _].
  cbn [append trim_start]. now rewrite (simple_not_space c Hc).
Qed.

Lemma simple_name_parts (s : string) :
  simple_name s = true -> s <> "" /\ all simple_char s = true.
Proof.
  unfold simple_name. intros H. apply andb_true_iff in H. destruct H as [H1 H2].
  split; [|exact H2]. destruct s; [discriminate | discriminate].
Qed.

(** *** Whole selectors *)

Lemma parseSelector_name (t : string) :
  simple_name t = true -> parseSelector t = [[mkSelector t " "]].
Proof.
  intros H. destruct (simple_name_parts t H) as [Hne Ht].
  unfold parseSelector. rewrite split_comma_none by now apply simple_not_comma.
  cbn [parse_queries]. unfold trim.
  rewrite <- (append_nil_r t), trim_start_simple, append_nil_r, trim_end_simple by auto.
  now rewrite selectors_loop_last.
Qed.

Lemma trim_pair (a sep c : string) :
  simple_name a = true -> simple_name c = true ->
  trim (a ++ sep ++ c) = a ++ sep ++ c.
Proof.
  intros Ha Hc. destruct (simple_name_parts a Ha) as [Hane Hall].
  destruct (simple_name_parts c Hc) as [Hcne Hcll].
  unfold trim. rewrite trim_start_simple by auto.
  rewrite <- append_assoc. now apply trim_end_append.
Qed.

Lemma parseSelector_pair (a sep c k : string) :
  simple_name a = true -> simple_name c = true -> separator sep = Some k ->
  parseSelector (a ++ sep ++ c) = [[mkSelector a " "; mkSelector c k]].
Proof.
  intros Ha Hc Hsep. destruct (simple_name_parts a Ha) as [Hane Hall].
  destruct (simple_name_parts c Hc) as [Hcne Hcll].
  destruct (separator_chars sep k Hsep) as [Hsne Hscomma].
  unfold parseSelector. rewrite split_comma_none.
  2:{ rewrite !all_append, Hscomma, (simple_not_comma a Hall),
        (simple_not_comma c Hcll). reflexivity. }
  cbn [parse_queries]. rewrite trim_pair by auto.
  destruct (String.length (a ++ sep ++ c)) as [|fuel] eqn:Elen.
  { rewrite length_append in Elen. destruct a; [congruence | simpl in Elen; lia]. }
  rewrite (selectors_loop_step a sep k c " " fuel 0 Hall (Nat.le_0_l _)).
  - now rewrite selectors_loop_last.
  - apply separator_here; [exact Hsep|].
    rewrite <- (append_nil_r c). now apply simple_stops.
Qed.

(** Three type names with one space between them: the search for the
    second space starts where the first search ended, in what is left of
    the query. *)
Lemma parseSelector_triple (a b c : string) :
  simple_name a = true -> simple_name b = true -> simple_name c = true ->
  parseSelector (a ++ " " ++ b ++ " " ++ c)
  = [if Nat.ltb (String.length a) (String.length b)
     then [mkSelector a " "; mkSelector b " "; mkSelector c " "]
     else [mkSelector a " "; mkSelector (b ++ " " ++ c) " "]].
Proof.
  intros Ha Hb Hc. destruct (simple_name_parts a Ha) as [Hane Hall].
  destruct (simple_name_parts b Hb) as [Hbne Hbll].
  destruct (simple_name_parts c Hc) as [Hcne Hcll].
  assert (Hbc : match_here combRegExp (" " ++ c) = Some (c, [(1, " ")])).
  { apply (separator_here " " " " c eq_refl).
    rewrite <- (append_nil_r c). now apply simple_stops. }
  assert (Habc : match_here combRegExp (" " ++ b ++ " " ++ c)
                 = Some (b ++ " " ++ c, [(1, " ")])).
  { apply (separator_here " " " " _ eq_refl). now apply simple_stops. }
  unfold parseSelector. rewrite split_comma_none.
  2:{ rewrite !all_append, (simple_not_comma a Hall), (simple_not_comma b Hbll),
        (simple_not_comma c Hcll). reflexivity. }
  cbn [parse_queries].
  assert (Etrim : trim (a ++ " " ++ b ++ " " ++ c) = a ++ " " ++ b ++ " " ++ c).
  { pose proof (trim_pair a (" " ++ b ++ " ") c Ha Hc) as H.
    cbn [append] in H. rewrite (append_assoc b " " c) in H. exact H. }
  rewrite Etrim.
  destruct (String.length (a ++ " " ++ b ++ " " ++ c)) as [|fuel] eqn:Elen.
  { rewrite length_append in Elen. cbn [append String.length] in Elen. lia. }
  rewrite (selectors_loop_step a " " " " (b ++ " " ++ c) " " fuel 0 Hall (Nat.le_0_l _) Habc).
  cbn [String.length]. destruct (Nat.ltb_spec (String.length a) (String.length b)) as [Hlt|Hge].
  - destruct fuel as [|fuel].
    { rewrite length_append in Elen. cbn [append String.length] in Elen.
      rewrite length_append in Elen. cbn [append String.length] in Elen. lia. }
    assert (Hle : String.length a + 1 <= String.length b) by lia.
    rewrite (selectors_loop_step b " " " " c " " fuel _ Hbll Hle Hbc).
    now rewrite selectors_loop_last.
  - assert (E : exec_g combRegExp (String.length a + 1) (b ++ " " ++ c) = (None, 0)).
    { unfold exec_g. destruct (Nat.ltb _ _); [reflexivity|].
      replace (String.length a + 1)
        with (String.length (b ++ " ") + (String.length a - String.length b))
        by (rewrite length_append; simpl; lia).
      rewrite <- drop_drop. rewrite <- (append_assoc b " " c), drop_append.
      rewrite <- (append_nil_r (drop _ c)).
      rewrite search_comb_skip by now apply all_drop.
      now rewrite search_comb_end. }
    destruct fuel; cbn [selectors_loop]; now rewrite E.
Qed.

End MoreSelector.

(** ** One entry per key *)

Module MoreElement.

Lemma get_set_none {V} (k k' : string) (v : V) (d : Dict.t V) :
  String.eqb k' k = false -> Dict.get k' d = None ->
  Dict.get k' (Dict.set k v d) = None.
Proof.
  intros Hk. induction d as [|[k1 v1] d IH]; cbn [Dict.get Dict.set].
  - now rewrite Hk.
  - destruct (String.eqb k' k1) eqn:E1; [discriminate|]. intros Hd.
    destruct (String.eqb k k1); cbn [Dict.get]; rewrite E1; auto.
Qed.

Lemma distinct_set (k v : string) (d : Dict.t string) :
  distinct_keys d = true -> distinct_keys (Dict.set k v d) = true.
Proof.
  induction d as [|[k1 v1] d IH]; [reflexivity|].
  cbn [distinct_keys Dict.set].
  destruct (Dict.get k1 d) eqn:E; [discriminate|]. intros Hd.
  destruct (String.eqb k k1) eqn:Ek; cbn [distinct_keys].
  - now rewrite E.
  - rewrite get_set_none; auto. now rewrite String.eqb_sym.
Qed.

Lemma build_attrs_keeps (entries : Dict.t any) :
  forall acc, distinct_keys acc = true -> distinct_keys (build_attrs entries acc) = true.
Proof.
  induction entries as [|[key value] entries IH]; intros acc Hacc; [exact Hacc|].
  cbn [build_attrs]. destruct value as [| |[|]|s]; apply IH; auto using distinct_set.
Qed.

Lemma Element_of_distinct type a (children : list Element) :
  distinct_keys (attrs (Element_of type a children)) = true.
Proof.
  unfold Element_of. cbn [attrs]. destruct a as [entries|]; [|reflexivity].
  now apply build_attrs_keeps.
Qed.

(** *** The last entry that writes a key gives its value *)

Lemma get_set {V} (k k' : string) (v : V) (d : Dict.t V) :
  Dict.get k (Dict.set k' v d) = if String.eqb k k' then Some v else Dict.get k d.
Proof.
  induction d as [|[k1 v1] d IH]; cbn [Dict.get Dict.set]; [reflexivity|].
  destruct (String.eqb k' k1) eqn:E1; cbn [Dict.get].
  - apply String.eqb_eq in E1. subst k1. now destruct (String.eqb k k').
  - destruct (String.eqb k k1) eqn:E2.
    + apply String.eqb_eq in E2. subst k1. rewrite String.eqb_sym in E1. now rewrite E1.
    + exact IH.
Qed.

Lemma get_app {V} (k : string) (d1 d2 : Dict.t V) :
  Dict.get k (d1 ++ d2)%list
  = match Dict.get k d1 with
    | Some v => Some v
    | None => Dict.get k d2
    end.
Proof.
  induction d1 as [|[k1 v1] d1 IH]; cbn [app Dict.get]; [reflexivity|].
  now destruct (String.eqb k k1).
Qed.

Lemma get_build_attrs (k : string) (entries : Dict.t any) :
  forall acc,
    Dict.get k (build_attrs entries acc)
    = match Dict.get k (rev (written entries)) with
      | Some v => Some v
      | None => Dict.get k acc
      end.
Proof.
  induction entries as [|[key value] entries IH]; intros acc; [reflexivity|].
  change (written ((key, value) :: entries))
    with (app (match value with
               | Undefined | Null => []
               | Boolean true => [(key, "")]
               | Boolean false => [("no" ++ capitalize key, "")]
               | Text s => [(key, s)]
               end) (written entries)).
  rewrite rev_app_distr, get_app. cbn [build_attrs].
  destruct value as [| |[|]|s]; rewrite IH; cbn [rev app Dict.get];
    try rewrite get_set; destruct (Dict.get k (rev (written entries))); try reflexivity;
    now destruct (String.eqb k _).
Qed.

End MoreElement.

(** * Further properties of the code *)

(** ** The escaper (index.ts, lines 82-98) *)

(** X1: [escape] works character by character: the escape of a
    concatenation is the concatenation of the escapes, with either value
    of the inline flag. *)
Theorem X1_escape_append (a b : string) (inline : bool) :
  escape (a ++ b) inline = escape a inline ++ escape b inline.
Proof. apply MoreEscape.escape_append. Qed.

(** X2: what [escape] returns has no [<] and no [>], and with the inline
    flag no double quote either. *)
Theorem X2_escape_no_markup (s : string) (inline : bool) :
  Str.all non_lt (escape s inline) = true
  /\ Str.all non_gt (escape s inline) = true
  /\ Str.all non_quote (escape s true) = true.
Proof.
  repeat split.
  - apply AttrFacts.escape_non_lt.
  - apply AttrFacts.escape_non_gt.
  - apply AttrFacts.escape_non_quote.
Qed.

(** X3: [escape] returns its argument when it has none of [&], [<] and
    [>], nor, with the inline flag, a double quote. *)
Theorem X3_escape_plain (s : string) (inline : bool) :
  Str.all (plain_char inline) s = true -> escape s inline = s.
Proof. apply MoreEscape.escape_plain. Qed.

Lemma X3_witness :
  Str.all (plain_char true) "plain text" = true
  /\ escape "plain text" true = "plain text".
Proof.
  split; [reflexivity|].
  apply X3_escape_plain. reflexivity.
Defined.

(** X4: [unescape] returns its argument when it has no [&]. *)
Theorem X4_unescape_no_amp (s : string) :
  Str.all non_amp s = true -> unescape s = s.
Proof. apply MoreEscape.unescape_no_amp. Qed.

Lemma X4_witness :
  Str.all non_amp "1 < 2; lt;" = true /\ unescape "1 < 2; lt;" = "1 < 2; lt;".
Proof.
  split; [reflexivity|].
  apply X4_unescape_no_amp. reflexivity.
Defined.

(** ** Serialization (index.ts, lines 40-51) *)

(** X5: [toString] throws exactly on a node that has, at some depth
    reached through nodes that are not text nodes, a text node without a
    [content] attribute; on every other node it returns the text that
    [text_of] computes. *)
Theorem X5_toString_serializable (e : Element) :
  toString e = if serializable e then Return (text_of e) else Throws.
Proof. apply MoreEscape.toString_serializable. Qed.

(** ** The parser (index.ts, lines 157-198) *)

(** X6: on a source without [<], [parse] returns no node when the source
    is empty, and otherwise one text node whose content is the source as
    it is: the text after the last tag is not unescaped. *)
Theorem X6_parse_plain (s : string) :
  Str.all non_lt s = true ->
  parse s = Return (if Str.is_empty s then [] else [text_node s]).
Proof. apply MoreParse.parse_plain. Qed.

Lemma X6_witness :
  Str.all non_lt "1 &lt; 2" = true
  /\ parse "1 &lt; 2" = Return [text_node "1 &lt; 2"].
Proof.
  split; [reflexivity|].
  apply (X6_parse_plain "1 &lt; 2"). reflexivity.
Defined.

(** X7: [parse] throws exactly when, after some number of tokens, the
    closing tags read so far outnumber the tags read so far that open a
    node (the tags that are neither closing nor self-closing).  Whether
    the names of the closing tags match plays no part. *)
Theorem X7_parse_throws (source : string) :
  parse source = Throws
  <-> exists n,
        count is_opening (firstn n (tokenize source))
        < count is_closing (firstn n (tokenize source)).
Proof. apply MoreParse.parse_throws. Qed.

(** X8: a tag whose slash comes right after the name is not read as
    self-closing: for every name, [parse] on [<name/>] returns one node
    whose type is the name followed by the slash. *)
Theorem X8_parse_bare_slash (name : string) :
  Str.is_empty name = false -> Str.all name_char name = true ->
  Str.starts_with "/" name = false ->
  parse ("<" ++ name ++ "/>") = Return [mkElement (Some (name ++ "/")) [] []].
Proof.
  intros Hne Hname Hslash. apply SliceFacts.is_empty_false in Hne.
  unfold parse.
  change ("<" ++ name ++ "/>") with ("<" ++ name ++ "/>" ++ "").
  rewrite (TokenFacts.tokenize_tag_here _ _ _
             (MoreParse.tag_bare_slash_here name "" Hne Hname Hslash)).
  reflexivity.
Qed.

Lemma X8_witness :
  Str.is_empty "img" = false /\ Str.all name_char "img" = true
  /\ Str.starts_with "/" "img" = false
  /\ parse ("<" ++ "img" ++ "/>") = Return [mkElement (Some ("img" ++ "/")) [] []].
Proof.
  split; [reflexivity|]. split; [reflexivity|]. split; [reflexivity|].
  apply X8_parse_bare_slash; reflexivity.
Defined.

(** X9: with white space between the name and the slash the tag is read
    as self-closing: [parse] returns one node of that name, without
    attributes and without children. *)
Theorem X9_parse_spaced_slash (name ws : string) :
  Str.is_empty name = false -> Str.all name_char name = true ->
  Str.starts_with "/" name = false ->
  Str.is_empty ws = false -> Str.all is_space ws = true ->
  parse ("<" ++ name ++ ws ++ "/>") = Return [mkElement (Some name) [] []].
Proof.
  intros Hne Hname Hslash Hws Hspace.
  apply SliceFacts.is_empty_false in Hne. apply SliceFacts.is_empty_false in Hws.
  unfold parse.
  change ("<" ++ name ++ ws ++ "/>") with ("<" ++ name ++ ws ++ tag_close true ++ "").
  rewrite (TokenFacts.tokenize_tag_here _ _ _
             (MoreParse.tag_spaced_here name ws "" true Hne Hname Hslash Hws Hspace)).
  reflexivity.
Qed.

Lemma X9_witness :
  Str.is_empty "img" = false /\ Str.all name_char "img" = true
  /\ Str.starts_with "/" "img" = false
  /\ Str.is_empty " " = false /\ Str.all is_space " " = true
  /\ parse ("<" ++ "img" ++ " " ++ "/>") = Return [mkElement (Some "img") [] []].
Proof.
  split; [reflexivity|]. split; [reflexivity|]. split; [reflexivity|].
  split; [reflexivity|]. split; [reflexivity|].
  apply X9_parse_spaced_slash; reflexivity.
Defined.

(** X10: the text before a tag is unescaped, the text after the last tag
    is not: around a self-closing tag, [parse] returns a text node with
    the unescaped leading text, the node of the tag, and a text node with
    the trailing text as it is. *)
Theorem X10_parse_text_around (text name trailing : string) :
  Str.is_empty text = false -> Str.all non_lt text = true ->
  Str.is_empty name = false -> Str.all name_char name = true ->
  Str.starts_with "/" name = false ->
  Str.all non_lt trailing = true ->
  parse (text ++ "<" ++ name ++ " />" ++ trailing)
  = Return (text_node (unescape text) :: mkElement (Some name) [] []
              :: (if Str.is_empty trailing then [] else [text_node trailing])).
Proof.
  intros Ht Htext Hne Hname Hslash Htrail.
  apply SliceFacts.is_empty_false in Hne.
  pose proof (MoreParse.tag_spaced_here name " " trailing true Hne Hname Hslash
                ltac:(discriminate) eq_refl) as Hm.
  cbn [tag_close tag_slash] in Hm.
  unfold parse.
  change (" />" ++ trailing) with (" " ++ "/>" ++ trailing).
  rewrite (TokenFacts.tokenize_tag text _ _ _ Htext Hm), Ht.
  rewrite (MoreParse.tokenize_plain trailing Htrail).
  now destruct trailing.
Qed.

Lemma X10_witness :
  Str.is_empty "a &amp; b" = false /\ Str.all non_lt "a &amp; b" = true
  /\ Str.is_empty "br" = false /\ Str.all name_char "br" = true
  /\ Str.starts_with "/" "br" = false
  /\ Str.all non_lt "c &amp; d" = true
  /\ parse ("a &amp; b" ++ "<" ++ "br" ++ " />" ++ "c &amp; d")
     = Return (text_node (unescape "a &amp; b") :: mkElement (Some "br") [] []
                 :: (if Str.is_empty "c &amp; d" then [] else [text_node "c &amp; d"])).
Proof.
  split; [reflexivity|]. split; [reflexivity|]. split; [reflexivity|].
  split; [reflexivity|]. split; [reflexivity|]. split; [reflexivity|].
  apply X10_parse_text_around; reflexivity.
Defined.

(** X11: the loop over the matches of [tagRegExp] ends: every match
    takes at least one character off the source, so the loop makes no
    more rounds than the source has characters, and its tokens are those
    of [tokenize] whatever larger bound it is given. *)
Theorem X11_tokens_loop_ends (fuel : nat) (source : string) :
  String.length source <= fuel -> tokens_loop fuel source = tokenize source.
Proof.
  intros H. unfold tokenize. now apply TokenFacts.tokens_loop_fuel.
Qed.

Lemma X11_witness :
  String.length "a<b>c" <= 9 /\ tokens_loop 9 "a<b>c" = tokenize "a<b>c".
Proof.
  split; [simpl; lia|].
  apply X11_tokens_loop_ends. simpl. lia.
Defined.

(** X12: the loop over the matches of [attrRegExp] ends: [lastIndex]
    grows at every round and stays within the text of the attributes. *)
Theorem X12_attrs_loop_ends (fuel : nat) (attrs : string) :
  String.length attrs <= fuel -> attrs_loop fuel 0 attrs [] = parse_attrs attrs.
Proof.
  intros H. unfold parse_attrs. apply LoopFacts.attrs_loop_fuel; lia.
Qed.

Lemma X12_witness :
  String.length " a b" <= 9 /\ attrs_loop 9 0 " a b" [] = parse_attrs " a b".
Proof.
  split; [simpl; lia|].
  apply X12_attrs_loop_ends. simpl. lia.
Defined.

(** X13: the attributes that [toString] writes are read back by the
    attribute loop of [parse]: for attrs with good keys, all distinct,
    the loop on the serialized attributes returns the attrs, whatever
    their values. *)
Theorem X13_attrs_round_trip (attrs : Dict.t string) :
  good_attrs attrs = true ->
  parse_attrs (join (map attr_toString attrs)) = attrs.
Proof. apply AttrFacts.parse_attrs_join. Qed.

Lemma X13_witness :
  let attrs := [("noDisabled", ""); ("href", "x&y<z"); ("dataId", "1 2")] in
  good_attrs attrs = true
  /\ parse_attrs (join (map attr_toString attrs)) = attrs.
Proof.
  split; [reflexivity|].
  apply X13_attrs_round_trip. reflexivity.
Defined.

(** X14: [parse] with nodes as objects in a store: it throws exactly
    when [parse] on values throws, and otherwise returns nodes that have
    the values [parse] returns, and leaves every object that was in the
    store before the call as it was. *)
Theorem X14_parse_in_store (source : string) (h : Store.heap) :
  match parse source with
  | Return es =>
      exists out h',
        Store.parse source h = Store.Done out h'
        /\ Store.reps h' es out
        /\ (forall a, a < List.length h -> nth_error h' a = nth_error h a)
  | Throws => Store.parse source h = Store.Throw
  end.
Proof. apply BuildFacts.parse_refines. Qed.

(** ** The node constructor (index.ts, lines 56-75) *)

(** X15: the attrs of a node that [Element] makes of the entries of an
    object, none of which writes the key [__proto__] (an assignment to
    that key sets no property of a plain object).  Under a key is what
    the last entry that writes the key writes (two entries may write one
    key: [false] under [a] and [true] under [noA] both write [noA]), the
    attrs have no entry for a key that no entry writes, and no key has
    two entries. *)
Theorem X15_Element_attrs (type : option string) (entries : Dict.t any)
    (children : option Content) (k : string) :
  forallb (fun kv => negb (String.eqb (fst kv) "__proto__")) (written entries) = true ->
  Dict.get k (attrs (Element_ type (Some entries) children))
  = Dict.get k (rev (written entries))
  /\ distinct_keys (attrs (Element_ type (Some entries) children)) = true.
Proof.
  intros _. unfold Element_, Element_of. cbn [attrs]. split.
  - rewrite MoreElement.get_build_attrs.
    now destruct (Dict.get k (rev (written entries))).
  - now apply MoreElement.build_attrs_keeps.
Qed.

Lemma X15_witness :
  let entries :=
    [("noA", Text "x"); ("b", Text "y"); ("a", Boolean false); ("c", Null)] in
  forallb (fun kv => negb (String.eqb (fst kv) "__proto__")) (written entries) = true
  /\ Dict.get "noA" (attrs (Element_ (Some "p") (Some entries) None))
     = Dict.get "noA" (rev (written entries))
  /\ distinct_keys (attrs (Element_ (Some "p") (Some entries) None)) = true.
Proof.
  split; [reflexivity|].
  apply X15_Element_attrs. reflexivity.
Defined.

(** X30: a string given as the children of a node is one text child,
    and is serialized escaped between the tags of the node; the empty
    string gives no child, and the node is serialized as a self-closing
    tag. *)
Theorem X30_toString_string_child (t s : string) :
  Str.is_empty t = false -> String.eqb t "text" = false ->
  toString (Element_ (Some t) None (Some (CString s)))
  = Return (if Str.is_empty s then "<" ++ t ++ "/>"
            else "<" ++ t ++ ">" ++ escape s false ++ "</" ++ t ++ ">").
Proof.
  intros Ht Htext. rewrite MoreEscape.toString_serializable.
  destruct s as [|c s]; unfold Element_, Element_of.
  - cbn [truthy Str.is_empty negb serializable text_of no_type is_text forallb map join
         type_name].
    now rewrite Ht, Htext.
  - cbn [truthy Str.is_empty negb toElementArray toElement]. unfold Element_of.
    cbn [build_attrs Dict.set append serializable text_of no_type is_text type_name].
    rewrite Ht, Htext.
    cbn [forallb serializable text_of no_type is_text Str.is_empty String.eqb Ascii.eqb
         Bool.eqb Dict.get andb map join].
    now rewrite StrFacts.append_nil_r.
Qed.

Lemma X30_witness :
  Str.is_empty "b" = false /\ String.eqb "b" "text" = false
  /\ toString (Element_ (Some "b") None (Some (CString "1 < 2")))
     = Return (if Str.is_empty "1 < 2" then "<" ++ "b" ++ "/>"
               else "<" ++ "b" ++ ">" ++ escape "1 < 2" false ++ "</" ++ "b" ++ ">").
Proof.
  split; [reflexivity|]. split; [reflexivity|].
  apply X30_toString_string_child; reflexivity.
Defined.

(** ** Selectors (index.ts, lines 100-155) *)

(** X16: the loop over the matches of [combRegExp] ends within as many
    rounds as the query has characters. *)
Theorem X16_selectors_loop_ends (fuel lastIndex : nat) (query combinator : string) :
  String.length query <= fuel ->
  selectors_loop fuel lastIndex query combinator
  = selectors_loop (String.length query) lastIndex query combinator.
Proof.
  intros H. now apply LoopFacts.selectors_loop_fuel.
Qed.

Lemma X16_witness :
  String.length "a > b" <= 9
  /\ selectors_loop 9 0 "a > b" " "
     = selectors_loop (String.length "a > b") 0 "a > b" " ".
Proof.
  split; [simpl; lia|].
  apply X16_selectors_loop_ends. simpl. lia.
Defined.

(** X17: two type names with a combinator between them are read as two
    selectors, the second with that combinator: spaces alone are the
    descendant combinator, and [>], [+] and [~] may have spaces around
    them. *)
Theorem X17_parseSelector_pair (a sep c k : string) :
  simple_name a = true -> simple_name c = true -> separator sep = Some k ->
  parseSelector (a ++ sep ++ c) = [[mkSelector a " "; mkSelector c k]].
Proof. apply MoreSelector.parseSelector_pair. Qed.

Lemma X17_witness :
  simple_name "ul" = true /\ simple_name "li" = true /\ separator "  > " = Some ">"
  /\ parseSelector ("ul" ++ "  > " ++ "li")
     = [[mkSelector "ul" " "; mkSelector "li" ">"]].
Proof.
  split; [reflexivity|]. split; [reflexivity|]. split; [reflexivity|].
  apply X17_parseSelector_pair; reflexivity.
Defined.

(** X18: three type names with one space between them.  [combRegExp]
    keeps its [lastIndex] while the query is cut, so the search for the
    second space starts that far into what is left of the query: the
    three names are read as three selectors only when the second name is
    longer than the first; otherwise the rest of the query, space
    included, is the type of the second selector. *)
Theorem X18_parseSelector_triple (a b c : string) :
  simple_name a = true -> simple_name b = true -> simple_name c = true ->
  parseSelector (a ++ " " ++ b ++ " " ++ c)
  = [if Nat.ltb (String.length a) (String.length b)
     then [mkSelector a " "; mkSelector b " "; mkSelector c " "]
     else [mkSelector a " "; mkSelector (b ++ " " ++ c) " "]].
Proof. apply MoreSelector.parseSelector_triple. Qed.

Lemma X18_witness :
  simple_name "a" = true /\ simple_name "b" = true /\ simple_name "c" = true
  /\ parseSelector ("a" ++ " " ++ "b" ++ " " ++ "c")
     = [if Nat.ltb (String.length "a") (String.length "b")
        then [mkSelector "a" " "; mkSelector "b" " "; mkSelector "c" " "]
        else [mkSelector "a" " "; mkSelector ("b" ++ " " ++ "c") " "]].
Proof.
  split; [reflexivity|]. split; [reflexivity|]. split; [reflexivity|].
  apply X18_parseSelector_triple; reflexivity.
Defined.

(** X19: [select] on a forest never throws, whatever the query, and
    every node it returns is a node of the forest. *)
Theorem X19_select_inside (forest : list Element) (query : string) :
  exists out,
    select (inr forest) query = Return out /\ incl out (flat_map nodes forest).
Proof. apply MoreSelect.select_inside. Qed.

(** X20: a query that is one type name selects the nodes of that type at
    every depth, each once, a node before the nodes under it. *)
Theorem X20_select_type (forest : list Element) (t : string) :
  simple_name t = true ->
  select (inr forest) t = Return (filter (has_type t) (flat_map nodes forest)).
Proof.
  intros H. cbn [select bind]. rewrite (MoreSelector.parseSelector_name t H).
  apply MoreSelect._select_one.
Qed.

Lemma X20_witness :
  let forest :=
    [mkElement (Some "a") [] [mkElement (Some "b") [] [mkElement (Some "a") [] []]];
     mkElement (Some "a") [] []] in
  simple_name "a" = true
  /\ select (inr forest) "a" = Return (filter (has_type "a") (flat_map nodes forest)).
Proof.
  split; [reflexivity|].
  apply X20_select_type. reflexivity.
Defined.

(** X21: the descendant combinator.  The query [a c] selects the nodes
    of type [c] under a node of type [a], and a node that has several
    ancestors of type [a] is returned once for each of them. *)
Theorem X21_select_descendant (forest : list Element) (a sep c : string) :
  simple_name a = true -> simple_name c = true -> separator sep = Some " " ->
  select (inr forest) (a ++ sep ++ c) = Return (flat_map (under a c 0) forest).
Proof.
  intros Ha Hc Hsep. cbn [select bind].
  rewrite (MoreSelector.parseSelector_pair a sep c " " Ha Hc Hsep).
  apply MoreSelect._select_under.
Qed.

Lemma X21_witness :
  let c := mkElement (Some "c") [] [] in
  let forest := [mkElement (Some "a") [] [mkElement (Some "a") [] [c]; c]] in
  simple_name "a" = true /\ simple_name "c" = true /\ separator " " = Some " "
  /\ select (inr forest) ("a" ++ " " ++ "c") = Return (flat_map (under "a" "c" 0) forest).
Proof.
  split; [reflexivity|]. split; [reflexivity|]. split; [reflexivity|].
  apply X21_select_descendant; reflexivity.
Defined.

(** X22: the child combinator.  The query [a > c] selects the nodes of
    type [c] whose parent has type [a], each once. *)
Theorem X22_select_child (forest : list Element) (a sep c : string) :
  simple_name a = true -> simple_name c = true -> separator sep = Some ">" ->
  select (inr forest) (a ++ sep ++ c) = Return (flat_map (child_of a c false) forest).
Proof.
  intros Ha Hc Hsep. cbn [select bind].
  rewrite (MoreSelector.parseSelector_pair a sep c ">" Ha Hc Hsep).
  apply MoreSelect._select_child.
Qed.

Lemma X22_witness :
  let c := mkElement (Some "c") [] [] in
  let forest := [mkElement (Some "a") [] [mkElement (Some "b") [] [c]; c]; c] in
  simple_name "a" = true /\ simple_name "c" = true /\ separator " > " = Some ">"
  /\ select (inr forest) ("a" ++ " > " ++ "c")
     = Return (flat_map (child_of "a" "c" false) forest).
Proof.
  split; [reflexivity|]. split; [reflexivity|]. split; [reflexivity|].
  apply X22_select_child; reflexivity.
Defined.

(** X23: the adjacent combinator.  The query [a + b] selects the nodes
    of type [b] whose previous sibling, text nodes included, has type
    [a]. *)
Theorem X23_select_adjacent (forest : list Element) (a sep b : string) :
  simple_name a = true -> simple_name b = true -> separator sep = Some "+" ->
  select (inr forest) (a ++ sep ++ b) = Return (next_to a b forest).
Proof.
  intros Ha Hb Hsep. cbn [select bind].
  rewrite (MoreSelector.parseSelector_pair a sep b "+" Ha Hb Hsep).
  apply MoreSelect._select_next.
Qed.

Lemma X23_witness :
  let a := mkElement (Some "a") [] [] in
  let b := mkElement (Some "b") [] [] in
  let forest := [a; b; b; a; text_node "x"; b] in
  simple_name "a" = true /\ simple_name "b" = true /\ separator "+" = Some "+"
  /\ select (inr forest) ("a" ++ "+" ++ "b") = Return (next_to "a" "b" forest).
Proof.
  split; [reflexivity|]. split; [reflexivity|]. split; [reflexivity|].
  apply X23_select_adjacent; reflexivity.
Defined.

(** X24: the sibling combinator.  The query [a ~ b] selects the nodes of
    type [b] that come after a sibling of type [a], and a node that has
    several such siblings before it is returned once for each of them. *)
Theorem X24_select_sibling (forest : list Element) (a sep b : string) :
  simple_name a = true -> simple_name b = true -> separator sep = Some "~" ->
  select (inr forest) (a ++ sep ++ b) = Return (later_than a b forest).
Proof.
  intros Ha Hb Hsep. cbn [select bind].
  rewrite (MoreSelector.parseSelector_pair a sep b "~" Ha Hb Hsep).
  apply MoreSelect._select_later.
Qed.

Lemma X24_witness :
  let a := mkElement (Some "a") [] [] in
  let b := mkElement (Some "b") [] [] in
  let forest := [b; a; a; b] in
  simple_name "a" = true /\ simple_name "b" = true /\ separator " ~ " = Some "~"
  /\ select (inr forest) ("a" ++ " ~ " ++ "b") = Return (later_than "a" "b" forest).
Proof.
  split; [reflexivity|]. split; [reflexivity|]. split; [reflexivity|].
  apply X24_select_sibling; reflexivity.
Defined.

(** ** The transform engine (index.ts, lines 200-216) *)

(** X25: under rules that are booleans, strings or arrays, on a forest
    whose types name no member of [Object.prototype], [transform] does
    not throw, and it returns, in the order of the nodes of the forest,
    the replacement of each node whose rule is a string or an array, and
    nothing else: a node whose rule is [true] is not in the result, and
    nothing below the nodes of the forest is.  Under rules that are all
    booleans the result is empty. *)
Theorem X25_transform_top_level (rules : Dict.t Transformer) (forest : list Element) :
  plain_rules rules = true -> forallb plain_types forest = true ->
  transform (inr forest) rules = Return (flat_map (replacement rules) forest).
Proof.
  intros Hr Hf. cbn [transform bind].
  now rewrite (MoreTransform.transform_forest_plain rules Hr forest Hf).
Qed.

Lemma X25_witness :
  let rules := [("a", TValue (VBool false)); ("b", TValue (VContent (CString "x")))] in
  let forest :=
    [mkElement (Some "a") [] [];
     mkElement (Some "c") [] [mkElement (Some "b") [] []];
     mkElement (Some "b") [] []] in
  plain_rules rules = true /\ forallb plain_types forest = true
  /\ transform (inr forest) rules = Return (flat_map (replacement rules) forest).
Proof.
  split; [reflexivity|]. split; [reflexivity|].
  apply X25_transform_top_level; reflexivity.
Defined.

(** X26: under such rules and on such a forest, [transform] changes the
    forest it is given: every node that it reaches and whose rule is
    [true] has, after the call, one more child, the node rebuilt with
    the replacements of its children as children; a node whose rule is
    [false], a string or an array is as it was, and so is everything
    below it. *)
Theorem X26_transform_grows_input (rules : Dict.t Transformer) (forest : list Element) :
  plain_rules rules = true -> forallb plain_types forest = true ->
  exists out,
    transform_forest forest rules = Return (out, map (grown rules) forest).
Proof.
  intros Hr Hf. eexists. now apply MoreTransform.transform_forest_plain.
Qed.

Lemma X26_witness :
  let rules := [("b", TValue (VContent (CString "x")))] in
  let forest := [mkElement (Some "a") [("k", "v")] [mkElement (Some "b") [] []]] in
  plain_rules rules = true /\ forallb plain_types forest = true
  /\ exists out,
      transform_forest forest rules = Return (out, map (grown rules) forest).
Proof.
  split; [reflexivity|]. split; [reflexivity|].
  apply X26_transform_grows_input; reflexivity.
Defined.


(* ================================================================== *)
(** * The properties of the specification, one by one *)

(** C1: [transform('<a/><b/>', {a: false, default: true})] returns the
    empty forest.  The tokenizer reads [<a/>] as an opening tag named
    [a/], so that [parse] gives one node of type [a/] that holds a node
    of type [b/].  And [transform] returns no node that it keeps: in the
    branch of [true], [const { type, attrs, children } = element] hides
    the array that [transform] returns, and the rebuilt node is pushed
    onto the children of the node itself.  Written with a space before
    the slash the source is read as the nodes [a] and [b], and the call
    returns the empty forest all the same. *)
Theorem C1_transform_source_text :
  let rules := [("a", TValue (VBool false)); ("default", TValue (VBool true))] in
  parse "<a/><b/>" = Return [mkElement (Some "a/") [] [mkElement (Some "b/") [] []]]
  /\ transform (inl "<a/><b/>") rules = Return []
  /\ parse "<a /><b />" = Return [mkElement (Some "a") [] []; mkElement (Some "b") [] []]
  /\ transform (inl "<a /><b />") rules = Return [].
Proof. repeat split; reflexivity. Qed.

(** C2: [transform] changes the forest it is given.  On a node [a]
    without children and no rules, it returns the empty forest, and the
    node [a] of the input has a child after the call, the rebuilt node.
    On a node [a] that holds a node [b], under the rule that replaces
    [b] by the string [x], it returns the empty forest again; the text
    node and the rebuilt [a] that holds it are allocated, and the
    rebuilt [a] is pushed onto the children of the [a] of the input. *)
Theorem C2_transform_changes_input :
  Store.transform 2 (inr [0]) [] [Store.mkNode (Some "a") [] []]
  = Store.Done [] [Store.mkNode (Some "a") [] [1]; Store.mkNode (Some "a") [] []]
  /\ Store.transform 3 (inr [1])
       [("b", Store.TValue (Store.VContent (Store.CString "x")))]
       [Store.mkNode (Some "b") [] []; Store.mkNode (Some "a") [("k", "v")] [0]]
     = Store.Done []
         [Store.mkNode (Some "b") [] [];
          Store.mkNode (Some "a") [("k", "v")] [0; 3];
          Store.mkNode (Some "text") [("content", "x")] [];
          Store.mkNode (Some "a") [("k", "v")] [2]].
Proof. split; reflexivity. Qed.

(** C3: [parse] on a closing tag that nothing opened.  The closing tag
    takes the root container off the stack, and [parse] throws: at the
    next text or opening tag, or at the end when it reads the children
    of the last frame.  An opening tag left open keeps its content. *)
Theorem C3_parse_unmatched_closer :
  parse "</a>" = Throws
  /\ parse "<a></a></a>x" = Throws
  /\ (forall token tokens root,
        Str.is_empty (close token) = false ->
        build (inr token :: tokens) [root] = Throws)
  /\ parse "<a>x<b>y"
     = Return [mkElement (Some "a") []
                 [mkElement (Some "text") [("content", "x")] [];
                  mkElement (Some "b") []
                    [mkElement (Some "text") [("content", "y")] []]]].
Proof.
  repeat split; try reflexivity.
  intros token tokens root H. now apply build_close_root.
Qed.

(** C4: [transformAsync] returns the nodes it keeps, [transform] does
    not.  On a node [a] and no rules, [transform] returns the empty
    forest and [transformAsync] resolves to the rebuilt node; and so on
    a forest where one rule drops a node, one replaces a node by a
    string and the default keeps the others. *)
Theorem C4_transformAsync_and_transform :
  let rules := [("a", TValue (VBool false));
                ("b", TValue (VContent (CString "x")));
                ("default", TValue (VBool true))] in
  let forest :=
    [mkElement (Some "a") [] [];
     mkElement (Some "c") [("k", "v")]
       [mkElement (Some "b") [] []; mkElement (Some "d") [] []]] in
  transform (inr [mkElement (Some "a") [] []]) [] = Return []
  /\ transformAsync (inr [mkElement (Some "a") [] []]) [] = Return [ENode (Some "a") [] []]
  /\ transform (inr forest) rules = Return []
  /\ transformAsync (inr forest) rules
     = Return [ENode (Some "c") [("k", "v")]
                 [ENode (Some "text") [("content", "x")] []; ENode (Some "d") [] []]].
Proof. repeat split; reflexivity. Qed.

(** C5, as stated, fails: two strings given as children are two text
    nodes; their serializations run together, and [parse] reads one text
    node. *)
Lemma C5_counterexample :
  let forest := [Element_ (Some "a") None (Some (CArray [inl "x"; inl "y"]))] in
  join_children toString forest = Return "<a>xy</a>"
  /\ parse "<a>xy</a>"
     = Return [mkElement (Some "a") [] [mkElement (Some "text") [("content", "xy")] []]]
  /\ parse "<a>xy</a>" <> Return forest.
Proof. repeat split; try reflexivity. discriminate. Qed.

(** C5, amended: on a canonical forest every [toString] returns, and
    [parse] on the concatenation of the serializations returns the
    forest.  In a canonical forest a text node has a non-empty content,
    no other attribute and no child; another node has a good name, good
    attribute keys, all distinct, and at least one attribute or child;
    no two text nodes are side by side; and the forest itself does not
    end with a text node.  The content of the text nodes and the values
    of the attributes are any strings. *)
Theorem C5_parse_serialized (forest : list Element) :
  canonical_forest forest = true ->
  exists text,
    join_children toString forest = Return text
    /\ parse text = Return forest.
Proof.
  intros H. exists (join (map text_of forest)). split.
  - apply RoundTrip.serialize_canonical.
    unfold canonical_forest in H. rewrite !andb_true_iff in H. tauto.
  - now apply RoundTrip.parse_serialized.
Qed.

Lemma C5_witness :
  let forest :=
    [mkElement (Some "a") [("noDisabled", ""); ("href", "x&y")]
       [mkElement (Some "text") [("content", "1 < 2")] [];
        mkElement (Some "b") [] [mkElement (Some "text") [("content", "z")] []]];
     mkElement (Some "img") [("src", "u")] []] in
  canonical_forest forest = true
  /\ exists text,
      join_children toString forest = Return text
      /\ parse text = Return forest.
Proof.
  split; [reflexivity|].
  apply C5_parse_serialized. reflexivity.
Defined.

(** C6: for every string [s] and both values of the inline flag,
    [unescape (escape s inline)] is [s]; and after the first three passes
    of [unescape] (for [&lt;], [&gt;] and [&quot;]) every ampersand of [s]
    is still written [&amp;], so that only the last pass consumes it. *)
Theorem C6_unescape_escape (s : string) (inline : bool) :
  unescape (escape s inline) = s
  /\ Str.replace_all "&quot;" dquotes
       (Str.replace_all "&gt;" ">"
          (Str.replace_all "&lt;" "<" (escape s inline)))
     = Str.cmap (stage true false false false) s.
Proof.
  split; [apply EscapeFacts.unescape_escape|].
  rewrite EscapeFacts.escape_cmap.
  rewrite (StrFacts.cmap_ext _ _ s (EscapeFacts.esc_char_stage inline)).
  now rewrite EscapeFacts.unescape_lt, EscapeFacts.unescape_gt,
    EscapeFacts.unescape_quot.
Qed.

(** C7: a [true] attribute becomes the empty-string value under its key
    and is written as the bare key; a [false] attribute becomes the
    empty-string value under ["no" + capitalize(key)] and is written
    hyphenated. *)
Theorem C7_boolean_attributes :
  let yes := Element_ (Some "a") (Some [("disabled", Boolean true)]) None in
  let no := Element_ (Some "a") (Some [("disabled", Boolean false)]) None in
  attrs yes = [("disabled", "")]
  /\ toString yes = Return "<a disabled/>"
  /\ attrs no = [("noDisabled", "")]
  /\ toString no = Return "<a no-disabled/>".
Proof. repeat split; reflexivity. Qed.

(** C8: [select] on [<a><b><c/></b></a>].  The tokenizer reads [<c/>] as
    an opening tag named [c/], so the query [a c] finds nothing, like
    the query [a > c]; with a space before the slash, [a c] finds the
    node [c] and [a > c] finds nothing. *)
Theorem C8_select_descendant_child :
  parse "<a><b><c/></b></a>"
  = Return [mkElement (Some "a") []
              [mkElement (Some "b") [] [mkElement (Some "c/") [] []]]]
  /\ select (inl "<a><b><c/></b></a>") "a c" = Return []
  /\ select (inl "<a><b><c/></b></a>") "a > c" = Return []
  /\ select (inl "<a><b><c /></b></a>") "a c" = Return [mkElement (Some "c") [] []]
  /\ select (inl "<a><b><c /></b></a>") "a > c" = Return [].
Proof. repeat split; reflexivity. Qed.

(** C9: [select] on [<a/><b/><c/>].  The tokenizer reads the three tags
    as opening tags named [a/], [b/] and [c/], each nested in the one
    before, so the query [a + b] finds nothing, like the query [a + c];
    with a space before each slash, [a + b] finds the node [b] and
    [a + c] finds nothing. *)
Theorem C9_select_adjacent :
  parse "<a/><b/><c/>"
  = Return [mkElement (Some "a/") []
              [mkElement (Some "b/") [] [mkElement (Some "c/") [] []]]]
  /\ select (inl "<a/><b/><c/>") "a + b" = Return []
  /\ select (inl "<a/><b/><c/>") "a + c" = Return []
  /\ select (inl "<a /><b /><c />") "a + b" = Return [mkElement (Some "b") [] []]
  /\ select (inl "<a /><b /><c />") "a + c" = Return [].
Proof. repeat split; reflexivity. Qed.

(** C10: the serialization of a text node is the non-inline escape of
    its [content] attribute, and throws when the attrs have no [content]
    key. *)
Theorem C10_text_toString (e : Element) :
  type e = Some "text" ->
  match Dict.get "content" (attrs e) with
  | Some content => toString e = Return (escape content false)
  | None => toString e = Throws
  end.
Proof.
  intros H. rewrite (toString_text e H).
  now destruct (Dict.get "content" (attrs e)).
Qed.

Lemma C10_witness :
  type (Element_ (Some "text") None None) = Some "text"
  /\ toString (Element_ (Some "text") None None) = Throws.
Proof.
  split; [reflexivity|].
  exact (C10_text_toString (Element_ (Some "text") None None) eq_refl).
Defined.
